(** * CryptoSuite: operation catalog, recipe executor and format detector

    A shallow embedding of the JavaScript sources
    - [cipher.js]   (rot13, caesar, caesarDecrypt, atbash, vigenere,
                     vigenereDecrypt, railFence, railFenceDecrypt, xorCipher,
                     substitution),
    - [encoding.js] (toBase64, fromBase64, toBase32, fromBase32, toHex,
                     fromHex, urlEncode, urlDecode, toBinary, fromBinary),
    - [hash.js]     (sha1, md5, simpleHash32, djb2Hash, crc32),
    - [text.js]     (reverse, trim, removeSpaces, normalizeWhitespace,
                     removeLineBreaks, removeDuplicateLines),
    - [index.js]    (the registry and [execute]),
    - [app.js]      (the editing of the recipe, [executeRecipe],
                     [executeStepByStep]),
    - [ui.js]       (the methods of [Logger]),
    - [utils.js]    ([detectInputType], [validateRecipe]),
    together with the properties of the specification that concern them and
    further properties of the code.

    Conventions of the embedding.
    - A JavaScript string is the list of its UTF-16 code units, each an
      integer in [0, 65536).
    - A thrown [Error] is the constructor [Throw] of the type [result],
      carrying the error's [message].
    - An object used as a dictionary is a finite map of its own
      properties. A parameter object is read under the names of the
      catalog, where a property that is absent reads as [undefined]; the
      registry is read under any key, where the names that every object
      inherits from [Object.prototype] are found too.
    - A number is modelled by an integer: this is exact for the numbers
      below 2^53 that the sources compute with, and from there on the
      integer stands for the double nearest to it where it is printed. *)

From Stdlib Require Import ZArith Ascii String ZifyNat.
From stdpp Require Import base tactics option list gmap.

Open Scope Z_scope.

(* ================================================================== *)
(** * The JavaScript values the sources work on                        *)
(* ================================================================== *)

Module JS.

(** A string is its sequence of UTF-16 code units. *)
Abbreviation jsstring := (list Z).

(** The code unit of an ASCII character and the string of an ASCII literal. *)
Definition code (c : ascii) : Z := Z.of_N (N_of_ascii c).

Fixpoint lit (s : string) : jsstring :=
  match s with
  | EmptyString => []
  | String c r => code c :: lit r
  end.

(** Outcome of an evaluation that may throw: a value, or the message of the
    thrown [Error]. *)
Inductive result (A : Type) : Type :=
  | Ok (a : A)
  | Throw (message : jsstring).
Global Arguments Ok {A} a.
Global Arguments Throw {A} message.

Definition bind {A B} (r : result A) (k : A -> result B) : result B :=
  match r with
  | Ok a => k a
  | Throw m => Throw m
  end.

(** [try { body } catch (error) { throw new Error(wrap(error.message)) }] *)
Definition rethrow {A} (wrap : jsstring -> jsstring) (body : result A) : result A :=
  match body with
  | Ok a => Ok a
  | Throw m => Throw (wrap m)
  end.

(** The values a parameter object can hold: what JSON and the edit form
    produce. *)
Inductive Value : Type :=
  | VUndefined
  | VNull
  | VBool (b : bool)
  | VNum (n : Z)
  | VStr (s : jsstring).

(** ToBoolean: [undefined], [null], [false], [0] and the empty string are
    falsy, every other value is truthy. *)
Definition ToBoolean (v : Value) : bool :=
  match v with
  | VUndefined | VNull => false
  | VBool b => b
  | VNum n => negb (n =? 0)
  | VStr s => match s with [] => false | _ => true end
  end.

(** Digits of a non-negative integer in a radix up to 36, most significant
    first, lower case. *)
Definition digitChar (d : Z) : Z := if d <? 10 then 48 + d else 87 + d.

Fixpoint digitsRadix_fuel (fuel : nat) (R n : Z) (acc : jsstring) : jsstring :=
  match fuel with
  | O => acc
  | S f =>
      let acc' := digitChar (n mod R) :: acc in
      if n <? R then acc' else digitsRadix_fuel f R (n / R) acc'
  end.

(** [n.toString(R)] for an integer [n] of magnitude below 2^53 and
    [2 <= R <= 36]: the sign and the digits. *)
Definition toStringRadix (R n : Z) : jsstring :=
  let mag := Z.abs n in
  let ds := digitsRadix_fuel (S (Z.to_nat (Z.log2 mag))) R mag [] in
  if n <? 0 then 45 :: ds else ds.

(** The double that an integer [m >= 2^53] denotes: the nearest one, ties
    to the even significand. It is given by its significand [q], with
    [2^52 <= q < 2^53], and its exponent [e]; its value is [q * 2^e]. *)
Definition roundToDouble (m : Z) : Z * Z :=
  let e := Z.log2 m - 52 in
  let ulp := 2 ^ e in
  let q := m / ulp in
  let r := m mod ulp in
  let q' := if 2 * r <? ulp then q
            else if ulp <? 2 * r then q + 1
            else q + q mod 2 in
  if q' =? 2 ^ 53 then (2 ^ 52, e + 1) else (q', e).

(** Whether the integer [v] reads back as the double [q * 2^e]: it lies
    within half a unit in the last place of it (a quarter below a power of
    two), the two ends included when [q] is even. The comparison is made on
    the fourfold values, which are integers. *)
Definition readsBackAs (q e v : Z) : bool :=
  let x4 := 4 * (q * 2 ^ e) in
  let lo := x4 - (if q =? 2 ^ 52 then 2 ^ e else 2 * 2 ^ e) in
  let hi := x4 + 2 * 2 ^ e in
  ((lo <? 4 * v) && (4 * v <? hi))
  || (Z.even q && ((4 * v =? lo) || (4 * v =? hi))).

(** The numeral with the fewest significant digits that reads back as the
    double [x = q * 2^e], and among these the closest to [x]: with [k]
    significant digits, from [k] on, it is one of the two multiples of
    [10^(n - k)] around [x], [n] being the number of digits of [x]. *)
Fixpoint shortestNumeral (fuel : nat) (q e x n k : Z) : Z :=
  match fuel with
  | O => x
  | S f =>
      let p := 10 ^ (n - k) in
      let below := x / p * p in
      let above := below + p in
      match readsBackAs q e below, readsBackAs q e above with
      | true, true =>
          if x - below <? above - x then below
          else if above - x <? x - below then above
          else if Z.even (x / p) then below else above
      | true, false => below
      | false, true => above
      | false, false => shortestNumeral f q e x n (k + 1)
      end
  end.

Definition decimalDigits (m : Z) : jsstring :=
  digitsRadix_fuel (S (Z.to_nat (Z.log2 m))) 10 m [].

Fixpoint dropZeros (s : jsstring) : jsstring :=
  match s with
  | c :: r => if c =? 48 then dropZeros r else s
  | [] => []
  end.

(** [String(n)] for the number that the integer [n] denotes. Below 2^53
    in magnitude every integer is a number, and its digits are printed.
    From there on [n] stands for the nearest double, of which the shortest
    numeral that reads back as it is printed: followed by zeros up to 21
    digits, in exponent notation beyond, and as [Infinity] from 2^1024
    on. *)
Definition Number_toString (n : Z) : jsstring :=
  let m := Z.abs n in
  if m <? 2 ^ 53 then toStringRadix 10 n
  else
    let sign := if n <? 0 then [45] else [] in
    let '(q, e) := roundToDouble m in
    if 972 <=? e then sign ++ lit "Infinity"
    else
      let x := q * 2 ^ e in
      let n10 := Z.of_nat (length (decimalDigits x)) in
      let ds := decimalDigits (shortestNumeral (Z.to_nat n10) q e x n10 1) in
      if (length ds <=? 21)%nat then sign ++ ds
      else
        let exponent := decimalDigits (Z.of_nat (length ds) - 1) in
        match reverse (dropZeros (reverse ds)) with
        | [] => sign ++ ds
        | [d] => sign ++ [d] ++ lit "e+" ++ exponent
        | d :: rest => sign ++ [d] ++ [46] ++ rest ++ lit "e+" ++ exponent
        end.

(** ToString. *)
Definition ToString (v : Value) : jsstring :=
  match v with
  | VUndefined => lit "undefined"
  | VNull => lit "null"
  | VBool true => lit "true"
  | VBool false => lit "false"
  | VNum n => Number_toString n
  | VStr s => s
  end.

(** WhiteSpace and LineTerminator code points: the class [\s] of regular
    expressions, what [trim] removes, and what [parseInt] skips. *)
Definition isWhiteSpace (c : Z) : bool :=
  ((9 <=? c) && (c <=? 13)) || (c =? 32) || (c =? 160) || (c =? 5760)
  || ((8192 <=? c) && (c <=? 8202)) || (c =? 8232) || (c =? 8233)
  || (c =? 8239) || (c =? 8287) || (c =? 12288) || (c =? 65279).

Fixpoint trimStart (s : jsstring) : jsstring :=
  match s with
  | c :: r => if isWhiteSpace c then trimStart r else s
  | [] => []
  end.

Definition trimEnd (s : jsstring) : jsstring := reverse (trimStart (reverse s)).

Definition trim (s : jsstring) : jsstring := trimEnd (trimStart s).

(** Value of a code unit as a digit: [0-9], then [a-z] or [A-Z] for 10..35. *)
Definition digitValue (c : Z) : option Z :=
  if (48 <=? c) && (c <=? 57) then Some (c - 48)
  else if (97 <=? c) && (c <=? 122) then Some (c - 87)
  else if (65 <=? c) && (c <=? 90) then Some (c - 55)
  else None.

(** The longest prefix of radix-[R] digits, read as a number;
    [None] when that prefix is empty. *)
Fixpoint parseDigits (R : Z) (acc : option Z) (s : jsstring) : option Z :=
  match s with
  | c :: r =>
      match digitValue c with
      | Some d =>
          if d <? R then parseDigits R (Some (default 0 acc * R + d)) r
          else acc
      | None => acc
      end
  | [] => acc
  end.

(** [parseInt(string, radix)], with [radix = 0] standing for an absent
    radix; [None] is NaN. Leading white space is skipped, a sign is read,
    a prefix [0x] or [0X] is skipped when the radix is 16 or absent, and
    the digits that follow are read as far as they go. *)
Definition parseInt_radix (input : jsstring) (radix : Z) : option Z :=
  let S0 := trimStart input in
  let sign := match S0 with c :: _ => if c =? 45 then -1 else 1 | [] => 1 end in
  let S1 := match S0 with
            | c :: r => if (c =? 45) || (c =? 43) then r else S0
            | [] => S0
            end in
  if negb (radix =? 0) && ((radix <? 2) || (36 <? radix)) then None
  else
    let stripPrefix := (radix =? 0) || (radix =? 16) in
    let hasPrefix :=
      match S1 with
      | a :: b :: _ => (a =? 48) && ((b =? 120) || (b =? 88))
      | _ => false
      end in
    let R := if stripPrefix && hasPrefix then 16
             else if radix =? 0 then 10 else radix in
    let S2 := if stripPrefix && hasPrefix then drop 2 S1 else S1 in
    (fun n => sign * n) <$> parseDigits R None S2.

(** [parseInt(v)] on a value: the argument is first converted by ToString. *)
Definition parseInt (v : Value) : option Z := parseInt_radix (ToString v) 0.

(** [parseInt(v) || d]: NaN and 0 are falsy and give the fallback [d]. *)
Definition parseInt_or (v : Value) (d : Z) : Z :=
  match parseInt v with
  | Some n => if n =? 0 then d else n
  | None => d
  end.

(** [String.fromCharCode(n)]: the code unit ToUint16(n). *)
Definition fromCharCode (n : Z) : Z := n mod 65536.

(** [params[name]]: an absent property reads as [undefined]. *)
Definition prop (params : gmap jsstring Value) (name : jsstring) : Value :=
  default VUndefined (params !! name).

(** The character class [[a-zA-Z]]. *)
Definition isLetter (c : Z) : bool :=
  ((65 <=? c) && (c <=? 90)) || ((97 <=? c) && (c <=? 122)).

(** [s.replace(/[cls]/g, f)] for a character class [cls]: every code unit of
    the class is replaced by what the callback returns for it. *)
Definition replaceClass (cls : Z -> bool) (f : Z -> jsstring) (s : jsstring)
  : jsstring :=
  s ≫= (fun c => if cls c then f c else [c]).

(** [s.replace(/[cls]/g, '')] and [s.replace(/[cls]+/g, '')]. *)
Definition removeClass (cls : Z -> bool) (s : jsstring) : jsstring :=
  filter (fun c => cls c = false) s.

(** Reading an array or a string at a numeric index: [None] is
    [undefined]. *)
Definition at_index {A} (l : list A) (i : Z) : option A :=
  if i <? 0 then None else l !! Z.to_nat i.

(** Surrogate code units. *)
Definition isHighSurrogate (c : Z) : bool := (55296 <=? c) && (c <=? 56319).
Definition isLowSurrogate (c : Z) : bool := (56320 <=? c) && (c <=? 57343).

(** The string iterator ([for (let char of text)], [new Set(text)]): it
    yields the code points of the string, a surrogate pair as one
    two-unit string, every other code unit on its own. *)
Fixpoint codePoints (s : jsstring) : list jsstring :=
  match s with
  | hi :: t =>
      match t with
      | lo :: r =>
          if isHighSurrogate hi && isLowSurrogate lo
          then [hi; lo] :: codePoints r
          else [hi] :: codePoints t
      | [] => [[hi]]
      end
  | [] => []
  end.

(** [s.padStart(n, '0')]. *)
Definition padStart0 (n : nat) (s : jsstring) : jsstring :=
  replicate (n - length s) 48 ++ s.

(** [parts.join(sep)]. *)
Fixpoint join (sep : jsstring) (parts : list jsstring) : jsstring :=
  match parts with
  | [] => []
  | [p] => p
  | p :: rest => p ++ sep ++ join sep rest
  end.

(** Whether a high surrogate is somewhere followed at once by a low one,
    that is whether the iterator yields a two-unit string. *)
Fixpoint hasSurrogatePair (s : jsstring) : bool :=
  match s with
  | hi :: t =>
      match t with
      | lo :: _ =>
          (isHighSurrogate hi && isLowSurrogate lo) || hasSurrogatePair t
      | [] => false
      end
  | [] => false
  end.

(** The message of the TypeError raised when a method is called on
    [undefined] or [null]. Its wording is the engine's; the sources only
    ever pass it on inside another message. *)
Definition TypeError_message : jsstring :=
  lit "Cannot read properties of null".

(** The message of the TypeError raised when what is called is not a
    function, as in a call of a method that the object does not have. The
    wording is the engine's too. *)
Definition notAFunction (callee : string) : jsstring :=
  lit callee ++ lit " is not a function".

(** 32-bit integer conversions and the bitwise operators built on them. *)
Definition ToInt32 (n : Z) : Z := (n + 2147483648) mod 4294967296 - 2147483648.
Definition ToUint32 (n : Z) : Z := n mod 4294967296.
Definition bitxor (a b : Z) : Z := ToInt32 (Z.lxor (ToInt32 a) (ToInt32 b)).
Definition bitand (a b : Z) : Z := ToInt32 (Z.land (ToInt32 a) (ToInt32 b)).
Definition ushr (a k : Z) : Z := Z.shiftr (ToUint32 a) (k mod 32).

End JS.

Import JS.

(* ================================================================== *)
(** * What the platform provides                                       *)
(* ================================================================== *)

(** The sources call three primitives of the host that are taken as given:
    the two case mappings of strings and the digest of [crypto.subtle].
    Their laws record what is used of them: on ASCII text the case mappings
    act letter by letter, and a digest is a sequence of bytes. *)

Definition isAscii (c : Z) : Prop := 0 <= c < 128.
Definition isByte (b : Z) : Prop := 0 <= b < 256.

Definition upperAscii (c : Z) : Z :=
  if (97 <=? c) && (c <=? 122) then c - 32 else c.
Definition lowerAscii (c : Z) : Z :=
  if (65 <=? c) && (c <=? 90) then c + 32 else c.

Class Platform := {
  toUpperCase : jsstring -> jsstring;
  toLowerCase : jsstring -> jsstring;
  digest : jsstring -> list Z -> result (list Z);
  toUpperCase_ascii s : Forall isAscii s -> toUpperCase s = upperAscii <$> s;
  toLowerCase_ascii s : Forall isAscii s -> toLowerCase s = lowerAscii <$> s;
  digest_bytes alg data out : digest alg data = Ok out -> Forall isByte out;
  digest_SHA1_length data out :
    digest (lit "SHA-1") data = Ok out -> length out = 20%nat
}.

(** A host on which the laws hold, for running the operations on examples:
    the case mappings of ASCII, and in place of a digest the first 20 bytes
    of the zero-padded data. *)
Definition samplePlatform : Platform.
Proof.
  refine {| toUpperCase := fmap upperAscii;
            toLowerCase := fmap lowerAscii;
            digest := fun _ data =>
              Ok (take 20 (((fun b => b mod 256) <$> data) ++ replicate 20 0)) |}.
  - reflexivity.
  - reflexivity.
  - intros _ data out [= <-]. apply Forall_take, Forall_app. split.
    + apply Forall_fmap, Forall_forall. intros b _. unfold isByte; simpl.
      apply Z.mod_pos_bound. reflexivity.
    + apply Forall_forall. intros b Hb. unfold isByte.
      repeat (apply elem_of_cons in Hb as [-> | Hb]; [lia |]).
      by apply elem_of_nil in Hb.
  - intros data out [= <-]. rewrite length_take, length_app.
    change (length [0;0;0;0;0;0;0;0;0;0;0;0;0;0;0;0;0;0;0;0]) with 20%nat. lia.
Defined.

(* ================================================================== *)
(** * Descriptors of operations                                        *)
(* ================================================================== *)

(** The shape shared by the entries of [cipher.js], [encoding.js] and
    [hash.js] (the icon and the placeholder, which are only displayed, are
    left out). *)

Module Descriptor.

(** One entry of an operation's [params] array. *)
Record ParamSpec : Type := {
  p_name : jsstring;
  p_label : jsstring;
  p_type : jsstring;
  p_default : Value;
  p_min : option Z;
  p_max : option Z;
  p_required : bool
}.

(** One entry of the catalog. *)
Record Operation : Type := {
  op_name : jsstring;
  op_category : jsstring;
  op_description : jsstring;
  op_params : list ParamSpec;
  op_fn : jsstring -> gmap jsstring Value -> result jsstring
}.

(** A parameter entry with a name, a label, a type and a default. *)
Definition param (name label type : string) (default : Value)
    (min max : option Z) (required : bool) : ParamSpec :=
  {| p_name := lit name; p_label := lit label; p_type := lit type;
     p_default := default; p_min := min; p_max := max;
     p_required := required |}.

End Descriptor.

Import Descriptor.

(* ================================================================== *)
(** * cipher.js                                                        *)
(* ================================================================== *)

Module CipherOperations.

(** [rot13.fn] *)
Definition rot13_fn (input : jsstring) : result jsstring :=
  Ok (replaceClass isLetter (fun c =>
        let base := if c <=? 90 then 65 else 97 in
        [fromCharCode (base + Z.rem (c - base + 13) 26)]) input).

(** [caesar.fn] *)
Definition caesar_fn (input : jsstring) (params : gmap jsstring Value)
  : result jsstring :=
  let shift := parseInt_or (prop params (lit "shift")) 3 in
  if (shift <? 1) || (25 <? shift)
  then Throw (lit "Shift must be between 1 and 25")
  else
    Ok (replaceClass isLetter (fun c =>
          let base := if c <=? 90 then 65 else 97 in
          [fromCharCode (base + Z.rem (c - base + shift) 26)]) input).

(** [caesarDecrypt.fn] *)
Definition caesarDecrypt_fn (input : jsstring) (params : gmap jsstring Value)
  : result jsstring :=
  let shift := parseInt_or (prop params (lit "shift")) 3 in
  if (shift <? 1) || (25 <? shift)
  then Throw (lit "Shift must be between 1 and 25")
  else
    Ok (replaceClass isLetter (fun c =>
          let base := if c <=? 90 then 65 else 97 in
          [fromCharCode (base + Z.rem (c - base - shift + 26) 26)]) input).

(** The shift of the specification, for comparison with the two functions
    above: a letter moves by [k] places within its own case, modulo 26;
    every other code unit is left as it is. *)
Definition shiftLetter (k c : Z) : Z :=
  if (65 <=? c) && (c <=? 90) then 65 + (c - 65 + k) mod 26
  else if (97 <=? c) && (c <=? 122) then 97 + (c - 97 + k) mod 26
  else c.

(** ** Rail fence *)

(** One move of the zig-zag: [rail += direction], and the direction
    reverses when the new rail is the top or the bottom one. *)
Definition zigzag (rails : Z) (st : Z * Z) : Z * Z :=
  let '(rail, direction) := st in
  let rail' := rail + direction in
  (rail', if (rail' =? 0) || (rail' =? rails - 1) then - direction
          else direction).

(** [fence[rail].push(char)]; pushing on a rail that does not exist is a
    TypeError. *)
Definition push {A} (fence : list (list A)) (rail : Z) (x : A)
  : result (list (list A)) :=
  match at_index fence rail with
  | Some bucket => Ok (<[Z.to_nat rail := bucket ++ [x]]> fence)
  | None => Throw TypeError_message
  end.

(** The loop [for (let char of text)] of [railFence.fn]. *)
Fixpoint railFence_loop (rails : Z) (chars : list jsstring)
    (fence : list (list jsstring)) (st : Z * Z)
  : result (list (list jsstring)) :=
  match chars with
  | [] => Ok fence
  | char :: rest =>
      bind (push fence st.1 char) (fun fence' =>
      railFence_loop rails rest fence' (zigzag rails st))
  end.

(** [railFence.fn] *)
Definition railFence_fn (input : jsstring) (params : gmap jsstring Value)
  : result jsstring :=
  let rails := parseInt_or (prop params (lit "rails")) 3 in
  if (rails <? 2) || (10 <? rails)
  then Throw (lit "Number of rails must be between 2 and 10")
  else
    let text := input in
    if Z.of_nat (length text) <? rails then Ok text
    else
      let fence := replicate (Z.to_nat rails) [] in
      bind (railFence_loop rails (codePoints text) fence (0, 1))
           (fun fence' => Ok (concat (concat fence'))).

(** First loop of [railFenceDecrypt.fn]: the rail of every position. *)
Fixpoint pattern_loop (rails : Z) (n : nat) (st : Z * Z) : list Z :=
  match n with
  | O => []
  | S m => st.1 :: pattern_loop rails m (zigzag rails st)
  end.

(** Inner loop of the second phase, for one rail [r]: every position of the
    pattern that lies on [r] takes the next character [text[index++]] (which
    is [undefined], here [None], past the end of the text). *)
Fixpoint fill_rail (text : jsstring) (r : Z) (pattern : list Z)
    (fence : list (list (option Z))) (index : Z)
  : result (list (list (option Z)) * Z) :=
  match pattern with
  | [] => Ok (fence, index)
  | p :: rest =>
      if p =? r
      then bind (push fence r (at_index text index)) (fun fence' =>
           fill_rail text r rest fence' (index + 1))
      else fill_rail text r rest fence index
  end.

(** Outer loop of the second phase: [for (let r = 0; r < rails; r++)],
    with [todo] the number of rails still to fill. *)
Fixpoint fill_loop (text : jsstring) (pattern : list Z) (todo : nat) (r : Z)
    (fence : list (list (option Z))) (index : Z)
  : result (list (list (option Z))) :=
  match todo with
  | O => Ok fence
  | S todo' =>
      bind (fill_rail text r pattern fence index) (fun '(fence', index') =>
      fill_loop text pattern todo' (r + 1) fence' index')
  end.

(** Third phase: re-walk the zig-zag and take from each rail, at its own
    read pointer, the next character. A rail that does not exist is a
    TypeError; a slot that does not exist or holds [undefined] appends the
    text of [undefined]. *)
Fixpoint read_loop (rails : Z) (n : nat) (fence : list (list (option Z)))
    (railIndices : list Z) (st : Z * Z) (acc : jsstring) : result jsstring :=
  match n with
  | O => Ok acc
  | S m =>
      let rail := st.1 in
      match at_index fence rail with
      | None => Throw TypeError_message
      | Some bucket =>
          let k := default 0 (at_index railIndices rail) in
          let char :=
            match at_index bucket k with
            | Some (Some c) => [c]
            | _ => lit "undefined"
            end in
          read_loop rails m fence (<[Z.to_nat rail := k + 1]> railIndices)
                    (zigzag rails st) (acc ++ char)
      end
  end.

(** [railFenceDecrypt.fn] *)
Definition railFenceDecrypt_fn (input : jsstring) (params : gmap jsstring Value)
  : result jsstring :=
  let rails := parseInt_or (prop params (lit "rails")) 3 in
  if (rails <? 2) || (10 <? rails)
  then Throw (lit "Number of rails must be between 2 and 10")
  else
    let text := input in
    if Z.of_nat (length text) <? rails then Ok text
    else
      let fence := replicate (Z.to_nat rails) [] in
      let pattern := pattern_loop rails (length text) (0, 1) in
      bind (fill_loop text pattern (Z.to_nat rails) 0 fence 0) (fun fence' =>
      read_loop rails (length text) fence'
                (replicate (Z.to_nat rails) 0) (0, 1) []).

(** ** What the loops of the rail fence compute *)

(** The elements of [xs] whose position lies on rail [r] according to
    [pattern], in their order: the content of rail [r]. *)
Fixpoint onRail {A} (r : Z) (pattern : list Z) (xs : list A) : list A :=
  match pattern, xs with
  | p :: pattern', x :: xs' =>
      if p =? r then x :: onRail r pattern' xs' else onRail r pattern' xs'
  | _, _ => []
  end.

(** The rails from top to bottom. *)
Definition railContents {A} (rails : Z) (pattern : list Z) (xs : list A)
  : list (list A) :=
  (fun r => onRail (Z.of_nat r) pattern xs) <$> seq 0 (Z.to_nat rails).

(** The states of the zig-zag that are met: the rail exists, the direction
    is one step, downwards on the top rail and upwards on the bottom
    one. *)
Definition onFence (rails : Z) (st : Z * Z) : Prop :=
  0 <= st.1 < rails /\ (st.2 = 1 \/ st.2 = -1)
  /\ (st.1 = 0 -> st.2 = 1) /\ (st.1 = rails - 1 -> st.2 = -1).

(** ** The entries of [CipherOperations] *)

Definition rot13 : Operation :=
  {| op_name := lit "ROT13"; op_category := lit "cipher";
     op_description := lit "ROT13 cipher transformation";
     op_params := [];
     op_fn := fun input _ => rot13_fn input |}.

Definition caesar : Operation :=
  {| op_name := lit "Caesar Cipher"; op_category := lit "cipher";
     op_description := lit "Caesar shift cipher";
     op_params := [param "shift" "Shift Amount" "number" (VStr (lit "3"))
                         (Some 1) (Some 25) true];
     op_fn := caesar_fn |}.

Definition caesarDecrypt : Operation :=
  {| op_name := lit "Caesar Decrypt"; op_category := lit "cipher";
     op_description := lit "Caesar shift cipher decryption";
     op_params := [param "shift" "Shift Amount" "number" (VStr (lit "3"))
                         (Some 1) (Some 25) true];
     op_fn := caesarDecrypt_fn |}.

Definition railFence : Operation :=
  {| op_name := lit "Rail Fence Cipher"; op_category := lit "cipher";
     op_description := lit "Rail fence transposition cipher";
     op_params := [param "rails" "Number of Rails" "number" (VStr (lit "3"))
                         (Some 2) (Some 10) true];
     op_fn := railFence_fn |}.

Definition railFenceDecrypt : Operation :=
  {| op_name := lit "Rail Fence Decrypt"; op_category := lit "cipher";
     op_description := lit "Rail fence cipher decryption";
     op_params := [param "rails" "Number of Rails" "number" (VStr (lit "3"))
                         (Some 2) (Some 10) true];
     op_fn := railFenceDecrypt_fn |}.

(** ** Substitution with a custom alphabet *)

(** [new Set(s).size]: the number of distinct code points of [s]. *)
Definition distinctCodePoints (s : jsstring) : nat :=
  length (remove_dups (codePoints s)).

(** The substitution of the specification, for comparison with the
    function below: the letter at place [i] of the alphabet is replaced by
    [alphabet[i]], in the case of the letter; every other code unit is left
    as it is. *)
Definition substituteLetter (alphabet : jsstring) (c : Z) : Z :=
  if (97 <=? c) && (c <=? 122)
  then lowerAscii (default 0 (alphabet !! Z.to_nat (c - 97)))
  else if (65 <=? c) && (c <=? 90)
  then default 0 (alphabet !! Z.to_nat (c - 65))
  else c.

Section Substitution.
Context `{Platform}.

(** Body of the loop [for (let char of text)]: the text that one code
    point adds to the result. Reading [alphabet[index]] outside the
    alphabet gives [undefined]: calling [toLowerCase] on it is a
    TypeError, appending it appends its text. *)
Definition substitute (alphabet : jsstring) (char : jsstring)
  : result jsstring :=
  if existsb (fun c => (97 <=? c) && (c <=? 122)) char then
    match head (toUpperCase char) ≫= (fun u => at_index alphabet (u - 65)) with
    | Some a => Ok (toLowerCase [a])
    | None => Throw TypeError_message
    end
  else if existsb (fun c => (65 <=? c) && (c <=? 90)) char then
    match head char ≫= (fun u => at_index alphabet (u - 65)) with
    | Some a => Ok [a]
    | None => Ok (lit "undefined")
    end
  else Ok char.

Fixpoint substitution_loop (alphabet : jsstring) (chars : list jsstring)
    (acc : jsstring) : result jsstring :=
  match chars with
  | [] => Ok acc
  | char :: rest =>
      bind (substitute alphabet char) (fun out =>
      substitution_loop alphabet rest (acc ++ out))
  end.

(** [substitution.fn] *)
Definition substitution_fn (input : jsstring) (params : gmap jsstring Value)
  : result jsstring :=
  if negb (ToBoolean (prop params (lit "alphabet")))
  then Throw (lit "Substitution alphabet is required")
  else
    let alphabet := toUpperCase (ToString (prop params (lit "alphabet"))) in
    if negb (length alphabet =? 26)%nat
       || negb (distinctCodePoints alphabet =? 26)%nat
    then Throw (lit "Alphabet must contain exactly 26 unique letters")
    else substitution_loop alphabet (codePoints input) [].

Definition substitution : Operation :=
  {| op_name := lit "Substitution Cipher"; op_category := lit "cipher";
     op_description := lit "Custom alphabet substitution";
     op_params := [param "alphabet" "Substitution Alphabet" "text" VUndefined
                         None None true];
     op_fn := substitution_fn |}.
End Substitution.

End CipherOperations.

(* ================================================================== *)
(** * encoding.js                                                      *)
(* ================================================================== *)

Module EncodingOperations.

(** ** [TextEncoder] and [TextDecoder] *)

Definition isSurrogate (c : Z) : bool := isHighSurrogate c || isLowSurrogate c.

(** The scalar values a string stands for: a surrogate pair is one
    supplementary code point, a surrogate on its own becomes U+FFFD. *)
Fixpoint scalarValues (s : jsstring) : list Z :=
  match s with
  | hi :: t =>
      match t with
      | lo :: r =>
          if isHighSurrogate hi && isLowSurrogate lo
          then (65536 + (hi - 55296) * 1024 + (lo - 56320)) :: scalarValues r
          else (if isSurrogate hi then 65533 else hi) :: scalarValues t
      | [] => [if isSurrogate hi then 65533 else hi]
      end
  | [] => []
  end.

(** Well-formed strings: code units below 65536, every high surrogate
    followed by a low one and every low surrogate preceded by a high
    one. *)
Fixpoint wellFormed (s : jsstring) : bool :=
  match s with
  | hi :: t =>
      (0 <=? hi) && (hi <? 65536)
      && match t with
         | lo :: r =>
             if isHighSurrogate hi then isLowSurrogate lo && wellFormed r
             else negb (isLowSurrogate hi) && wellFormed t
         | [] => negb (isSurrogate hi)
         end
  | [] => true
  end.

(** Unicode scalar values: code points that are not surrogates. *)
Definition isScalarValue (cp : Z) : Prop :=
  0 <= cp < 55296 \/ 57344 <= cp < 1114112.

(** UTF-8 bytes of one scalar value. *)
Definition utf8 (cp : Z) : list Z :=
  if cp <? 128 then [cp]
  else if cp <? 2048 then [192 + cp / 64; 128 + cp mod 64]
  else if cp <? 65536 then
    [224 + cp / 4096; 128 + (cp / 64) mod 64; 128 + cp mod 64]
  else
    [240 + cp / 262144; 128 + (cp / 4096) mod 64;
     128 + (cp / 64) mod 64; 128 + cp mod 64].

(** [new TextEncoder().encode(s)] *)
Definition TextEncoder_encode (s : jsstring) : list Z :=
  scalarValues s ≫= utf8.

(** State of the UTF-8 decoder between two bytes: nothing pending, or a
    code point under construction with the number of bytes it needs, the
    number seen, and the bounds allowed for the next byte. *)
Inductive Utf8State : Type :=
  | Idle
  | Pending (cp needed seen lower upper : Z).

(** A byte met when nothing is pending. *)
Definition leadByte (b : Z) : list Z * Utf8State :=
  if b <=? 127 then ([b], Idle)
  else if (194 <=? b) && (b <=? 223) then ([], Pending (Z.land b 31) 1 0 128 191)
  else if (224 <=? b) && (b <=? 239) then
    ([], Pending (Z.land b 15) 2 0
                 (if b =? 224 then 160 else 128) (if b =? 237 then 159 else 191))
  else if (240 <=? b) && (b <=? 244) then
    ([], Pending (Z.land b 7) 3 0
                 (if b =? 240 then 144 else 128) (if b =? 244 then 143 else 191))
  else ([65533], Idle).

(** The decoder, with replacement of malformed sequences by U+FFFD: a byte
    outside the bounds ends the pending sequence with U+FFFD and is then
    read again as a first byte. *)
Fixpoint utf8_decode (bytes : list Z) (st : Utf8State) : list Z :=
  match bytes with
  | [] => match st with Idle => [] | Pending _ _ _ _ _ => [65533] end
  | b :: rest =>
      match st with
      | Idle => let '(out, st') := leadByte b in out ++ utf8_decode rest st'
      | Pending cp needed seen lower upper =>
          if (lower <=? b) && (b <=? upper) then
            let cp' := Z.lor (Z.shiftl cp 6) (Z.land b 63) in
            if seen + 1 =? needed then cp' :: utf8_decode rest Idle
            else utf8_decode rest (Pending cp' needed (seen + 1) 128 191)
          else
            let '(out, st') := leadByte b in
            65533 :: out ++ utf8_decode rest st'
      end
  end.

(** UTF-16 code units of a code point. *)
Definition utf16 (cp : Z) : jsstring :=
  if cp <? 65536 then [cp]
  else [55296 + (cp - 65536) / 1024; 56320 + (cp - 65536) mod 1024].

(** [new TextDecoder().decode(bytes)]: UTF-8, not fatal, and with the
    default [ignoreBOM = false], under which a byte order mark at the start
    is not part of the result. *)
Definition TextDecoder_decode (bytes : list Z) : jsstring :=
  let cps := utf8_decode bytes Idle in
  let cps' := match cps with
              | c :: r => if c =? 65279 then r else cps
              | [] => cps
              end in
  cps' ≫= utf16.

(** [new Uint8Array(numbers)]: every element is reduced modulo 256. *)
Definition Uint8Array (numbers : list Z) : list Z :=
  (fun n => n mod 256) <$> numbers.

(** [b.toString(16).padStart(2, '0')] *)
Definition hexByte (b : Z) : jsstring := padStart0 2 (toStringRadix 16 b).

(** ** Hexadecimal *)

(** [toHex.fn] (nothing in the body of its [try] can throw). *)
Definition toHex_fn (input : jsstring) (params : gmap jsstring Value)
  : result jsstring :=
  let bytes := TextEncoder_encode input in
  let separator :=
    let v := prop params (lit "separator") in
    if ToBoolean v then ToString v else [] in
  Ok (join separator (hexByte <$> bytes)).

(** The class [[\s:,-]] that [fromHex] removes. *)
Definition isHexSeparator (c : Z) : bool :=
  isWhiteSpace c || (c =? 58) || (c =? 44) || (c =? 45).

(** Line terminators, which [.] does not match. *)
Definition isLineTerminator (c : Z) : bool :=
  (c =? 10) || (c =? 13) || (c =? 8232) || (c =? 8233).

(** All matches of [/.{1,2}/g], left to right. *)
Fixpoint dotPairs (s : jsstring) : list jsstring :=
  match s with
  | a :: t =>
      if isLineTerminator a then dotPairs t
      else
        match t with
        | b :: r =>
            if isLineTerminator b then [a] :: dotPairs r
            else [a; b] :: dotPairs r
        | [] => [[a]]
        end
  | [] => []
  end.

(** [s.match(/.{1,2}/g)]: [null], here [None], when nothing matches. *)
Definition match_dotPairs (s : jsstring) : option (list jsstring) :=
  match dotPairs s with
  | [] => None
  | ms => Some ms
  end.

(** [fromHex.fn] *)
Definition fromHex_fn (input : jsstring) : result jsstring :=
  rethrow (fun m => lit "Invalid hex string: " ++ m)
    (let cleaned := removeClass isHexSeparator input in
     if negb (length cleaned mod 2 =? 0)%nat
     then Throw (lit "Hex string length must be even")
     else
       match match_dotPairs cleaned with
       | None => Throw TypeError_message
       | Some ms =>
           let bytes := (fun h => parseInt_radix h 16) <$> ms in
           if existsb (fun n => negb (bool_decide (is_Some n))) bytes
           then Throw (lit "Invalid hex characters")
           else Ok (TextDecoder_decode (Uint8Array (default 0 <$> bytes)))
       end).

(** ** The entries of [EncodingOperations] embedded here *)

Definition toHex : Operation :=
  {| op_name := lit "To Hex"; op_category := lit "encoding";
     op_description := lit "Convert text to hexadecimal";
     op_params := [param "separator" "Separator" "text" (VStr [])
                         None None false];
     op_fn := toHex_fn |}.

Definition fromHex : Operation :=
  {| op_name := lit "From Hex"; op_category := lit "encoding";
     op_description := lit "Convert hexadecimal to text";
     op_params := [];
     op_fn := fun input _ => fromHex_fn input |}.

End EncodingOperations.

(* ================================================================== *)
(** * hash.js                                                          *)
(* ================================================================== *)

Module HashOperations.
Import EncodingOperations.

Section Digests.
Context `{Platform}.

(** [sha1.fn] *)
Definition sha1_fn (input : jsstring) : result jsstring :=
  rethrow (fun _ => lit "SHA-1 hashing failed")
    (let data := TextEncoder_encode input in
     bind (digest (lit "SHA-1") data) (fun hashArray =>
     Ok (join [] (hexByte <$> hashArray)))).

(** [md5.fn]: the first 16 bytes of the SHA-1 digest. *)
Definition md5_fn (input : jsstring) : result jsstring :=
  let data := TextEncoder_encode input in
  bind (digest (lit "SHA-1") data) (fun hashArray =>
  Ok (join [] (hexByte <$> take 16 hashArray))).

Definition sha1 : Operation :=
  {| op_name := lit "SHA-1"; op_category := lit "hash";
     op_description := lit "SHA-1 cryptographic hash (deprecated)";
     op_params := [];
     op_fn := fun input _ => sha1_fn input |}.

Definition md5 : Operation :=
  {| op_name := lit "MD5"; op_category := lit "hash";
     op_description := lit "MD5 hash (not cryptographically secure)";
     op_params := [];
     op_fn := fun input _ => md5_fn input |}.
End Digests.

(** ** CRC32 *)

(** The inner loop of [makeCRCTable]: [k] rounds on [c]. *)
Fixpoint crcRounds (k : nat) (c : Z) : Z :=
  match k with
  | O => c
  | S k' =>
      crcRounds k'
        (if negb (bitand c 1 =? 0) then bitxor 3988292384 (ushr c 1)
         else ushr c 1)
  end.

Definition makeCRCTable : list Z :=
  (fun n => crcRounds 8 (Z.of_nat n)) <$> seq 0 256.

(** [crcTable[i]], with [undefined] read as 0 by the operator it feeds. *)
Definition crcTable_at (crcTable : list Z) (i : Z) : Z :=
  default 0 (at_index crcTable i).

(** The loop over [str.charCodeAt(i)]. *)
Definition crc32_loop (crcTable : list Z) (str : jsstring) (crc : Z) : Z :=
  foldl (fun crc ch =>
           bitxor (ushr crc 8) (crcTable_at crcTable (bitand (bitxor crc ch) 255)))
        crc str.

(** [crc32.fn] *)
Definition crc32_fn (input : jsstring) : result jsstring :=
  let crc := bitxor 0 (-1) in
  let crcTable := makeCRCTable in
  let crc := crc32_loop crcTable input crc in
  Ok (padStart0 8 (toStringRadix 16 (ushr (bitxor crc (-1)) 0))).

Definition crc32 : Operation :=
  {| op_name := lit "CRC32 Checksum"; op_category := lit "hash";
     op_description := lit "CRC32 checksum algorithm";
     op_params := [];
     op_fn := fun input _ => crc32_fn input |}.

End HashOperations.

(* ================================================================== *)
(** * index.js: the registry and [execute]                             *)
(* ================================================================== *)

Module CryptoOperations.

(** The calls of transforms, in the order in which they are made: the
    observable that tells which steps were attempted. *)
Record Call : Type := {
  call_key : jsstring;
  call_input : jsstring;
  call_params : gmap jsstring Value
}.

(** A computation that may throw and that records the transforms it
    calls. *)
Definition M (A : Type) : Type := list Call -> result A * list Call.

Definition ret {A} (a : A) : M A := fun calls => (Ok a, calls).

Definition throw {A} (message : jsstring) : M A :=
  fun calls => (Throw message, calls).

Definition M_bind {A B} (k : A -> M B) (m : M A) : M B :=
  fun calls =>
    match m calls with
    | (Ok a, calls') => k a calls'
    | (Throw e, calls') => (Throw e, calls')
    end.

Global Instance M_mbind : MBind M := @M_bind.

(** [try { m } catch (error) { throw new Error(wrap(error.message)) }] *)
Definition catch_rethrow {A} (m : M A) (wrap : jsstring -> jsstring) : M A :=
  fun calls =>
    match m calls with
    | (Ok a, calls') => (Ok a, calls')
    | (Throw e, calls') => (Throw (wrap e), calls')
    end.

(** A computation that calls no transform. *)
Definition lift {A} (r : result A) : M A := fun calls => (r, calls).

(** Calling a transform: the call is recorded, then its result is the
    result of the function. *)
Definition invoke (key : jsstring) (op : Operation) (input : jsstring)
    (params : gmap jsstring Value) : M jsstring :=
  fun calls =>
    (op_fn op input params,
     calls ++ [{| call_key := key; call_input := input;
                  call_params := params |}]).

(** The message of the missing-parameter error. *)
Definition requiredMessage (label : jsstring) : jsstring :=
  lit "Parameter " ++ [34] ++ label ++ [34] ++ lit " is required".

(** The loop [for (const param of op.params)] of [execute]. *)
Fixpoint validate (specs : list ParamSpec) (params : gmap jsstring Value)
  : M unit :=
  match specs with
  | [] => ret tt
  | param :: rest =>
      if p_required param && negb (ToBoolean (prop params (p_name param)))
      then throw (requiredMessage (p_label param))
      else validate rest params
  end.

(** What the loop demands of the parameter object for one entry: a
    required parameter has a truthy value. *)
Definition supplied (params : gmap jsstring Value) (q : ParamSpec) : Prop :=
  p_required q = true -> ToBoolean (prop params (p_name q)) = true.

(** The names under which the registry, like every object written as a
    literal, inherits a property from [Object.prototype]. *)
Definition objectPrototypeKeys : list jsstring :=
  [lit "constructor"; lit "hasOwnProperty"; lit "isPrototypeOf";
   lit "propertyIsEnumerable"; lit "toLocaleString"; lit "toString";
   lit "valueOf"; lit "__proto__"; lit "__defineGetter__";
   lit "__defineSetter__"; lit "__lookupGetter__"; lit "__lookupSetter__"].

(** What is inherited under these names is a function, and the prototype
    itself under [__proto__]: a truthy value that has neither [params] nor
    [fn]. Its [name] is the name of the function ([Object] is the
    constructor), and [undefined] for the prototype. *)
Definition inheritedName (key : jsstring) : Value :=
  if bool_decide (key = lit "constructor") then VStr (lit "Object")
  else if bool_decide (key = lit "__proto__") then VUndefined
  else VStr key.

(** What [operations[key]] reads: an entry of the catalog, an inherited
    value (of which the [name] is kept), or [undefined]. *)
Inductive Property : Type :=
  | Entry (op : Operation)
  | Inherited (name : Value)
  | Undefined.

Section Registry.
(** The merged catalog [operations]: the own properties of the object. *)
Variable operations : gmap jsstring Operation.

(** [get]: [operations[key]], where an own property comes before an
    inherited one. *)
Definition get (key : jsstring) : Property :=
  match operations !! key with
  | Some op => Entry op
  | None =>
      if bool_decide (key ∈ objectPrototypeKeys)
      then Inherited (inheritedName key)
      else Undefined
  end.

(** [execute]. On an inherited value the test [!op] passes, [op.params] is
    [undefined], and the call of [op.fn], which is [undefined], throws. *)
Definition execute (key input : jsstring) (params : gmap jsstring Value)
  : M jsstring :=
  match get key with
  | Undefined => throw (lit "Unknown operation: " ++ key)
  | Inherited _ => throw (notAFunction "op.fn")
  | Entry op =>
      _ ← validate (op_params op) params;
      invoke key op input params
  end.
End Registry.

End CryptoOperations.

(* ================================================================== *)
(** * app.js: running a recipe                                         *)
(* ================================================================== *)

Module App.
Import CryptoOperations.

(** A step of the recipe: [{ op, params }], where [params] may be absent. *)
Record RecipeStep : Type := {
  op : jsstring;
  params : option (gmap jsstring Value)
}.

(** An entry of [executionLog] (the measured time, which no decision
    depends on, is left out). *)
Record LogEntry : Type := {
  step : Z;
  name : Value;
  success : bool
}.

(** ui.js: the methods of the object [Logger]. (Its comment reads:
    toggle(), open(), close() removed - now handled in app.js.) *)
Definition Logger_methods : list jsstring :=
  [lit "log"; lit "info"; lit "success"; lit "error"; lit "warning";
   lit "clear"].

(** A call [Logger.method(...)]: the methods that exist write to the log
    panel and return; the call of one that does not exist throws. *)
Definition Logger_call (method : string) : result unit :=
  if bool_decide (lit method ∈ Logger_methods) then Ok tt
  else Throw (notAFunction ("Logger." ++ method)).

(** How a click on the run button ends: the function returns after it has
    logged why nothing is run; or all steps ran; or a step failed and the
    message is shown as [Error: message]; or an error is thrown outside
    the [try], so that the promise of the function is rejected. *)
Inductive Outcome : Type :=
  | NotRun (logged : jsstring)
  | Completed (output : jsstring) (executionLog : list LogEntry)
  | Failed (message : jsstring)
  | Uncaught (message : jsstring).

Section Executor.
Variable operations : gmap jsstring Operation.

(** Body of the loop for the step of index [i]: the inner [try] and its
    [catch], which puts the step number before the message. *)
Definition runStep (i : Z) (s : RecipeStep) (result : jsstring)
  : M (jsstring * LogEntry) :=
  catch_rethrow
    (result' ← execute operations (op s) result (default ∅ (params s));
     match get operations (op s) with
     | Entry operation =>
         _ ← lift (Logger_call "info");
         ret (result', {| step := i + 1; name := VStr (op_name operation);
                          success := true |})
     | Inherited inherited =>
         _ ← lift (Logger_call "info");
         ret (result', {| step := i + 1; name := inherited;
                          success := true |})
     | Undefined => throw TypeError_message
     end)
    (fun message =>
       lit "Step " ++ Number_toString (i + 1) ++ lit ": " ++ message).

(** The loop [for (let i = 0; i < recipe.length; i++)], from index [i]
    on. *)
Fixpoint runSteps (i : Z) (steps : list RecipeStep) (result : jsstring)
    (executionLog : list LogEntry) : M (jsstring * list LogEntry) :=
  match steps with
  | [] => ret (result, executionLog)
  | s :: rest =>
      '(result', entry) ← runStep i s result;
      runSteps (i + 1) rest result' (executionLog ++ [entry])
  end.

(** The outer [try] of [executeRecipe] with its [catch]: the loop, then
    the display of the result. *)
Definition runRecipe (recipe : list RecipeStep) (input : jsstring)
  : list Call -> Outcome * list Call :=
  fun calls =>
    match runSteps 0 recipe input [] calls with
    | (Ok (result, executionLog), calls') =>
        match Logger_call "success" with
        | Ok _ => (Completed result executionLog, calls')
        | Throw message =>
            match Logger_call "error" with
            | Ok _ => (Failed message, calls')
            | Throw message' => (Uncaught message', calls')
            end
        end
    | (Throw message, calls') =>
        match Logger_call "error" with
        | Ok _ => (Failed message, calls')
        | Throw message' => (Uncaught message', calls')
        end
    end.

(** [executeRecipe], on the recipe and the content of the input field
    (both fields being on the page). The calls of [Logger] before the
    [try] are outside every [try]. *)
Definition executeRecipe (recipe : list RecipeStep) (input : jsstring)
  : list Call -> Outcome * list Call :=
  fun calls =>
    match input with
    | [] =>
        match bind (Logger_call "error") (fun _ => Logger_call "open") with
        | Ok _ => (NotRun (lit "Input is empty"), calls)
        | Throw message => (Uncaught message, calls)
        end
    | _ =>
        match recipe with
        | [] =>
            match bind (Logger_call "error") (fun _ => Logger_call "open") with
            | Ok _ =>
                (NotRun (lit "Recipe is empty. Add operations first."), calls)
            | Throw message => (Uncaught message, calls)
            end
        | _ =>
            match bind (Logger_call "info") (fun _ => Logger_call "open") with
            | Ok _ => runRecipe recipe input calls
            | Throw message => (Uncaught message, calls)
            end
        end
    end.
End Executor.

End App.

(* ================================================================== *)
(** * utils.js: detection of the input format                          *)
(* ================================================================== *)

Module CryptoUtils.

Record DetectionResult : Type := {
  detected : bool;
  type : option jsstring;
  confidence : jsstring;
  operation : option jsstring;
  details : jsstring;
  analysis : list (jsstring * Value)
}.

Definition isHexDigit (c : Z) : bool :=
  ((48 <=? c) && (c <=? 57)) || ((97 <=? c) && (c <=? 102))
  || ((65 <=? c) && (c <=? 70)).

(** The class [[A-Za-z0-9+/]]. *)
Definition isBase64Char (c : Z) : bool :=
  isLetter c || ((48 <=? c) && (c <=? 57)) || (c =? 43) || (c =? 47).

(** Number of matches of [/%[0-9A-Fa-f]{2}/g]. *)
Fixpoint countUrlEncoded (s : jsstring) : nat :=
  match s with
  | c :: t =>
      if c =? 37 then
        match t with
        | a :: b :: r =>
            if isHexDigit a && isHexDigit b then S (countUrlEncoded r)
            else countUrlEncoded t
        | _ => countUrlEncoded t
        end
      else countUrlEncoded t
  | [] => O
  end.

Fixpoint dropWhile (f : Z -> bool) (s : jsstring) : jsstring :=
  match s with
  | c :: r => if f c then dropWhile f r else s
  | [] => []
  end.

(** [/^[A-Za-z0-9+/]*={0,2}$/.test(s)] *)
Definition base64Regex_test (s : jsstring) : bool :=
  match dropWhile isBase64Char s with
  | [] | [61] | [61; 61] => true
  | _ => false
  end.

(** ** [atob] *)

Definition isAsciiWhitespace (c : Z) : bool :=
  (c =? 9) || (c =? 10) || (c =? 12) || (c =? 13) || (c =? 32).

Definition base64Value (c : Z) : Z :=
  if (65 <=? c) && (c <=? 90) then c - 65
  else if (97 <=? c) && (c <=? 122) then c - 71
  else if (48 <=? c) && (c <=? 57) then c + 4
  else if c =? 43 then 62
  else 63.

(** Bytes of a sequence of 6-bit values; a last group of two or three
    values gives one or two bytes, its remaining bits are dropped. *)
Fixpoint sextetsToBytes (vs : list Z) : list Z :=
  match vs with
  | a :: b :: c :: d :: r =>
      (a * 4 + b / 16) :: ((b mod 16) * 16 + c / 4) :: ((c mod 4) * 64 + d)
      :: sextetsToBytes r
  | [a; b; c] => [a * 4 + b / 16; (b mod 16) * 16 + c / 4]
  | [a; b] => [a * 4 + b / 16]
  | _ => []
  end.

(** Removal of one or two [=] at the end. *)
Definition stripPadding (s : jsstring) : jsstring :=
  match reverse s with
  | 61 :: 61 :: r => reverse r
  | 61 :: r => reverse r
  | _ => s
  end.

(** [atob(data)]: the forgiving base64 decoding, which throws on a length
    of 1 modulo 4 and on a character outside the alphabet. *)
Definition atob (data : jsstring) : result jsstring :=
  let d := removeClass isAsciiWhitespace data in
  let d := if (length d mod 4 =? 0)%nat then stripPadding d else d in
  if (length d mod 4 =? 1)%nat || negb (forallb isBase64Char d)
  then Throw (lit "The string to be decoded is not correctly encoded.")
  else Ok (sextetsToBytes (base64Value <$> d)).

(** [/^[\x20-\x7E\s]*$/.test(s)] *)
Definition isPrintable_test (s : jsstring) : bool :=
  forallb (fun c => ((32 <=? c) && (c <=? 126)) || isWhiteSpace c) s.

(** [/^[0-9a-fA-F]+$/.test(s)] *)
Definition hexRegex_test (s : jsstring) : bool :=
  match s with [] => false | _ => forallb isHexDigit s end.

(** [/^[a-zA-Z0-9\s]+$/.test(s)] *)
Definition alphanumeric_test (s : jsstring) : bool :=
  match s with
  | [] => false
  | _ => forallb (fun c => isLetter c || ((48 <=? c) && (c <=? 57))
                          || isWhiteSpace c) s
  end.

(** [(s.match(/\n/g) || []).length] *)
Definition countNewlines (s : jsstring) : nat :=
  length (filter (fun c => c = 10) s).

(** Number of maximal runs of white space; [s.split(/\s+/).length] is one
    more. *)
Fixpoint countRuns (inRun : bool) (s : jsstring) : nat :=
  match s with
  | c :: r =>
      if isWhiteSpace c
      then (if inRun then countRuns true r else S (countRuns true r))
      else countRuns false r
  | [] => O
  end.

Definition numberOf (n : nat) : jsstring := Number_toString (Z.of_nat n).

(** [detectInputType], on a string. *)
Definition detectInputType (text : jsstring) : DetectionResult :=
  match text with
  | [] =>
      {| detected := false; type := None; confidence := lit "none";
         details := lit "Input is empty or invalid"; operation := None;
         analysis := [] |}
  | _ =>
  let trimmed := trim text in
  match trimmed with
  | [] =>
      {| detected := false; type := None; confidence := lit "none";
         details := lit "Input is empty"; operation := None;
         analysis := [] |}
  | _ =>
  let cleaned := removeClass isWhiteSpace trimmed in
  (* URL Encoded Detection (Priority 1) *)
  let urlEncodedCount := countUrlEncoded trimmed in
  if (1 <=? urlEncodedCount)%nat && (2 <=? urlEncodedCount)%nat then
    let confidence := if (5 <? urlEncodedCount)%nat then lit "high"
                      else lit "medium" in
    {| detected := true; type := Some (lit "URL-encoded");
       confidence := confidence;
       operation := Some (lit "urlDecode");
       details := lit "Found " ++ numberOf urlEncodedCount
                  ++ lit " URL-encoded sequences";
       analysis :=
         [(lit "Format", VStr (lit "URL Encoding"));
          (lit "Encoded Sequences", VNum (Z.of_nat urlEncodedCount));
          (lit "Total Length", VStr (numberOf (length trimmed) ++ lit " chars"));
          (lit "Confidence", VStr confidence);
          (lit "Action", VStr (lit "URL Decode recommended"))] |}
  else
  (* Base64 Detection (Priority 2) *)
  let isValidBase64Format :=
    base64Regex_test cleaned && (length cleaned mod 4 =? 0)%nat
    && (0 <? length cleaned)%nat && existsb isBase64Char cleaned in
  let base64 :=
    if isValidBase64Format && (4 <=? length cleaned)%nat then
      match atob cleaned with
      | Ok decoded =>
          let isPrintable := isPrintable_test decoded in
          let confidence :=
            if isPrintable && (0 <? length decoded)%nat then lit "high"
            else lit "medium" in
          Some
            {| detected := true; type := Some (lit "Base64");
               confidence := confidence;
               operation := Some (lit "fromBase64");
               details := lit "Valid Base64 encoding detected";
               analysis :=
                 [(lit "Format", VStr (lit "Base64 Encoding"));
                  (lit "Encoded Length",
                   VStr (numberOf (length cleaned) ++ lit " chars"));
                  (lit "Decoded Length",
                   VStr (numberOf (length decoded) ++ lit " chars"));
                  (lit "Printable Text",
                   VStr (if isPrintable then lit "Yes" else lit "No"));
                  (lit "Confidence", VStr confidence);
                  (lit "Action", VStr (lit "From Base64 recommended"))] |}
      | Throw _ => None
      end
    else None in
  match base64 with
  | Some results => results
  | None =>
  (* Hex Detection (Priority 3) *)
  let isValidHex :=
    hexRegex_test cleaned && (length cleaned mod 2 =? 0)%nat
    && (0 <? length cleaned)%nat in
  if isValidHex && (8 <=? length cleaned)%nat then
    let byteCount := (length cleaned / 2)%nat in
    let confidence := if (16 <=? length cleaned)%nat then lit "high"
                      else lit "medium" in
    {| detected := true; type := Some (lit "Hexadecimal");
       confidence := confidence;
       operation := Some (lit "fromHex");
       details := lit "Valid hexadecimal string detected";
       analysis :=
         [(lit "Format", VStr (lit "Hexadecimal"));
          (lit "Hex Length", VStr (numberOf (length cleaned) ++ lit " chars"));
          (lit "Byte Count", VStr (numberOf byteCount ++ lit " bytes"));
          (lit "Confidence", VStr confidence);
          (lit "Action", VStr (lit "From Hex recommended"))] |}
  else
    (* Plain Text (Default) *)
    let lineCount := S (countNewlines trimmed) in
    let wordCount := S (countRuns false trimmed) in
    {| detected := true; type := Some (lit "Plain Text");
       confidence := lit "high";
       operation := None;
       details := lit "Standard text input";
       analysis :=
         [(lit "Format", VStr (lit "Plain Text"));
          (lit "Characters", VNum (Z.of_nat (length trimmed)));
          (lit "Lines", VNum (Z.of_nat lineCount));
          (lit "Words", VNum (Z.of_nat wordCount));
          (lit "Alphanumeric Only",
           VStr (if alphanumeric_test trimmed then lit "Yes" else lit "No"))] |}
  end
  end
  end.

End CryptoUtils.

(* ================================================================== *)
(** * The entries of the catalog that are embedded                     *)
(* ================================================================== *)

Module Catalog.
Import CipherOperations EncodingOperations HashOperations.

(** The part of [{...EncodingOperations, ...TextOperations,
    ...HashOperations, ...CipherOperations}] made of the entries embedded
    above. The statements below hold for every registry; this one serves
    to run them. *)
Definition embeddedOperations `{Platform} : gmap jsstring Operation :=
  list_to_map
    [(lit "toHex", toHex); (lit "fromHex", fromHex);
     (lit "sha1", sha1); (lit "md5", md5); (lit "crc32", crc32);
     (lit "rot13", rot13); (lit "caesar", caesar);
     (lit "caesarDecrypt", caesarDecrypt); (lit "railFence", railFence);
     (lit "railFenceDecrypt", railFenceDecrypt);
     (lit "substitution", substitution)].

(** The separator of [toHex] and [toBinary], and the required key of the
    keyed operations. *)
Definition separatorParam (default : string) : ParamSpec :=
  param "separator" "Separator" "text" (VStr (lit default)) None None false.

Definition keyParam (label : string) : ParamSpec :=
  param "key" label "text" VUndefined None None true.

(** The schemas of the whole catalog, in the order of the merge: for every
    key the [params] array of its entry (also for the entries whose
    transform is not embedded). *)
Definition catalogSchemas : list (jsstring * list ParamSpec) :=
  (* encoding.js *)
  [(lit "toBase64", []); (lit "fromBase64", []);
   (lit "toBase32", []); (lit "fromBase32", []);
   (lit "toHex", [separatorParam EmptyString]); (lit "fromHex", []);
   (lit "urlEncode", []); (lit "urlDecode", []);
   (lit "toBinary", [separatorParam " "]); (lit "fromBinary", []);
   (* text.js *)
   (lit "toUpper", []); (lit "toLower", []); (lit "toTitleCase", []);
   (lit "swapCase", []); (lit "reverse", []); (lit "trim", []);
   (lit "removeSpaces", []); (lit "normalizeWhitespace", []);
   (lit "removeLineBreaks", []);
   (lit "addLineNumbers",
    [param "start" "Start From" "number" (VStr (lit "1")) None None false;
     param "padding" "Padding" "number" (VStr (lit "0")) None None false]);
   (lit "sortLines",
    [param "order" "Order" "select" (VStr (lit "asc")) None None false]);
   (lit "removeDuplicateLines", []);
   (lit "findReplace",
    [param "find" "Find" "text" VUndefined None None true;
     param "replace" "Replace With" "text" (VStr []) None None false;
     param "caseSensitive" "Case Sensitive" "checkbox" (VBool false)
           None None false]);
   (lit "countCharacters", []); (lit "extractEmails", []);
   (lit "extractUrls", []);
   (* hash.js *)
   (lit "sha256", []); (lit "sha384", []); (lit "sha512", []);
   (lit "sha1", []); (lit "md5", []); (lit "simpleHash32", []);
   (lit "djb2Hash", []); (lit "crc32", []);
   (lit "hmacSha256", [keyParam "Secret Key"]);
   (lit "hmacSha512", [keyParam "Secret Key"]);
   (* cipher.js *)
   (lit "rot13", []); (lit "caesar", op_params caesar);
   (lit "caesarDecrypt", op_params caesarDecrypt); (lit "atbash", []);
   (lit "vigenere", [keyParam "Key"]); (lit "vigenereDecrypt", [keyParam "Key"]);
   (lit "railFence", op_params railFence);
   (lit "railFenceDecrypt", op_params railFenceDecrypt);
   (lit "xorCipher", [keyParam "Key"]);
   (lit "substitution",
    [param "alphabet" "Substitution Alphabet" "text" VUndefined None None
           true])].

(** A registry whose entries have the schemas of the catalog. *)
Definition hasCatalogSchemas (operations : gmap jsstring Operation) : Prop :=
  forall key op,
    operations !! key = Some op -> (key, op_params op) ∈ catalogSchemas.

End Catalog.

(* ================================================================== *)
(** * cipher.js: the remaining ciphers                                 *)
(* ================================================================== *)

Module Ciphers.

(** [atbash.fn] *)
Definition atbash_fn (input : jsstring) : result jsstring :=
  Ok (replaceClass isLetter (fun c =>
        if (97 <=? c) && (c <=? 122) then [fromCharCode (219 - c)]
        else if (65 <=? c) && (c <=? 90) then [fromCharCode (155 - c)]
        else [c]) input).

(** [s.charCodeAt(i)]: [None] is NaN, the result outside the string. *)
Definition charCodeAt (s : jsstring) (i : Z) : option Z := at_index s i.

(** The class [[A-Z]]. *)
Definition isUpperLetter (c : Z) : bool := (65 <=? c) && (c <=? 90).

(** The loop of [vigenere.fn] over the code units of the text. A key
    character that does not exist makes the whole sum NaN, of which
    [String.fromCharCode] makes the code unit 0. *)
Fixpoint vigenere_loop (key text : jsstring) (keyIndex : Z) (result : jsstring)
  : jsstring :=
  match text with
  | [] => result
  | char :: rest =>
      if isLetter char then
        let base := if char <=? 90 then 65 else 97 in
        let out :=
          match charCodeAt key (Z.rem keyIndex (Z.of_nat (length key))) with
          | Some k =>
              let shift := k - 65 in
              fromCharCode (base + Z.rem (char - base + shift) 26)
          | None => 0
          end in
        vigenere_loop key rest (keyIndex + 1) (result ++ [out])
      else vigenere_loop key rest keyIndex (result ++ [char])
  end.

(** The loop of [vigenereDecrypt.fn]. *)
Fixpoint vigenereDecrypt_loop (key text : jsstring) (keyIndex : Z)
    (result : jsstring) : jsstring :=
  match text with
  | [] => result
  | char :: rest =>
      if isLetter char then
        let base := if char <=? 90 then 65 else 97 in
        let out :=
          match charCodeAt key (Z.rem keyIndex (Z.of_nat (length key))) with
          | Some k =>
              let shift := k - 65 in
              fromCharCode (base + Z.rem (char - base - shift + 26) 26)
          | None => 0
          end in
        vigenereDecrypt_loop key rest (keyIndex + 1) (result ++ [out])
      else vigenereDecrypt_loop key rest keyIndex (result ++ [char])
  end.

Section Vigenere.
Context `{Platform}.

(** [String(params.key).toUpperCase().replace(/[^A-Z]/g, '')] *)
Definition vigenereKey (v : Value) : jsstring :=
  removeClass (fun c => negb (isUpperLetter c)) (toUpperCase (ToString v)).

(** [vigenere.fn] *)
Definition vigenere_fn (input : jsstring) (params : gmap jsstring Value)
  : result jsstring :=
  if negb (ToBoolean (prop params (lit "key")))
  then Throw (lit "Key is required")
  else
    let key := vigenereKey (prop params (lit "key")) in
    if (length key =? 0)%nat
    then Throw (lit "Key must contain at least one letter")
    else Ok (vigenere_loop key input 0 []).

(** [vigenereDecrypt.fn] *)
Definition vigenereDecrypt_fn (input : jsstring) (params : gmap jsstring Value)
  : result jsstring :=
  if negb (ToBoolean (prop params (lit "key")))
  then Throw (lit "Key is required")
  else
    let key := vigenereKey (prop params (lit "key")) in
    if (length key =? 0)%nat
    then Throw (lit "Key must contain at least one letter")
    else Ok (vigenereDecrypt_loop key input 0 []).
End Vigenere.

(** The loop of [xorCipher.fn]; NaN, the code of a key character that does
    not exist, is 0 for the operator [^]. *)
Fixpoint xor_loop (key text : jsstring) (i : Z) (result : jsstring)
  : jsstring :=
  match text with
  | [] => result
  | textChar :: rest =>
      let keyChar := charCodeAt key (Z.rem i (Z.of_nat (length key))) in
      xor_loop key rest (i + 1)
               (result ++ [fromCharCode (bitxor textChar (default 0 keyChar))])
  end.

(** [xorCipher.fn] *)
Definition xorCipher_fn (input : jsstring) (params : gmap jsstring Value)
  : result jsstring :=
  if negb (ToBoolean (prop params (lit "key")))
  then Throw (lit "Key is required")
  else
    let text := input in
    let key := ToString (prop params (lit "key")) in
    Ok (xor_loop key text 0 []).

(** What [atbash] does to one code unit: a letter is mirrored within its
    case. *)
Definition mirrorLetter (c : Z) : Z :=
  if (97 <=? c) && (c <=? 122) then 219 - c
  else if (65 <=? c) && (c <=? 90) then 155 - c
  else c.

(** Code units: the elements of a string. *)
Definition isCodeUnit (c : Z) : Prop := 0 <= c < 65536.

End Ciphers.

(* ================================================================== *)
(** * encoding.js: binary and Base32                                   *)
(* ================================================================== *)

Module Encodings.
Import EncodingOperations.

(** ** Binary *)

(** [b.toString(2).padStart(8, '0')] *)
Definition binByte (b : Z) : jsstring := padStart0 8 (toStringRadix 2 b).

(** [toBinary.fn]: the separator is [' '] only when the parameter is
    [undefined]; [join] converts any other value to a string. *)
Definition toBinary_fn (input : jsstring) (params : gmap jsstring Value)
  : result jsstring :=
  let bytes := TextEncoder_encode input in
  let separator :=
    match prop params (lit "separator") with
    | VUndefined => lit " "
    | v => ToString v
    end in
  Ok (join separator (binByte <$> bytes)).

(** The class [[01]]. *)
Definition isBinaryDigit (c : Z) : bool := (c =? 48) || (c =? 49).

(** All matches of [/.{8}/g], left to right: eight characters that are not
    line terminators; where there are none at a position, the search moves
    on by one character. The fuel is the length of the string. *)
Fixpoint dotEights (fuel : nat) (s : jsstring) : list jsstring :=
  match fuel with
  | O => []
  | S fuel' =>
      match s with
      | [] => []
      | _ :: r =>
          let chunk := take 8 s in
          if (length chunk =? 8)%nat
             && forallb (fun c => negb (isLineTerminator c)) chunk
          then chunk :: dotEights fuel' (drop 8 s)
          else dotEights fuel' r
      end
  end.

(** [s.match(/.{8}/g)]: [null], here [None], when nothing matches. *)
Definition match_dotEights (s : jsstring) : option (list jsstring) :=
  match dotEights (length s) s with
  | [] => None
  | ms => Some ms
  end.

(** [fromBinary.fn] *)
Definition fromBinary_fn (input : jsstring) : result jsstring :=
  rethrow (fun m => lit "Invalid binary string: " ++ m)
    (let cleaned := removeClass (fun c => negb (isBinaryDigit c)) input in
     if negb (length cleaned mod 8 =? 0)%nat
     then Throw (lit "Binary string length must be multiple of 8")
     else
       match match_dotEights cleaned with
       | None => Throw TypeError_message
       | Some ms =>
           let bytes := (fun b => parseInt_radix b 2) <$> ms in
           Ok (TextDecoder_decode (Uint8Array (default 0 <$> bytes)))
       end).

(** ** Base32 *)

Definition base32chars : jsstring := lit "ABCDEFGHIJKLMNOPQRSTUVWXYZ234567".

(** [s.padEnd(n, '0')] *)
Definition padEnd0 (n : nat) (s : jsstring) : jsstring :=
  s ++ replicate (n - length s) 48.

(** [bits.slice(i, j)] for [0 <= i <= j]. *)
Definition slice (s : jsstring) (i j : nat) : jsstring :=
  take (j - i) (drop i s).

(** The loop [for (let byte of bytes)] of [toBase32.fn]. *)
Definition toBase32_bits (bytes : list Z) : jsstring :=
  foldl (fun bits byte => bits ++ binByte byte) [] bytes.

(** The loop [for (let i = 0; i < bits.length; i += 5)]; a character of
    the alphabet that does not exist appends the text of [undefined]. The
    fuel is the length of [bits]. *)
Fixpoint toBase32_loop (fuel : nat) (bits : jsstring) (i : nat)
    (result : jsstring) : jsstring :=
  match fuel with
  | O => result
  | S fuel' =>
      if (i <? length bits)%nat then
        let chunk := padEnd0 5 (slice bits i (i + 5)) in
        let char :=
          match parseInt_radix chunk 2 ≫= at_index base32chars with
          | Some c => [c]
          | None => lit "undefined"
          end in
        toBase32_loop fuel' bits (i + 5) (result ++ char)
      else result
  end.

(** The loop [while (result.length % 8 !== 0)], which ends after at most
    seven rounds. *)
Fixpoint toBase32_pad (fuel : nat) (result : jsstring) : jsstring :=
  match fuel with
  | O => result
  | S fuel' =>
      if negb (length result mod 8 =? 0)%nat
      then toBase32_pad fuel' (result ++ [61])
      else result
  end.

(** [toBase32.fn] *)
Definition toBase32_fn (input : jsstring) : result jsstring :=
  let bytes := TextEncoder_encode input in
  let bits := toBase32_bits bytes in
  let result := toBase32_loop (length bits) bits 0 [] in
  Ok (toBase32_pad 8 result).

(** [s.replace(/=+$/, '')]: the run of [=] at the end is removed. *)
Definition stripEquals (s : jsstring) : jsstring :=
  reverse (CryptoUtils.dropWhile (fun c => c =? 61) (reverse s)).

(** [s.startsWith(sub)] and [s.indexOf(sub)], from position [i] on; [None]
    is -1. *)
Fixpoint startsWith (s sub : jsstring) : bool :=
  match sub, s with
  | [], _ => true
  | c :: sub', d :: s' => (c =? d) && startsWith s' sub'
  | _ :: _, [] => false
  end.

Fixpoint indexOf_from (s sub : jsstring) (i : Z) : option Z :=
  if startsWith s sub then Some i
  else match s with
       | [] => None
       | _ :: r => indexOf_from r sub (i + 1)
       end.

Definition indexOf (s sub : jsstring) : option Z := indexOf_from s sub 0.

(** The loop [for (let char of cleaned)] of [fromBase32.fn]. *)
Fixpoint fromBase32_bits (chars : list jsstring) (bits : jsstring)
  : result jsstring :=
  match chars with
  | [] => Ok bits
  | char :: rest =>
      match indexOf base32chars char with
      | None => Throw (lit "Invalid Base32 character")
      | Some index =>
          fromBase32_bits rest (bits ++ padStart0 5 (toStringRadix 2 index))
      end
  end.

(** The loop [for (let i = 0; i < bits.length; i += 8)], which drops an
    incomplete last group. The fuel is the length of [bits]. *)
Fixpoint fromBase32_bytes (fuel : nat) (bits : jsstring) (i : nat)
    (bytes : list (option Z)) : list (option Z) :=
  match fuel with
  | O => bytes
  | S fuel' =>
      if (i <? length bits)%nat then
        fromBase32_bytes fuel' bits (i + 8)
          (if (i + 8 <=? length bits)%nat
           then bytes ++ [parseInt_radix (slice bits i (i + 8)) 2]
           else bytes)
      else bytes
  end.

(** ** What the loops of Base32 compute *)

(** The successive groups of [n] characters of a string, the last one
    possibly shorter. The fuel is the length of the string. *)
Fixpoint groupsOf (n : nat) (fuel : nat) (s : jsstring) : list jsstring :=
  match fuel with
  | O => []
  | S fuel' =>
      match s with
      | [] => []
      | _ => take n s :: groupsOf n fuel' (drop n s)
      end
  end.

(** The character that stands for a group of up to five bits. *)
Definition base32Char (group : jsstring) : jsstring :=
  match parseInt_radix (padEnd0 5 group) 2 ≫= at_index base32chars with
  | Some c => [c]
  | None => lit "undefined"
  end.

Section Base32.
Context `{Platform}.

(** [fromBase32.fn] *)
Definition fromBase32_fn (input : jsstring) : result jsstring :=
  let cleaned := toUpperCase (stripEquals input) in
  bind (fromBase32_bits (codePoints cleaned) []) (fun bits =>
  let bytes := fromBase32_bytes (length bits) bits 0 [] in
  Ok (TextDecoder_decode (Uint8Array (default 0 <$> bytes)))).
End Base32.

End Encodings.

(* ================================================================== *)
(** * hash.js: the two simple hashes                                   *)
(* ================================================================== *)

Module Hashes.

(** [a << k] *)
Definition shl (a k : Z) : Z := ToInt32 (Z.shiftl (ToInt32 a) (k mod 32)).

(** The loop of [simpleHash32.fn]: every intermediate value is a 32-bit
    integer. *)
Definition simpleHash32_loop (str : jsstring) (hash : Z) : Z :=
  foldl (fun hash char =>
           let hash := (shl hash 5 - hash) + char in
           bitand hash hash)
        hash str.

(** [simpleHash32.fn] *)
Definition simpleHash32_fn (input : jsstring) : result jsstring :=
  let hash := simpleHash32_loop input 0 in
  Ok (padStart0 8 (toStringRadix 16 (Z.abs hash))).

(** The loop of [djb2Hash.fn]: only the shifted term is reduced to 32
    bits, the sum is not, so that the value grows with the text (by less
    than 2^32 for each character: it is an exact number for every text of
    less than 2^21 characters). *)
Definition djb2Hash_loop (str : jsstring) (hash : Z) : Z :=
  foldl (fun hash char => (shl hash 5 + hash) + char) hash str.

(** [djb2Hash.fn] *)
Definition djb2Hash_fn (input : jsstring) : result jsstring :=
  let hash := djb2Hash_loop input 5381 in
  Ok (padStart0 8 (toStringRadix 16 (ushr hash 0))).

(** The class [[0-9a-f]]. *)
Definition isLowerHexDigit (c : Z) : bool :=
  ((48 <=? c) && (c <=? 57)) || ((97 <=? c) && (c <=? 102)).

(** Eight lower-case hexadecimal digits. *)
Definition eightHexDigits (s : jsstring) : Prop :=
  length s = 8%nat /\ Forall (fun c => isLowerHexDigit c = true) s.

(** The polynomial [h * m^n + c1 * m^(n-1) + ... + cn] in Horner form. *)
Definition horner (m : Z) (h : Z) (str : jsstring) : Z :=
  foldl (fun h c => m * h + c) h str.

End Hashes.

(* ================================================================== *)
(** * app.js: the recipe and stepping through it                       *)
(* ================================================================== *)

Module Recipes.
Import CryptoOperations App.

(** The state of the page that the functions below read and write: the
    two variables [recipe] and [currentStepIndex], the values of the input
    and output fields, and the timers that [executeStepByStep] has set and
    that have not fired yet. *)
Record Session : Type := {
  recipe : list RecipeStep;
  currentStepIndex : Z;
  inputValue : jsstring;
  outputValue : jsstring;
  pendingResets : nat
}.

Section Management.
Variable operations : gmap jsstring Operation.

(** The parameter object of a new step:
    [params[param.name] = param.default || ''] for every parameter, in
    their order. *)
Definition defaultParams (specs : list ParamSpec) : gmap jsstring Value :=
  foldl (fun params param =>
           <[p_name param :=
               if ToBoolean (p_default param) then p_default param
               else VStr []]> params)
        ∅ specs.

(** The recipe with one more step at its end. *)
Definition pushStep (st : RecipeStep) (s : Session) : Session :=
  {| recipe := recipe s ++ [st];
     currentStepIndex := currentStepIndex s;
     inputValue := inputValue s; outputValue := outputValue s;
     pendingResets := pendingResets s |}.

(** [addOperation]: a key under which the registry has no property
    changes nothing; an inherited value, which has no [params], gives a
    step with the empty parameter object. *)
Definition addOperation (opKey : jsstring) (s : Session) : Session :=
  match get operations opKey with
  | Undefined => s
  | Entry operation =>
      pushStep {| op := opKey;
                  params := Some (defaultParams (op_params operation)) |} s
  | Inherited _ => pushStep {| op := opKey; params := Some ∅ |} s
  end.

(** [removeOperation] *)
Definition removeOperation (index : Z) (s : Session) : Session :=
  if (index <? 0) || (Z.of_nat (length (recipe s)) <=? index) then s
  else
    {| recipe := delete (Z.to_nat index) (recipe s);
       currentStepIndex := currentStepIndex s;
       inputValue := inputValue s; outputValue := outputValue s;
       pendingResets := pendingResets s |}.

(** [updateOperation] *)
Definition updateOperation (index : Z) (newParams : gmap jsstring Value)
    (s : Session) : Session :=
  if (index <? 0) || (Z.of_nat (length (recipe s)) <=? index) then s
  else
    {| recipe := alter (fun st => {| op := op st; params := Some newParams |})
                       (Z.to_nat index) (recipe s);
       currentStepIndex := currentStepIndex s;
       inputValue := inputValue s; outputValue := outputValue s;
       pendingResets := pendingResets s |}.



(** [clearRecipe]: on an empty recipe nothing changes, not even the
    cursor. *)
Definition clearRecipe (s : Session) : Session :=
  match recipe s with
  | [] => s
  | _ =>
      {| recipe := []; currentStepIndex := 0;
         inputValue := inputValue s; outputValue := outputValue s;
         pendingResets := pendingResets s |}
  end.

(** The body of the [try] of [executeStepByStep]: the step is run on the
    content of the output field. *)
Definition stepBody (step : option RecipeStep) (input : jsstring)
  : M jsstring :=
  match step with
  | None => throw TypeError_message
  | Some step =>
      result ← execute operations (op step) input (default ∅ (params step));
      match get operations (op step) with
      | Entry _ | Inherited _ =>
          _ ← lift (Logger_call "success");
          ret result
      | Undefined => throw TypeError_message
      end
  end.

(** Two calls of [Logger] in a row, outside every [try]. *)
Definition Logger_calls (first second : string) : result unit :=
  bind (Logger_call first) (fun _ => Logger_call second).

(** [executeStepByStep] from the test of the cursor against the length of
    the recipe on: the [try] and its [catch]. *)
Definition stepAtCursor (s : Session)
  : list Call -> Session * result unit * list Call :=
  fun calls =>
    if Z.of_nat (length (recipe s)) <=? currentStepIndex s then
      match Logger_call "success" with
      | Ok _ =>
          ({| recipe := recipe s; currentStepIndex := 0;
              inputValue := inputValue s; outputValue := outputValue s;
              pendingResets := pendingResets s |}, Ok tt, calls)
      | Throw message => (s, Throw message, calls)
      end
    else
      let step := at_index (recipe s) (currentStepIndex s) in
      let input := outputValue s in
      match stepBody step input calls with
      | (Ok result, calls') =>
          let next := currentStepIndex s + 1 in
          ({| recipe := recipe s; currentStepIndex := next;
              inputValue := inputValue s; outputValue := result;
              pendingResets :=
                if Z.of_nat (length (recipe s)) <=? next
                then S (pendingResets s) else pendingResets s |},
           Ok tt, calls')
      | (Throw message, calls') =>
          match Logger_call "error" with
          | Ok _ =>
              ({| recipe := recipe s; currentStepIndex := 0;
                  inputValue := inputValue s;
                  outputValue := lit "Error: " ++ message;
                  pendingResets := pendingResets s |}, Ok tt, calls')
          | Throw message' => (s, Throw message', calls')
          end
      end.

(** [executeStepByStep]: one click on the step button (both fields being
    on the page). Beside the state and the calls of transforms, the
    result tells whether the function returns or an error is thrown out
    of it, which rejects its promise. The calls of [Logger] before the
    [try] are outside every [try]. *)
Definition executeStepByStep (s : Session)
  : list Call -> Session * result unit * list Call :=
  fun calls =>
    match recipe s with
    | [] => (s, Logger_calls "error" "open", calls)
    | _ =>
        (* Initialize on first call *)
        if currentStepIndex s =? 0 then
          match inputValue s with
          | [] => (s, Logger_calls "error" "open", calls)
          | input =>
              let started :=
                {| recipe := recipe s;
                   currentStepIndex := currentStepIndex s;
                   inputValue := inputValue s; outputValue := input;
                   pendingResets := pendingResets s |} in
              match Logger_calls "info" "open" with
              | Ok _ => stepAtCursor started calls
              | Throw message => (started, Throw message, calls)
              end
          end
        else stepAtCursor s calls
    end.

(** A timer set by [executeStepByStep] fires: the cursor goes back to the
    first step. *)
Definition timerFires (s : Session) : Session :=
  match pendingResets s with
  | O => s
  | S n =>
      {| recipe := recipe s; currentStepIndex := 0;
         inputValue := inputValue s; outputValue := outputValue s;
         pendingResets := n |}
  end.

(** [n] clicks on the step button in a row; an error thrown out of one
    click does not keep the next one from being handled. *)
Fixpoint clicks (n : nat) (s : Session) (calls : list Call)
  : Session * list Call :=
  match n with
  | O => (s, calls)
  | S m =>
      let '(s', _, calls') := executeStepByStep s calls in
      clicks m s' calls'
  end.
End Management.

End Recipes.

(* ================================================================== *)
(** * utils.js: validation of a loaded recipe                          *)
(* ================================================================== *)

Module RecipeValidation.
Import CryptoOperations.



Section Validation.
Variable operations : gmap jsstring Operation.





End Validation.

End RecipeValidation.

(* ================================================================== *)
(** * text.js: white space and lines                                   *)
(* ================================================================== *)

Module TextOperations.

(** [reverse.fn]: [split('')] cuts the text into its code units. *)
Definition reverse_fn (input : jsstring) : result jsstring :=
  Ok (reverse input).

(** [trim.fn] *)
Definition trim_fn (input : jsstring) : result jsstring := Ok (trim input).

(** [removeSpaces.fn] *)
Definition removeSpaces_fn (input : jsstring) : result jsstring :=
  Ok (removeClass isWhiteSpace input).

(** [s.replace(/[cls]+/g, sub)]: every maximal run of characters of the
    class is replaced by [sub]; [inRun] tells that the character before
    was of the class. *)
Fixpoint replaceRuns (cls : Z -> bool) (sub : jsstring) (inRun : bool)
    (s : jsstring) : jsstring :=
  match s with
  | [] => []
  | c :: r =>
      if cls c
      then (if inRun then replaceRuns cls sub true r
            else sub ++ replaceRuns cls sub true r)
      else c :: replaceRuns cls sub false r
  end.

(** [normalizeWhitespace.fn] *)
Definition normalizeWhitespace_fn (input : jsstring) : result jsstring :=
  Ok (trim (replaceRuns isWhiteSpace [32] false input)).

(** [removeLineBreaks.fn] *)
Definition removeLineBreaks_fn (input : jsstring) : result jsstring :=
  Ok (replaceRuns (fun c => (c =? 13) || (c =? 10)) [32] false input).

(** [s.split(sep)] for a separator of one character: the pieces between
    the separators, of which there is always one at least. *)
Fixpoint split_on (sep : Z) (s : jsstring) : list jsstring :=
  match s with
  | [] => [[]]
  | c :: r =>
      if c =? sep then [] :: split_on sep r
      else match split_on sep r with
           | piece :: pieces => (c :: piece) :: pieces
           | [] => [[c]]
           end
  end.

(** [[...new Set(items)]]: the items in the order of their first
    occurrence, each once; [seen] holds the items met so far. *)
Fixpoint uniq (seen : list jsstring) (items : list jsstring)
  : list jsstring :=
  match items with
  | [] => []
  | x :: r =>
      if bool_decide (x ∈ seen) then uniq seen r
      else x :: uniq (x :: seen) r
  end.

(** [removeDuplicateLines.fn] *)
Definition removeDuplicateLines_fn (input : jsstring) : result jsstring :=
  let lines := split_on 10 input in
  Ok (join [10] (uniq [] lines)).

(** Texts in which white space only occurs as single spaces. *)
Fixpoint singleSpaced (s : jsstring) : bool :=
  match s with
  | [] => true
  | c :: r =>
      (if isWhiteSpace c
       then (c =? 32) && match r with
                         | d :: _ => negb (isWhiteSpace d)
                         | [] => true
                         end
       else true)
      && singleSpaced r
  end.

End TextOperations.

(* ================================================================== *)
(** * encoding.js: Base64 and URL encoding                             *)
(* ================================================================== *)

Module UriEncodings.
Import EncodingOperations CryptoUtils.

(** ** The functions of the host that the four operations call *)

(** The message of the URIError of [encodeURIComponent] and
    [decodeURIComponent], and of the error of [btoa]. Their wording is the
    engine's. *)
Definition URIError_message : jsstring := lit "URI malformed".
Definition InvalidCharacterError_message : jsstring :=
  lit "The string to be encoded contains characters outside of the Latin1 range.".

Definition hexDigitUpper (d : Z) : Z := if d <? 10 then 48 + d else 55 + d.

(** [%XX], the escape of a byte. *)
Definition percentByte (b : Z) : jsstring :=
  [37; hexDigitUpper (b / 16); hexDigitUpper (b mod 16)].

(** The value of two hexadecimal digits. *)
Definition hexPair (a b : Z) : option Z :=
  match digitValue a, digitValue b with
  | Some x, Some y => if (x <? 16) && (y <? 16) then Some (x * 16 + y) else None
  | _, _ => None
  end.

Definition isAlphanumeric (c : Z) : bool :=
  isLetter c || ((48 <=? c) && (c <=? 57)).

(** The characters that [encodeURIComponent] leaves as they are:
    letters, digits and [-_.!~*'()]. *)
Definition isUriUnreserved (c : Z) : bool :=
  isAlphanumeric c || (c =? 45) || (c =? 95) || (c =? 46) || (c =? 33)
  || (c =? 126) || (c =? 42) || (c =? 39) || (c =? 40) || (c =? 41).

(** [encodeURIComponent(s)]: every other code point is replaced by the
    escapes of its UTF-8 bytes; a surrogate on its own is a URIError. *)
Fixpoint encodeURIComponent (s : jsstring) : result jsstring :=
  match s with
  | [] => Ok []
  | hi :: t =>
      if isUriUnreserved hi
      then bind (encodeURIComponent t) (fun e => Ok (hi :: e))
      else if isHighSurrogate hi then
        match t with
        | lo :: r =>
            if isLowSurrogate lo
            then bind (encodeURIComponent r) (fun e =>
                 Ok ((utf8 (65536 + (hi - 55296) * 1024 + (lo - 56320))
                        ≫= percentByte) ++ e))
            else Throw URIError_message
        | [] => Throw URIError_message
        end
      else if isLowSurrogate hi then Throw URIError_message
      else bind (encodeURIComponent t) (fun e =>
           Ok ((utf8 hi ≫= percentByte) ++ e))
  end.

(** The characters that [escape] leaves as they are: letters, digits and
    [@*_+-./]. *)
Definition isEscapeUnreserved (c : Z) : bool :=
  isAlphanumeric c || (c =? 64) || (c =? 42) || (c =? 95) || (c =? 43)
  || (c =? 45) || (c =? 46) || (c =? 47).

(** [escape(s)]: [%XX] for a code unit below 256, [%uXXXX] above. *)
Definition escape (s : jsstring) : jsstring :=
  s ≫= (fun c =>
    if isEscapeUnreserved c then [c]
    else if c <? 256 then percentByte c
    else [37; 117; hexDigitUpper (c / 4096); hexDigitUpper ((c / 256) mod 16);
          hexDigitUpper ((c / 16) mod 16); hexDigitUpper (c mod 16)]).

(** [unescape(s)]: [%uXXXX] and [%XX] are replaced by the code unit they
    name; a [%] that starts neither is left. The fuel is the length of the
    string. *)
Fixpoint unescape (fuel : nat) (s : jsstring) : jsstring :=
  match fuel with
  | O => []
  | S fuel' =>
      match s with
      | [] => []
      | c :: t =>
          let unicode :=
            match t with
            | u :: t' =>
                if u =? 117 then
                  match t' with
                  | a :: b :: c2 :: d :: _ =>
                      match hexPair a b, hexPair c2 d with
                      | Some hi, Some lo => Some (hi * 256 + lo)
                      | _, _ => None
                      end
                  | _ => None
                  end
                else None
            | [] => None
            end in
          let byte :=
            match t with
            | a :: b :: _ => hexPair a b
            | _ => None
            end in
          if c =? 37 then
            match unicode, byte with
            | Some v, _ => v :: unescape fuel' (drop 5 t)
            | None, Some v => v :: unescape fuel' (drop 2 t)
            | None, None => c :: unescape fuel' t
            end
          else c :: unescape fuel' t
      end
  end.

(** The character of a 6-bit value in the alphabet of Base64. *)
Definition base64Char (v : Z) : Z :=
  if v <? 26 then 65 + v
  else if v <? 52 then 71 + v
  else if v <? 62 then v - 4
  else if v =? 62 then 43
  else 47.

(** The 6-bit values of a sequence of bytes; a last group of one or two
    bytes gives two or three values, filled with zero bits. *)
Fixpoint bytesToSextets (bytes : list Z) : list Z :=
  match bytes with
  | a :: b :: c :: r =>
      a / 4 :: (a mod 4) * 16 + b / 16 :: (b mod 16) * 4 + c / 64 :: c mod 64
      :: bytesToSextets r
  | [a; b] => [a / 4; (a mod 4) * 16 + b / 16; (b mod 16) * 4]
  | [a] => [a / 4; (a mod 4) * 16]
  | [] => []
  end.

(** [btoa(s)]: the Base64 text of the code units of [s], read as bytes,
    filled with [=] up to a multiple of 4 characters; a code unit above
    255 is an error. *)
Definition btoa (s : jsstring) : result jsstring :=
  if forallb (fun c => (0 <=? c) && (c <=? 255)) s
  then Ok ((base64Char <$> bytesToSextets s)
           ++ replicate ((3 - length s mod 3) mod 3) 61)
  else Throw InvalidCharacterError_message.

(** The number of leading 1 bits of a byte, 5 standing for five and
    more. *)
Definition leadingOnes (B : Z) : Z :=
  if B <? 128 then 0 else if B <? 192 then 1 else if B <? 224 then 2
  else if B <? 240 then 3 else if B <? 248 then 4 else 5.

(** The next [j] escapes [%XX] of a string: their bytes and the rest of
    the string. *)
Fixpoint readOctets (j : nat) (s : jsstring) : option (list Z * jsstring) :=
  match j with
  | O => Some ([], s)
  | S j' =>
      match s with
      | p :: a :: b :: r =>
          if p =? 37 then
            match hexPair a b with
            | Some B =>
                match readOctets j' r with
                | Some (bs, rest) => Some (B :: bs, rest)
                | None => None
                end
            | None => None
            end
          else None
      | _ => None
      end
  end.

Fixpoint sameBytes (l k : list Z) : bool :=
  match l, k with
  | [], [] => true
  | a :: l', b :: k' => (a =? b) && sameBytes l' k'
  | _, _ => false
  end.

(** The code point of which the octets are the UTF-8 encoding, if they
    are one. *)
Definition codePointOf (octets : list Z) : option Z :=
  let cp :=
    match octets with
    | [a; b] => (a mod 32) * 64 + b mod 64
    | [a; b; c] => (a mod 16) * 4096 + (b mod 64) * 64 + c mod 64
    | [a; b; c; d] =>
        (a mod 8) * 262144 + (b mod 64) * 4096 + (c mod 64) * 64 + d mod 64
    | _ => -1
    end in
  if (((0 <=? cp) && (cp <? 55296)) || ((57344 <=? cp) && (cp <? 1114112)))
     && sameBytes (utf8 cp) octets
  then Some cp else None.

(** [decodeURIComponent(s)]: an escape [%XX] of a byte below 128 is that
    character; the escapes of the bytes of a UTF-8 sequence are its code
    point; everything else that starts with [%] is a URIError. The fuel is
    the length of the string. *)
Fixpoint decodeURIComponent_fuel (fuel : nat) (s : jsstring)
  : result jsstring :=
  match fuel with
  | O => Ok []
  | S fuel' =>
      match s with
      | [] => Ok []
      | c :: t =>
          if negb (c =? 37)
          then bind (decodeURIComponent_fuel fuel' t) (fun d => Ok (c :: d))
          else
            match t with
            | a :: b :: r =>
                match hexPair a b with
                | None => Throw URIError_message
                | Some B =>
                    let n := leadingOnes B in
                    if n =? 0
                    then bind (decodeURIComponent_fuel fuel' r) (fun d =>
                         Ok (B :: d))
                    else if (n =? 1) || (4 <? n) then Throw URIError_message
                    else
                      match readOctets (Z.to_nat (n - 1)) r with
                      | None => Throw URIError_message
                      | Some (bs, rest) =>
                          match codePointOf (B :: bs) with
                          | None => Throw URIError_message
                          | Some V =>
                              bind (decodeURIComponent_fuel fuel' rest)
                                   (fun d => Ok (utf16 V ++ d))
                          end
                      end
                end
            | _ => Throw URIError_message
            end
      end
  end.

Definition decodeURIComponent (s : jsstring) : result jsstring :=
  decodeURIComponent_fuel (length s) s.

(** ** What the encoders do to one code point *)

(** The text that [encodeURIComponent] gives for a scalar value. *)
Definition encodeUnit (cp : Z) : jsstring :=
  if isUriUnreserved cp then [cp] else utf8 cp ≫= percentByte.

(** The text that [escape] gives for the UTF-8 bytes of a scalar value. *)
Definition escapeUnit (cp : Z) : jsstring :=
  if cp <? 128
  then (if isEscapeUnreserved cp then [cp] else percentByte cp)
  else utf8 cp ≫= percentByte.

(** ** The four operations *)

(** [toBase64.fn] *)
Definition toBase64_fn (input : jsstring) : result jsstring :=
  rethrow (fun _ => lit "Invalid input for Base64 encoding")
    (bind (encodeURIComponent input) (fun encoded =>
     btoa (unescape (length encoded) encoded))).

(** [fromBase64.fn] *)
Definition fromBase64_fn (input : jsstring) : result jsstring :=
  rethrow (fun _ => lit "Invalid Base64 string")
    (let cleaned := removeClass isWhiteSpace input in
     bind (atob cleaned) (fun binary =>
     decodeURIComponent (escape binary))).

(** [urlEncode.fn] *)
Definition urlEncode_fn (input : jsstring) : result jsstring :=
  encodeURIComponent input.

(** [urlDecode.fn] *)
Definition urlDecode_fn (input : jsstring) : result jsstring :=
  rethrow (fun _ => lit "Invalid URL encoding") (decodeURIComponent input).

End UriEncodings.

(* ================================================================== *)
(** * Properties                                                       *)
(* ================================================================== *)

Import CipherOperations EncodingOperations HashOperations.
Import CryptoOperations App CryptoUtils Catalog.

(** Linear arithmetic, with quotients and remainders by constants. *)
Ltac zarith := first [ lia | Z.div_mod_to_equations; lia ].

(** Closes a goal [b = test] where [test] is a comparison of integers and
    [b] the boolean it evaluates to under the hypotheses. *)
Ltac zbool :=
  symmetry;
  first [ lia
        | Z.div_mod_to_equations; lia
        | apply Z.eqb_eq; lia | apply Z.eqb_neq; lia
        | apply Z.ltb_lt; lia | apply Z.ltb_ge; lia
        | apply Z.leb_le; lia | apply Z.leb_gt; lia ].

(** Induction on a list by one or two elements at a time. *)
Lemma list_pair_ind {A} (P : list A -> Prop) :
  P [] -> (forall a, P [a]) ->
  (forall a b l, P l -> P (b :: l) -> P (a :: b :: l)) ->
  forall l, P l.
Proof.
  intros Hnil Hone Hstep l.
  assert (Hboth : P l /\ forall a, P (a :: l)); [| by destruct Hboth].
  induction l as [| b l [IHl IHbl]]; [by split |].
  split; [apply IHbl |]. intros a. apply Hstep; [done | apply IHbl].
Qed.

(** ** Bytes and their two hexadecimal digits *)

(** A property of bytes that holds on each of the 256 of them holds on
    every byte. *)
Lemma byte_cases (P : Z -> bool) :
  forallb P (Z.of_nat <$> seq 0 256) = true ->
  forall b, isByte b -> P b = true.
Proof.
  intros HP b [Hlo Hhi]. rewrite forallb_forall in HP. apply HP.
  apply list_elem_of_In, list_elem_of_fmap. exists (Z.to_nat b). split; [lia |].
  apply elem_of_seq. lia.
Qed.

Lemma hexByte_length b : isByte b -> length (hexByte b) = 2%nat.
Proof.
  intros Hb.
  apply (byte_cases (fun b => (length (hexByte b) =? 2)%nat)) in Hb.
  - by apply Nat.eqb_eq.
  - by vm_compute.
Qed.

Lemma join_nil parts : join [] parts = concat parts.
Proof.
  induction parts as [| p [| q rest] IH]; simpl in *.
  - done.
  - by rewrite app_nil_r.
  - by rewrite IH.
Qed.

Lemma take_concat_pairs (parts : list jsstring) k :
  Forall (fun p => length p = 2%nat) parts ->
  take (2 * k) (concat parts) = concat (take k parts).
Proof.
  intros Hparts. revert k.
  induction Hparts as [| p parts Hp _ IH]; intros k.
  - simpl. by rewrite !take_nil.
  - destruct k as [| k]; [done |]. rewrite firstn_cons. simpl concat.
    replace (2 * S k)%nat with (length p + 2 * k)%nat by lia.
    by rewrite take_app_add, IH.
Qed.

Lemma length_concat_pairs (parts : list jsstring) :
  Forall (fun p => length p = 2%nat) parts ->
  length (concat parts) = (2 * length parts)%nat.
Proof.
  induction 1 as [| p parts Hp _ IH]; [done |].
  simpl. rewrite length_app, Hp, IH. lia.
Qed.

(** ** C8: the check value of CRC32 *)

(** C8. [crc32] of ["123456789"] is the lower-case text [cbf43926]; the
    table has 256 entries, the entry of 128 is the reflected polynomial
    0xEDB88320 (as an unsigned reading of the 32-bit value), the register
    starts at all ones ([0 ^ -1 = -1]) and is inverted at the end. *)
Theorem crc32_check_value :
  crc32_fn (lit "123456789") = Ok (lit "cbf43926")
  /\ length makeCRCTable = 256%nat
  /\ ToUint32 (crcTable_at makeCRCTable 128) = 3988292384
  /\ bitxor 0 (-1) = -1
  /\ ToUint32 (bitxor (crc32_loop makeCRCTable (lit "123456789") (-1)) (-1))
     = 3421780262.
Proof. by vm_compute. Qed.

(** ** C9: two scenarios of the detector *)

(** C9. The text [48656c6c6f20576f726c64] is detected as Hexadecimal with
    confidence high and [fromHex] suggested; it passes the format test of
    the Base64 branch but its length 22 is not a multiple of 4. The text
    [hello world] is detected as Plain Text with confidence high and no
    suggested operation. *)
Theorem detectInputType_scenarios :
  let hex := lit "48656c6c6f20576f726c64" in
  let plain := lit "hello world" in
  (detected (detectInputType hex) = true
   /\ type (detectInputType hex) = Some (lit "Hexadecimal")
   /\ confidence (detectInputType hex) = lit "high"
   /\ operation (detectInputType hex) = Some (lit "fromHex"))
  /\ (base64Regex_test hex = true /\ length hex = 22%nat
      /\ (length hex mod 4 =? 0)%nat = false)
  /\ (detected (detectInputType plain) = true
      /\ type (detectInputType plain) = Some (lit "Plain Text")
      /\ confidence (detectInputType plain) = lit "high"
      /\ operation (detectInputType plain) = None).
Proof. by vm_compute. Qed.

(** ** C7: the entry named MD5 *)

Section MD5.
Context `{Platform}.

(** Both entries in terms of the digest of the UTF-8 bytes. *)
Lemma sha1_fn_digest input hashArray :
  digest (lit "SHA-1") (TextEncoder_encode input) = Ok hashArray ->
  sha1_fn input = Ok (concat (hexByte <$> hashArray))
  /\ md5_fn input = Ok (concat (hexByte <$> take 16 hashArray)).
Proof.
  intros Hd. unfold sha1_fn, md5_fn. rewrite Hd. simpl.
  by rewrite !join_nil.
Qed.

Lemma sha1_fn_failure input e :
  digest (lit "SHA-1") (TextEncoder_encode input) = Throw e ->
  sha1_fn input = Throw (lit "SHA-1 hashing failed")
  /\ md5_fn input = Throw e.
Proof. intros Hd. unfold sha1_fn, md5_fn. by rewrite Hd. Qed.

(** C7. Whenever [sha1] returns a text, [md5] returns its first 32
    characters, which are the two hexadecimal digits of each of the
    first 16 of the 20 bytes of the SHA-1 digest; and [md5] returns
    nothing else. *)
Theorem md5_is_truncated_sha1 (input : jsstring) :
  (forall s, sha1_fn input = Ok s ->
     md5_fn input = Ok (take 32 s)
     /\ length s = 40%nat /\ length (take 32 s) = 32%nat
     /\ exists hashArray,
          digest (lit "SHA-1") (TextEncoder_encode input) = Ok hashArray
          /\ take 32 s = concat (hexByte <$> take 16 hashArray))
  /\ (forall m, md5_fn input = Ok m ->
        exists s, sha1_fn input = Ok s /\ m = take 32 s).
Proof.
  destruct (digest (lit "SHA-1") (TextEncoder_encode input))
    as [hashArray | e] eqn:Hd.
  - destruct (sha1_fn_digest _ _ Hd) as [Hsha Hmd].
    pose proof (digest_bytes _ _ _ Hd) as Hbytes.
    pose proof (digest_SHA1_length _ _ Hd) as Hlen.
    assert (Hpairs : Forall (fun p : jsstring => length p = 2%nat)
                       (hexByte <$> hashArray)).
    { apply Forall_fmap. eapply Forall_impl; [exact Hbytes |].
      intros b Hb. by apply hexByte_length. }
    assert (Htake : take 32 (concat (hexByte <$> hashArray))
                    = concat (hexByte <$> take 16 hashArray)).
    { rewrite fmap_take. by apply (take_concat_pairs _ 16). }
    assert (Hlen40 : length (concat (hexByte <$> hashArray)) = 40%nat).
    { rewrite (length_concat_pairs _ Hpairs), length_fmap, Hlen. done. }
    split.
    + intros s Hs. rewrite Hsha in Hs. injection Hs as <-.
      rewrite Htake. split; [done |]. split; [done |]. split.
      * rewrite <- Htake, length_take, Hlen40. done.
      * by exists hashArray.
    + intros m Hm. rewrite Hmd in Hm. injection Hm as <-.
      exists (concat (hexByte <$> hashArray)). by rewrite Htake.
  - destruct (sha1_fn_failure _ _ Hd) as [Hsha Hmd].
    split; intros ? Heq; congruence.
Qed.
End MD5.

(** ** C10: required parameters in [execute] *)

(** The falsy values of the model are the five that can be supplied. *)
Lemma ToBoolean_false v :
  ToBoolean v = false <->
  v = VStr [] \/ v = VNum 0 \/ v = VBool false \/ v = VNull \/ v = VUndefined.
Proof.
  split.
  - destruct v as [| | [] | n | [| c s]]; simpl; intros Hv; try done; auto.
    apply negb_false_iff, Z.eqb_eq in Hv. subst. auto.
  - intros [-> | [-> | [-> | [-> | ->]]]]; done.
Qed.

Lemma validate_first_missing before p after params calls :
  Forall (supplied params) before ->
  p_required p = true ->
  ToBoolean (prop params (p_name p)) = false ->
  validate (before ++ p :: after) params calls
  = (Throw (requiredMessage (p_label p)), calls).
Proof.
  intros Hbefore Hreq Hfalsy. induction Hbefore as [| q before Hq _ IH]; simpl.
  - by rewrite Hreq, Hfalsy.
  - destruct (p_required q) eqn:Hrq; [| exact IH].
    unfold supplied in Hq. rewrite (Hq Hrq). exact IH.
Qed.

Lemma validate_Ok specs params calls r calls' :
  validate specs params calls = (r, calls') ->
  calls' = calls
  /\ (Forall (supplied params) specs /\ r = Ok tt
      \/ exists before p after,
           specs = before ++ p :: after /\ Forall (supplied params) before
           /\ p_required p = true
           /\ ToBoolean (prop params (p_name p)) = false
           /\ r = Throw (requiredMessage (p_label p))).
Proof.
  revert r calls'. induction specs as [| q specs IH]; simpl; intros r calls' Hv.
  - injection Hv as <- <-. split; [done |]. left. by split.
  - destruct (p_required q) eqn:Hrq; simpl in Hv.
    + destruct (ToBoolean (prop params (p_name q))) eqn:Hq; simpl in Hv.
      * destruct (IH _ _ Hv) as [-> [[Hall ->] | (b & p & a & -> & Hb & Hp)]];
          (split; [done |]).
        -- left. split; [| done]. constructor; [by intros _ | done].
        -- right. exists (q :: b), p, a. split; [done |].
           split; [| done]. constructor; [by intros _ | done].
      * injection Hv as <- <-. split; [done |]. right.
        exists [], q, specs. repeat split; done.
    + destruct (IH _ _ Hv) as [-> [[Hall ->] | (b & p & a & -> & Hb & Hp)]];
        (split; [done |]).
      * left. split; [| done]. constructor; [| done].
        intros Hreq. unfold supplied. congruence.
      * right. exists (q :: b), p, a. split; [done |].
        split; [| done]. constructor; [| done]. unfold supplied. congruence.
Qed.

Section ExecuteProperties.
Variable operations : gmap jsstring Operation.

Lemma get_Entry key op :
  operations !! key = Some op -> get operations key = Entry op.
Proof. intros Hk. unfold get. by rewrite Hk. Qed.

Lemma get_Undefined key :
  operations !! key = None -> (key ∉ objectPrototypeKeys) ->
  get operations key = Undefined.
Proof. intros Hk Hproto. unfold get. by rewrite Hk, bool_decide_eq_false_2. Qed.

Lemma get_Inherited key :
  operations !! key = None -> key ∈ objectPrototypeKeys ->
  get operations key = Inherited (inheritedName key).
Proof. intros Hk Hproto. unfold get. by rewrite Hk, bool_decide_eq_true_2. Qed.

(** What [get] reads, by cases. *)
Lemma get_cases key :
  (exists op, operations !! key = Some op /\ get operations key = Entry op)
  \/ (operations !! key = None /\ key ∈ objectPrototypeKeys
      /\ get operations key = Inherited (inheritedName key))
  \/ (operations !! key = None /\ (key ∉ objectPrototypeKeys)
      /\ get operations key = Undefined).
Proof.
  destruct (operations !! key) as [op |] eqn:Hk.
  - left. exists op. split; [done |]. by apply get_Entry.
  - right. destruct (decide (key ∈ objectPrototypeKeys)) as [Hin | Hout].
    + left. split; [done |]. split; [done |]. by apply get_Inherited.
    + right. split; [done |]. split; [done |]. by apply get_Undefined.
Qed.

Lemma execute_unknown key input params calls :
  operations !! key = None -> (key ∉ objectPrototypeKeys) ->
  execute operations key input params calls
  = (Throw (lit "Unknown operation: " ++ key), calls).
Proof. intros Hk Hproto. unfold execute. by rewrite get_Undefined. Qed.

Lemma execute_inherited key input params calls :
  operations !! key = None -> key ∈ objectPrototypeKeys ->
  execute operations key input params calls
  = (Throw (notAFunction "op.fn"), calls).
Proof. intros Hk Hproto. unfold execute. by rewrite get_Inherited. Qed.

(** The outcomes of [execute]: the three failures before the transform,
    and the result of the transform; only in the last case is the
    transform called. *)
Lemma execute_cases key input params calls r calls' :
  execute operations key input params calls = (r, calls') ->
  (operations !! key = None /\ (key ∉ objectPrototypeKeys)
   /\ r = Throw (lit "Unknown operation: " ++ key) /\ calls' = calls)
  \/ (operations !! key = None /\ key ∈ objectPrototypeKeys
      /\ r = Throw (notAFunction "op.fn") /\ calls' = calls)
  \/ (exists op before p after,
        operations !! key = Some op
        /\ op_params op = before ++ p :: after
        /\ Forall (supplied params) before
        /\ p_required p = true
        /\ ToBoolean (prop params (p_name p)) = false
        /\ r = Throw (requiredMessage (p_label p)) /\ calls' = calls)
  \/ (exists op,
        operations !! key = Some op
        /\ Forall (supplied params) (op_params op)
        /\ r = op_fn op input params
        /\ calls' = calls ++ [{| call_key := key; call_input := input;
                                 call_params := params |}]).
Proof.
  unfold execute.
  destruct (get_cases key)
    as [(op & Hk & ->) | [(Hk & Hproto & ->) | (Hk & Hproto & ->)]].
  - unfold mbind, M_mbind, M_bind.
    destruct (validate (op_params op) params calls) as [rv cv] eqn:Hv.
    destruct (validate_Ok _ _ _ _ _ Hv)
      as [-> [[Hall ->] | (b & p & a & Hps & Hb & Hreq & Hfalsy & ->)]].
    + unfold invoke. intros [= <- <-]. right. right. right. by exists op.
    + intros [= <- <-]. right. right. left. by exists op, b, p, a.
  - unfold throw. intros [= <- <-]. right. by left.
  - unfold throw. intros [= <- <-]. by left.
Qed.

(** In a schema with at most one required parameter, nothing required
    comes before a required parameter. *)
Lemma one_required_split (specs : list ParamSpec) p :
  (length (filter (fun q => p_required q = true) specs) <= 1)%nat ->
  p ∈ specs -> p_required p = true ->
  exists before after,
    specs = before ++ p :: after
    /\ Forall (fun q => p_required q = false) before.
Proof.
  induction specs as [| q specs IH]; intros Hone Hp Hreq.
  - by apply elem_of_nil in Hp.
  - rewrite filter_cons in Hone. destruct (p_required q) eqn:Hq.
    + rewrite decide_True in Hone by done. simpl in Hone.
      apply elem_of_cons in Hp as [-> | Hp]; [by exists [], specs |].
      assert (Hin : p ∈ filter (fun q => p_required q = true) specs)
        by (by apply list_elem_of_filter).
      destruct (filter _ specs); [by apply elem_of_nil in Hin | simpl in Hone; lia].
    + rewrite decide_False in Hone by congruence.
      apply elem_of_cons in Hp as [-> | Hp]; [congruence |].
      destruct (IH Hone Hp Hreq) as (before & after & -> & Hbefore).
      exists (q :: before), after. split; [done |]. by constructor.
Qed.

(** No entry of the catalog has two required parameters. *)
Lemma catalogSchemas_one_required key specs :
  (key, specs) ∈ catalogSchemas ->
  (length (filter (fun q => p_required q = true) specs) <= 1)%nat.
Proof.
  intros Hin.
  assert (Hall : Forall (fun e : jsstring * list ParamSpec =>
                   (length (filter (fun q => p_required q = true) e.2) <= 1)%nat)
                   catalogSchemas).
  { unfold catalogSchemas.
    repeat (apply Forall_cons; split; [vm_compute; lia |]). done. }
  rewrite Forall_forall in Hall. exact (Hall _ Hin).
Qed.

(** When the operation is known, the first required parameter of its
    schema that has a falsy value is reported, and no transform is
    called. *)
Lemma execute_first_missing key op before p after input params calls :
  operations !! key = Some op ->
  op_params op = before ++ p :: after ->
  Forall (supplied params) before ->
  p_required p = true ->
  ToBoolean (prop params (p_name p)) = false ->
  execute operations key input params calls
  = (Throw (requiredMessage (p_label p)), calls).
Proof.
  intros Hk Hps Hbefore Hreq Hfalsy.
  unfold execute. rewrite (get_Entry _ _ Hk), Hps.
  unfold mbind, M_mbind, M_bind.
  by rewrite (validate_first_missing _ _ _ _ _ Hbefore Hreq Hfalsy).
Qed.

(** C10. In a registry with the schemas of the catalog, when a parameter
    that the schema of the operation marks required is supplied with a
    falsy value, [execute] throws the missing-parameter error naming the
    label of that parameter and calls no transform. The falsy values are
    the empty string, 0, [false], [null] and [undefined]. The check comes
    after the look-up of the operation: a key under which the registry
    object has no property is reported as an unknown operation whatever
    the parameters are (under a name that the object only inherits, such
    as [constructor], what is read is no operation either, and it is the
    call of its missing [fn] that throws); and it comes before the
    transform: a transform that is called never sees a falsy value, in
    particular neither 0 nor [false], in a required parameter. *)
Theorem execute_rejects_falsy_required key op p input params calls :
  hasCatalogSchemas operations ->
  operations !! key = Some op ->
  p ∈ op_params op ->
  p_required p = true ->
  ToBoolean (prop params (p_name p)) = false ->
  execute operations key input params calls
  = (Throw (requiredMessage (p_label p)), calls)
  /\ (forall v, ToBoolean v = false <->
        v = VStr [] \/ v = VNum 0 \/ v = VBool false \/ v = VNull
        \/ v = VUndefined)
  /\ (forall key' params', operations !! key' = None ->
        execute operations key' input params' calls
        = (Throw (if bool_decide (key' ∈ objectPrototypeKeys)
                  then notAFunction "op.fn"
                  else lit "Unknown operation: " ++ key'), calls))
  /\ (forall key' params' r calls',
        execute operations key' input params' calls = (r, calls') ->
        calls' <> calls ->
        exists op', operations !! key' = Some op'
          /\ r = op_fn op' input params'
          /\ forall q, q ∈ op_params op' -> p_required q = true ->
               ToBoolean (prop params' (p_name q)) = true
               /\ prop params' (p_name q) <> VNum 0
               /\ prop params' (p_name q) <> VBool false).
Proof.
  intros Hcatalog Hk Hp Hreq Hfalsy. repeat split.
  - destruct (one_required_split (op_params op) p) as (before & after & Hps & Hbefore);
      [by eapply catalogSchemas_one_required, Hcatalog | done | done |].
    apply (execute_first_missing key op before p after); try done.
    eapply Forall_impl; [exact Hbefore |]. unfold supplied. congruence.
  - by apply ToBoolean_false.
  - by apply ToBoolean_false.
  - intros key' params' Hnone. case_bool_decide as Hproto.
    + by apply execute_inherited.
    + by apply execute_unknown.
  - intros key' params' r calls' Hex Hcalls.
    destruct (execute_cases _ _ _ _ _ _ Hex)
      as [(_ & _ & _ & ->) | [(_ & _ & _ & ->)
         | [(? & ? & ? & ? & _ & _ & _ & _ & _ & _ & ->)
           | (op' & Hk' & Hall & -> & _)]]]; try done.
    exists op'. split; [done |]. split; [done |].
    intros q Hq Hrq. rewrite Forall_forall in Hall.
    pose proof (Hall q Hq Hrq) as Ht. split; [done |].
    split; intros Heq; rewrite Heq in Ht; done.
Qed.
End ExecuteProperties.

(** ** C1: the run stops before its first step *)

(** Of the methods that [executeRecipe] calls on [Logger], [open] is the
    one that [Logger] does not have. *)
Lemma Logger_call_open :
  Logger_call "open" = Throw (lit "Logger.open is not a function").
Proof. by vm_compute. Qed.

Lemma Logger_call_returns method :
  method = "info"%string \/ method = "success"%string
  \/ method = "error"%string ->
  Logger_call method = Ok tt.
Proof. intros [-> | [-> | ->]]; by vm_compute. Qed.

(** C1. On the recipe ROT13, Caesar with shift 30, ROT13 and the input
    [abc], [executeRecipe] does not report a failure of step 2: the call
    [Logger.open()] that comes before the loop throws a TypeError outside
    every [try], and no transform is called. The loop itself, had it been
    reached, would stop at step 2 with the message that names it, after
    the calls of ROT13 and of Caesar. The same holds on every recipe and
    every input: no run gets as far as its first step. *)
Theorem executeRecipe_throws_before_the_first_step :
  let recipe :=
    [{| op := lit "rot13"; params := None |};
     {| op := lit "caesar"; params := Some {[ lit "shift" := VNum 30 ]} |};
     {| op := lit "rot13"; params := None |}] in
  executeRecipe (@embeddedOperations samplePlatform) recipe (lit "abc") []
  = (Uncaught (lit "Logger.open is not a function"), [])
  /\ runRecipe (@embeddedOperations samplePlatform) recipe (lit "abc") []
     = (Failed (lit "Step 2: Shift must be between 1 and 25"),
        [{| call_key := lit "rot13"; call_input := lit "abc";
            call_params := ∅ |};
         {| call_key := lit "caesar"; call_input := lit "nop";
            call_params := {[ lit "shift" := VNum 30 ]} |}])
  /\ forall operations steps input calls,
       executeRecipe operations steps input calls
       = (Uncaught (lit "Logger.open is not a function"), calls).
Proof.
  split; [by vm_compute |]. split; [by vm_compute |].
  intros operations steps input calls. unfold executeRecipe.
  rewrite Logger_call_open, !Logger_call_returns by auto. cbn [bind].
  destruct input; [done |]. by destruct steps.
Qed.

(** The embedded entries have the schemas of the catalog. *)
Lemma embeddedOperations_schemas `{Platform} :
  hasCatalogSchemas embeddedOperations.
Proof.
  intros key op Hop. unfold embeddedOperations in Hop.
  apply elem_of_list_to_map_2 in Hop.
  repeat (apply elem_of_cons in Hop as [[= -> ->] | Hop];
          [ unfold catalogSchemas;
            repeat first [ by apply list_elem_of_here
                         | apply list_elem_of_further ] |]).
  by apply elem_of_nil in Hop.
Qed.

(** The theorem of C10 on Caesar with the number 0 as shift. *)
Lemma execute_rejects_falsy_required_witness :
  execute (@embeddedOperations samplePlatform) (lit "caesar") (lit "abc")
    {[ lit "shift" := VNum 0 ]} []
  = (Throw (requiredMessage (lit "Shift Amount")), []).
Proof.
  refine (proj1 (execute_rejects_falsy_required
                   (@embeddedOperations samplePlatform) (lit "caesar") caesar
                   (param "shift" "Shift Amount" "number" (VStr (lit "3"))
                          (Some 1) (Some 25) true)
                   (lit "abc") {[ lit "shift" := VNum 0 ]} [] _ _ _ _ _)).
  - apply embeddedOperations_schemas.
  - reflexivity.
  - apply list_elem_of_here.
  - reflexivity.
  - reflexivity.
Defined.

(** ** Numbers printed and read back *)

Lemma digitValue_digitChar d : 0 <= d < 36 -> digitValue (digitChar d) = Some d.
Proof.
  intros Hd. unfold digitValue, digitChar.
  destruct (d <? 10) eqn:H10.
  - apply Z.ltb_lt in H10.
    replace ((48 <=? 48 + d) && (48 + d <=? 57)) with true by (symmetry; lia).
    f_equal. lia.
  - apply Z.ltb_ge in H10.
    replace ((48 <=? 87 + d) && (87 + d <=? 57)) with false by (symmetry; lia).
    replace ((97 <=? 87 + d) && (87 + d <=? 122)) with true by (symmetry; lia).
    f_equal. lia.
Qed.

Lemma parseDigits_digitChar R a d rest :
  0 <= d < R -> R <= 36 ->
  parseDigits R a (digitChar d :: rest)
  = parseDigits R (Some (default 0 a * R + d)) rest.
Proof.
  intros Hd HR. simpl. rewrite digitValue_digitChar by lia.
  by replace (d <? R) with true by (symmetry; lia).
Qed.

(** Reading the digits written for [n] in front of digits [acc] that read
    as [m] on [k] places. *)
Lemma parseDigits_digitsRadix_fuel R fuel : 2 <= R <= 36 ->
  forall n acc k m,
    0 <= k -> 0 <= n < 2 ^ Z.of_nat fuel -> (0 < fuel)%nat ->
    (forall x, parseDigits R (Some x) acc = Some (x * R ^ k + m)) ->
    parseDigits R None (digitsRadix_fuel fuel R n acc) = Some (n * R ^ k + m).
Proof.
  intros HR. induction fuel as [| fuel IH]; intros n acc k m Hk Hn Hfuel Hacc.
  - lia.
  - simpl digitsRadix_fuel. destruct (n <? R) eqn:HnR.
    + apply Z.ltb_lt in HnR. rewrite Z.mod_small by lia.
      rewrite parseDigits_digitChar by lia. simpl. by rewrite Hacc.
    + apply Z.ltb_ge in HnR.
      assert (Hdiv : 0 <= n / R < 2 ^ Z.of_nat fuel).
      { split; [apply Z.div_pos; lia |].
        apply Z.div_lt_upper_bound; [lia |].
        rewrite Nat2Z.inj_succ, Z.pow_succ_r in Hn by lia. nia. }
      assert (Hfuel' : (0 < fuel)%nat).
      { destruct fuel; [| lia]. simpl in Hn. lia. }
      rewrite (IH (n / R) _ (k + 1) ((n mod R) * R ^ k + m)); try done; [| lia |].
      * f_equal. rewrite Z.pow_add_r, Z.pow_1_r by lia.
        pose proof (Z.div_mod n R ltac:(lia)) as Hdm. nia.
      * intros x. pose proof (Z.mod_pos_bound n R ltac:(lia)).
        rewrite parseDigits_digitChar by lia. simpl. rewrite Hacc. f_equal.
        rewrite Z.pow_add_r, Z.pow_1_r by lia. ring.
Qed.

Lemma digitsRadix_fuel_decimal fuel : forall n acc,
  0 <= n -> Forall (fun c => 48 <= c <= 57) acc ->
  Forall (fun c => 48 <= c <= 57) (digitsRadix_fuel fuel 10 n acc).
Proof.
  induction fuel as [| fuel IH]; intros n acc Hn Hacc; [done |].
  simpl. pose proof (Z.mod_pos_bound n 10 ltac:(lia)) as Hmod.
  assert (Hc : 48 <= digitChar (n mod 10) <= 57).
  { unfold digitChar. replace (n mod 10 <? 10) with true by (symmetry; lia). lia. }
  destruct (n <? 10).
  - by constructor.
  - apply IH; [apply Z.div_pos; lia | by constructor].
Qed.

Lemma digitsRadix_fuel_nonempty fuel R n acc :
  (0 < fuel)%nat -> digitsRadix_fuel fuel R n acc <> [].
Proof.
  revert n acc. induction fuel as [| fuel IH]; intros n acc Hfuel; [lia |].
  simpl. destruct (n <? R); [done |].
  destruct fuel as [| fuel']; [done |]. apply IH. lia.
Qed.

(** A decimal numeral is read back by [parseInt] as the number it
    denotes. *)
Lemma parseInt_radix_decimal ds n :
  ds <> [] -> Forall (fun c => 48 <= c <= 57) ds ->
  parseDigits 10 None ds = Some n ->
  parseInt_radix ds 0 = Some n.
Proof.
  intros Hne Hds Hparse. unfold parseInt_radix.
  destruct ds as [| d ds']; [done |]. apply Forall_cons in Hds as [Hd Hds'].
  assert (Hws : isWhiteSpace d = false).
  { unfold isWhiteSpace. repeat (apply orb_false_intro); lia. }
  simpl trimStart. rewrite Hws.
  replace (d =? 45) with false by (symmetry; lia).
  replace (d =? 43) with false by (symmetry; lia). simpl.
  assert (Hprefix : match ds' with
                    | b :: _ => (d =? 48) && ((b =? 120) || (b =? 88))
                    | [] => false
                    end = false).
  { destruct ds' as [| b ?]; [done |]. apply Forall_cons in Hds' as [Hb _].
    replace (b =? 120) with false by (symmetry; lia).
    replace (b =? 88) with false by (symmetry; lia).
    by rewrite andb_false_r. }
  rewrite Hprefix. simpl. simpl in Hparse. rewrite Hparse. simpl.
  f_equal. destruct n; done.
Qed.

Lemma parseInt_toString_nonneg n :
  0 <= n -> parseInt_radix (toStringRadix 10 n) 0 = Some n.
Proof.
  intros Hn. unfold toStringRadix. rewrite Z.abs_eq by lia.
  replace (n <? 0) with false by (symmetry; lia).
  apply parseInt_radix_decimal.
  - apply digitsRadix_fuel_nonempty. lia.
  - by apply digitsRadix_fuel_decimal.
  - rewrite (parseDigits_digitsRadix_fuel 10 _ ltac:(lia) n [] 0 0);
      [f_equal; lia | lia | | lia | intros x; simpl; f_equal; lia].
    split; [done |]. rewrite Nat2Z.inj_succ, Z2Nat.id by apply Z.log2_nonneg.
    destruct (Z.eq_dec n 0) as [-> | Hn0]; [done |].
    apply Z.log2_spec. lia.
Qed.

(** A safe integer is printed with all its digits. *)
Lemma Number_toString_safe n :
  Z.abs n < 2 ^ 53 -> Number_toString n = toStringRadix 10 n.
Proof.
  intros Hn. unfold Number_toString. cbv zeta.
  by rewrite (proj2 (Z.ltb_lt _ _) Hn).
Qed.

(** From 2^53 on: the nearest double is printed, with the digits that
    tell it from its neighbours, then zeros; from 10^21 on with an
    exponent; and beyond the largest double as [Infinity]. *)
Lemma Number_toString_examples :
  Number_toString (2 ^ 53 - 1) = lit "9007199254740991"
  /\ Number_toString (2 ^ 53 + 1) = lit "9007199254740992"
  /\ Number_toString (2 ^ 53 + 3) = lit "9007199254740996"
  /\ Number_toString 993268785636582528 = lit "993268785636582500"
  /\ Number_toString (2 ^ 64) = lit "18446744073709552000"
  /\ Number_toString (10 ^ 21 - 1) = lit "1e+21"
  /\ Number_toString (- 10 ^ 23) = lit "-1e+23"
  /\ Number_toString (2 ^ 70) = lit "1.1805916207174113e+21"
  /\ Number_toString (2 ^ 1024 - 2 ^ 971) = lit "1.7976931348623157e+308"
  /\ Number_toString (2 ^ 1024) = lit "Infinity".
Proof. repeat split; by vm_compute. Qed.

(** [parseInt] of a safe integer is that integer. *)
Lemma parseInt_VNum n : Z.abs n < 2 ^ 53 -> parseInt (VNum n) = Some n.
Proof.
  intros Hsafe. unfold parseInt, ToString. rewrite Number_toString_safe by done.
  clear Hsafe.
  destruct (Z.lt_ge_cases n 0) as [Hneg | Hpos];
    [| by apply parseInt_toString_nonneg].
  pose proof (parseInt_toString_nonneg (- n) ltac:(lia)) as Hpos.
  unfold toStringRadix in *. rewrite Z.abs_neq by lia.
  rewrite Z.abs_eq in Hpos by lia.
  replace (n <? 0) with true by (symmetry; lia).
  replace (- n <? 0) with false in Hpos by (symmetry; lia).
  set (ds := digitsRadix_fuel _ 10 (- n) []) in *.
  assert (Hds : Forall (fun c => 48 <= c <= 57) ds)
    by (apply digitsRadix_fuel_decimal; [lia | done]).
  unfold parseInt_radix in *.
  destruct ds as [| d ds']; [done |]. apply Forall_cons in Hds as [Hd _].
  assert (Hws : isWhiteSpace d = false).
  { unfold isWhiteSpace. repeat (apply orb_false_intro); lia. }
  simpl trimStart in *. rewrite Hws in Hpos.
  replace (d =? 45) with false in Hpos by (symmetry; lia).
  replace (d =? 43) with false in Hpos by (symmetry; lia).
  simpl in *.
  destruct (parseDigits _ None _) as [v |]; [| done].
  simpl in *. injection Hpos as Hv. f_equal. destruct v; lia.
Qed.

(** [parseInt(n) || d]: zero is replaced by the fallback. *)
Lemma parseInt_or_VNum n d :
  Z.abs n < 2 ^ 53 -> parseInt_or (VNum n) d = if n =? 0 then d else n.
Proof. intros Hn. unfold parseInt_or. by rewrite parseInt_VNum. Qed.

(** ** C4: the shift of Caesar *)

Lemma replaceClass_ext (cls : Z -> bool) (f : Z -> jsstring) (g : Z -> Z)
    (s : jsstring) :
  (forall c : Z, (if cls c then f c else [c]) = [g c]) ->
  replaceClass cls f s = g <$> s.
Proof.
  intros Hfg. unfold replaceClass.
  induction s as [| c s IH]; [done |].
  by rewrite bind_cons, fmap_cons, Hfg, IH.
Qed.

(** With a shift in range, [caesar] is the shift of the specification and
    [caesarDecrypt] the opposite shift. *)
Lemma caesar_fn_in_range input params shift :
  parseInt_or (prop params (lit "shift")) 3 = shift ->
  1 <= shift <= 25 ->
  caesar_fn input params = Ok (shiftLetter shift <$> input)
  /\ caesarDecrypt_fn input params = Ok (shiftLetter (- shift) <$> input).
Proof.
  intros Hshift Hrange. unfold caesar_fn, caesarDecrypt_fn. rewrite Hshift.
  replace ((shift <? 1) || (25 <? shift)) with false by (symmetry; lia).
  split; f_equal; apply replaceClass_ext; intros c;
    unfold isLetter, shiftLetter, fromCharCode.
  - destruct ((65 <=? c) && (c <=? 90)) eqn:Hup; simpl.
    + replace (c <=? 90) with true by (symmetry; lia).
      rewrite Z.rem_mod_nonneg by lia.
      pose proof (Z.mod_pos_bound (c - 65 + shift) 26 ltac:(lia)).
      by rewrite Z.mod_small by lia.
    + destruct ((97 <=? c) && (c <=? 122)) eqn:Hlow; [| done].
      replace (c <=? 90) with false by (symmetry; lia).
      rewrite Z.rem_mod_nonneg by lia.
      pose proof (Z.mod_pos_bound (c - 97 + shift) 26 ltac:(lia)).
      by rewrite Z.mod_small by lia.
  - destruct ((65 <=? c) && (c <=? 90)) eqn:Hup; simpl.
    + replace (c <=? 90) with true by (symmetry; lia).
      rewrite Z.rem_mod_nonneg by lia.
      replace (c - 65 - shift + 26) with (c - 65 + - shift + 1 * 26) by lia.
      rewrite Z.mod_add by lia.
      pose proof (Z.mod_pos_bound (c - 65 + - shift) 26 ltac:(lia)).
      by rewrite Z.mod_small by lia.
    + destruct ((97 <=? c) && (c <=? 122)) eqn:Hlow; [| done].
      replace (c <=? 90) with false by (symmetry; lia).
      rewrite Z.rem_mod_nonneg by lia.
      replace (c - 97 - shift + 26) with (c - 97 + - shift + 1 * 26) by lia.
      rewrite Z.mod_add by lia.
      pose proof (Z.mod_pos_bound (c - 97 + - shift) 26 ltac:(lia)).
      by rewrite Z.mod_small by lia.
Qed.

(** With a shift out of range, both throw. *)
Lemma caesar_fn_out_of_range input params shift :
  parseInt_or (prop params (lit "shift")) 3 = shift ->
  shift < 1 \/ 25 < shift ->
  caesar_fn input params = Throw (lit "Shift must be between 1 and 25")
  /\ caesarDecrypt_fn input params = Throw (lit "Shift must be between 1 and 25").
Proof.
  intros Hshift Hrange. unfold caesar_fn, caesarDecrypt_fn. rewrite Hshift.
  by replace ((shift <? 1) || (25 <? shift)) with true by (symmetry; lia).
Qed.

(** A supplied safe integer other than 0 is the shift; it is rejected
    exactly when it lies outside 1..25. *)
Lemma caesar_fn_VNum input n :
  n <> 0 -> Z.abs n < 2 ^ 53 ->
  let params : gmap jsstring Value := {[ lit "shift" := VNum n ]} in
  (1 <= n <= 25 -> caesar_fn input params = Ok (shiftLetter n <$> input)
                   /\ caesarDecrypt_fn input params
                      = Ok (shiftLetter (- n) <$> input))
  /\ (n < 1 \/ 25 < n ->
        caesar_fn input params = Throw (lit "Shift must be between 1 and 25")
        /\ caesarDecrypt_fn input params
           = Throw (lit "Shift must be between 1 and 25")).
Proof.
  intros Hn Hsafe params.
  assert (Hshift : parseInt_or (prop params (lit "shift")) 3 = n).
  { unfold prop, params. rewrite lookup_singleton_eq. simpl.
    rewrite parseInt_or_VNum by done. by replace (n =? 0) with false by (symmetry; lia). }
  split; intros Hrange.
  - by apply (caesar_fn_in_range _ _ n).
  - by apply (caesar_fn_out_of_range _ _ n).
Qed.

(** Decryption undoes encryption. *)
Lemma shiftLetter_inverse k c : shiftLetter (- k) (shiftLetter k c) = c.
Proof.
  unfold shiftLetter.
  destruct ((65 <=? c) && (c <=? 90)) eqn:Hup.
  - pose proof (Z.mod_pos_bound (c - 65 + k) 26 ltac:(lia)).
    replace ((65 <=? 65 + (c - 65 + k) mod 26) && (65 + (c - 65 + k) mod 26 <=? 90))
      with true by (symmetry; lia).
    replace (65 + (c - 65 + k) mod 26 - 65 + - k) with ((c - 65 + k) mod 26 - k) by lia.
    rewrite Zminus_mod_idemp_l. replace (c - 65 + k - k) with (c - 65) by lia.
    rewrite Z.mod_small by lia. lia.
  - destruct ((97 <=? c) && (c <=? 122)) eqn:Hlow.
    + pose proof (Z.mod_pos_bound (c - 97 + k) 26 ltac:(lia)).
      replace ((65 <=? 97 + (c - 97 + k) mod 26) && (97 + (c - 97 + k) mod 26 <=? 90))
        with false by (symmetry; lia).
      replace ((97 <=? 97 + (c - 97 + k) mod 26) && (97 + (c - 97 + k) mod 26 <=? 122))
        with true by (symmetry; lia).
      replace (97 + (c - 97 + k) mod 26 - 97 + - k) with ((c - 97 + k) mod 26 - k) by lia.
      rewrite Zminus_mod_idemp_l. replace (c - 97 + k - k) with (c - 97) by lia.
      rewrite Z.mod_small by lia. lia.
    + by rewrite Hup, Hlow.
Qed.

(** C4. The number 0, and the text [0], supplied as shift are not rejected:
    [parseInt(params.shift) || 3] turns them into the default 3, so Caesar
    maps [abc] to [def] and its decryption maps [def] to [abc]; through
    [execute] the text [0] passes the check of required parameters and
    reaches the transform. *)
Theorem caesar_shift_0_is_not_rejected `{Platform} :
  caesar_fn (lit "abc") {[ lit "shift" := VNum 0 ]} = Ok (lit "def")
  /\ caesarDecrypt_fn (lit "def") {[ lit "shift" := VNum 0 ]} = Ok (lit "abc")
  /\ caesar_fn (lit "abc") {[ lit "shift" := VStr (lit "0") ]} = Ok (lit "def")
  /\ caesarDecrypt_fn (lit "def") {[ lit "shift" := VStr (lit "0") ]}
     = Ok (lit "abc")
  /\ execute embeddedOperations (lit "caesar") (lit "abc")
       {[ lit "shift" := VStr (lit "0") ]} []
     = (Ok (lit "def"),
        [{| call_key := lit "caesar"; call_input := lit "abc";
            call_params := {[ lit "shift" := VStr (lit "0") ]} |}]).
Proof.
  split; [by vm_compute |]. split; [by vm_compute |].
  split; [by vm_compute |]. split; [by vm_compute |].
  unfold execute.
  assert (get embeddedOperations (lit "caesar") = Entry caesar) as ->
    by reflexivity.
  unfold mbind, M_mbind, M_bind, invoke.
  assert (validate (op_params caesar) {[ lit "shift" := VStr (lit "0") ]} []
          = (Ok tt, [])) as -> by (by vm_compute).
  f_equal.
Qed.

(** ** Strings without surrogate pairs *)

Lemma codePoints_singletons s :
  hasSurrogatePair s = false -> codePoints s = (fun c => [c]) <$> s.
Proof.
  induction s as [| hi t IH]; [done |]. destruct t as [| lo r]; [done |].
  intros Hpair. cbn [hasSurrogatePair] in Hpair.
  apply orb_false_elim in Hpair as [Hhere Hrest].
  cbn [codePoints]. rewrite Hhere. rewrite fmap_cons. f_equal. by apply IH.
Qed.

Lemma isAscii_not_high c : isAscii c -> isHighSurrogate c = false.
Proof. unfold isAscii, isHighSurrogate. lia. Qed.

Lemma ascii_hasSurrogatePair s : Forall isAscii s -> hasSurrogatePair s = false.
Proof.
  induction 1 as [| c s Hc Hs IH]; [done |]. destruct s as [| d r]; [done |].
  change (hasSurrogatePair (c :: d :: r))
    with ((isHighSurrogate c && isLowSurrogate d) || hasSurrogatePair (d :: r)).
  by rewrite (isAscii_not_high c Hc), IH.
Qed.

Lemma Forall_isAscii_lit (s : jsstring) :
  forallb (fun c => (0 <=? c) && (c <? 128)) s = true -> Forall isAscii s.
Proof.
  intros Hs. apply Forall_forall. intros c Hc.
  rewrite forallb_forall in Hs. apply list_elem_of_In, Hs in Hc.
  unfold isAscii. lia.
Qed.

Lemma upperAscii_isAscii c : isAscii c -> isAscii (upperAscii c).
Proof. unfold isAscii, upperAscii. destruct (_ && _) eqn:?; lia. Qed.

(** ** C5: the alphabet of the substitution *)

Lemma length_remove_dups_fmap_inj {A B} `{EqDecision A, EqDecision B}
    (f : A -> B) (l : list A) :
  (forall x y, f x = f y -> x = y) ->
  length (remove_dups (f <$> l)) = length (remove_dups l).
Proof.
  intros Hinj. induction l as [| x l IH]; [done |]. rewrite fmap_cons. simpl.
  destruct (decide_rel elem_of (f x) (f <$> l)) as [Hin | Hnin];
    destruct (decide_rel elem_of x l) as [Hin' | Hnin']; simpl; try by rewrite IH.
  - apply list_elem_of_fmap in Hin as (y & Hxy & Hy). apply Hinj in Hxy.
    by subst.
  - exfalso. apply Hnin. by apply list_elem_of_fmap_2.
Qed.

Lemma length_remove_dups_le {A} `{EqDecision A} (l : list A) :
  (length (remove_dups l) <= length l)%nat.
Proof.
  induction l as [| x l IH]; [done |]. simpl.
  destruct (decide_rel elem_of x l); simpl; lia.
Qed.

Lemma length_remove_dups_NoDup {A} `{EqDecision A} (l : list A) :
  length (remove_dups l) = length l <-> NoDup l.
Proof.
  induction l as [| x l IH]; [by split; [constructor |] |]. simpl.
  pose proof (length_remove_dups_le l) as Hle.
  destruct (decide_rel elem_of x l) as [Hin | Hnin]; simpl.
  - split; [lia |]. intros Hnd. apply NoDup_cons in Hnd as [Hx _]. done.
  - split.
    + intros Hlen. apply NoDup_cons. split; [done |]. apply IH. lia.
    + intros Hnd. apply NoDup_cons in Hnd as [_ Hnd]. apply IH in Hnd. lia.
Qed.

Section SubstitutionProperties.
Context `{Platform}.

(** The check of the alphabet, on an ASCII alphabet: 26 code units that
    are pairwise different once in upper case. *)
Lemma distinctCodePoints_ascii (al : jsstring) :
  Forall isAscii al ->
  distinctCodePoints (toUpperCase al) = length (remove_dups (upperAscii <$> al)).
Proof.
  intros Hal. unfold distinctCodePoints. rewrite toUpperCase_ascii by done.
  rewrite codePoints_singletons.
  - apply (length_remove_dups_fmap_inj (fun c : Z => [c])). by intros c d [= ->].
  - apply ascii_hasSurrogatePair, Forall_fmap.
    eapply Forall_impl; [exact Hal |]. apply upperAscii_isAscii.
Qed.

(** An ASCII alphabet that does not have 26 characters, or in which a
    letter occurs twice (in whatever case), is rejected, whatever the
    input. *)
Lemma substitution_fn_rejects (al input : jsstring) :
  Forall isAscii al ->
  length al <> 26%nat \/ ~ NoDup (upperAscii <$> al) ->
  exists message,
    substitution_fn input {[ lit "alphabet" := VStr al ]} = Throw message.
Proof.
  intros Hal Hbad. unfold substitution_fn, prop. rewrite lookup_singleton_eq.
  cbn [default from_option id ToString].
  destruct (ToBoolean (VStr al)); [| by eexists]. cbn [negb].
  rewrite distinctCodePoints_ascii by done.
  rewrite toUpperCase_ascii by done. rewrite length_fmap.
  destruct (negb (length al =? 26)%nat
            || negb (length (remove_dups (upperAscii <$> al)) =? 26)%nat) eqn:Hchk;
    [by eexists |].
  apply orb_false_elim in Hchk as [Hlen Hdis].
  apply negb_false_iff, Nat.eqb_eq in Hlen, Hdis. exfalso.
  destruct Hbad as [Hbad | Hbad]; [done |]. apply Hbad.
  apply length_remove_dups_NoDup. by rewrite Hdis, length_fmap.
Qed.

(** What one ASCII character becomes under an ASCII alphabet of 26
    characters. *)
Lemma substitute_ascii (alphabet : jsstring) (c : Z) :
  Forall isAscii alphabet -> length alphabet = 26%nat -> isAscii c ->
  substitute alphabet [c] = Ok [substituteLetter alphabet c].
Proof.
  intros Hal Hlen Hc. unfold substitute, substituteLetter. simpl existsb.
  rewrite !orb_false_r.
  destruct ((97 <=? c) && (c <=? 122)) eqn:Hlow.
  - rewrite toUpperCase_ascii by (by constructor). simpl.
    unfold upperAscii. rewrite Hlow. unfold at_index.
    replace (c - 32 - 65 <? 0) with false by (symmetry; lia).
    replace (c - 32 - 65) with (c - 97) by lia.
    destruct (lookup_lt_is_Some_2 alphabet (Z.to_nat (c - 97)) ltac:(lia))
      as [a Ha].
    rewrite Ha. simpl. rewrite toLowerCase_ascii; [done |].
    constructor; [| done]. rewrite Forall_forall in Hal. apply Hal.
    by eapply list_elem_of_lookup_2.
  - destruct ((65 <=? c) && (c <=? 90)) eqn:Hup; [| done]. simpl.
    unfold at_index. replace (c - 65 <? 0) with false by (symmetry; lia).
    destruct (lookup_lt_is_Some_2 alphabet (Z.to_nat (c - 65)) ltac:(lia))
      as [a Ha].
    by rewrite Ha.
Qed.

Lemma substitution_loop_ascii (alphabet input acc : jsstring) :
  Forall isAscii alphabet -> length alphabet = 26%nat -> Forall isAscii input ->
  substitution_loop alphabet ((fun c => [c]) <$> input) acc
  = Ok (acc ++ (substituteLetter alphabet <$> input)).
Proof.
  intros Hal Hlen Hin. revert acc.
  induction Hin as [| c input Hc _ IH]; intros acc.
  - simpl. by rewrite app_nil_r.
  - rewrite !fmap_cons. cbn [substitution_loop].
    rewrite substitute_ascii by done. simpl. rewrite IH.
    by rewrite <- app_assoc.
Qed.

(** On ASCII text, an ASCII alphabet of 26 different characters is
    accepted and the result is the substitution of the specification. *)
Lemma substitution_fn_accepts (al input : jsstring) :
  Forall isAscii al -> Forall isAscii input ->
  length al = 26%nat -> NoDup (upperAscii <$> al) ->
  substitution_fn input {[ lit "alphabet" := VStr al ]}
  = Ok (substituteLetter (upperAscii <$> al) <$> input).
Proof.
  intros Hal Hin Hlen Hnd. unfold substitution_fn, prop.
  rewrite lookup_singleton_eq. cbn [default from_option id ToString].
  assert (ToBoolean (VStr al) = true) as -> by (by destruct al).
  cbn [negb]. rewrite distinctCodePoints_ascii by done.
  rewrite toUpperCase_ascii by done. rewrite length_fmap, Hlen.
  apply length_remove_dups_NoDup in Hnd. rewrite Hnd, length_fmap, Hlen.
  cbn [Nat.eqb negb orb].
  rewrite codePoints_singletons by (by apply ascii_hasSurrogatePair).
  rewrite substitution_loop_ascii; try done.
  - apply Forall_fmap. eapply Forall_impl; [exact Hal |].
    apply upperAscii_isAscii.
  - by rewrite length_fmap.
Qed.

(** C5. The alphabet [ABCDEFGHIJKLMNOPQRSTUVWXY1], which has 26 different
    characters of which the last is a digit, is not rejected: the check
    counts different characters and does not look whether they are
    letters. Under it [XYZ xyz] becomes [XY1 xy1]. *)
Theorem substitution_accepts_a_digit :
  isLetter (code "1") = false
  /\ substitution_fn (lit "XYZ xyz")
       {[ lit "alphabet" := VStr (lit "ABCDEFGHIJKLMNOPQRSTUVWXY1") ]}
     = Ok (lit "XY1 xy1").
Proof.
  split; [done |]. rewrite substitution_fn_accepts.
  - by vm_compute.
  - by apply Forall_isAscii_lit.
  - by apply Forall_isAscii_lit.
  - done.
  - apply length_remove_dups_NoDup. by vm_compute.
Qed.
End SubstitutionProperties.

(** ** Hexadecimal text and bytes *)

Lemma hexByte_parse b : isByte b -> parseInt_radix (hexByte b) 16 = Some b.
Proof.
  intros Hb.
  apply (byte_cases (fun b => bool_decide (parseInt_radix (hexByte b) 16 = Some b)))
    in Hb.
  - by apply bool_decide_eq_true in Hb.
  - by vm_compute.
Qed.

(** The two digits of a byte are neither separators nor line
    terminators. *)
Lemma hexByte_chars b : isByte b ->
  exists h l, hexByte b = [h; l]
    /\ isHexSeparator h = false /\ isHexSeparator l = false
    /\ isLineTerminator h = false /\ isLineTerminator l = false.
Proof.
  intros Hb.
  apply (byte_cases (fun b =>
           match hexByte b with
           | [h; l] => negb (isHexSeparator h) && negb (isHexSeparator l)
                       && negb (isLineTerminator h) && negb (isLineTerminator l)
           | _ => false
           end)) in Hb; [| by vm_compute].
  destruct (hexByte b) as [| h [| l [| ? ?]]]; try done.
  exists h, l. split; [done |].
  repeat (apply andb_prop in Hb as [Hb ?%negb_true_iff]).
  apply negb_true_iff in Hb. done.
Qed.

Lemma removeClass_hexBytes bytes : Forall isByte bytes ->
  removeClass isHexSeparator (concat (hexByte <$> bytes))
  = concat (hexByte <$> bytes).
Proof.
  induction 1 as [| b bytes Hb _ IH]; [done |].
  destruct (hexByte_chars b Hb) as (h & l & Hhl & Hh & Hl & _).
  rewrite fmap_cons. simpl concat. rewrite Hhl. unfold removeClass in *.
  simpl app. rewrite !filter_cons. rewrite !decide_True by done.
  by rewrite IH.
Qed.

Lemma dotPairs_hexBytes bytes : Forall isByte bytes ->
  dotPairs (concat (hexByte <$> bytes)) = hexByte <$> bytes.
Proof.
  induction 1 as [| b bytes Hb _ IH]; [done |].
  destruct (hexByte_chars b Hb) as (h & l & Hhl & _ & _ & Hh & Hl).
  rewrite fmap_cons. simpl concat. rewrite Hhl. simpl app.
  cbn [dotPairs]. rewrite Hh, Hl. by rewrite IH.
Qed.

Lemma length_hexBytes bytes : Forall isByte bytes ->
  length (concat (hexByte <$> bytes)) = (2 * length bytes)%nat.
Proof.
  intros Hb. rewrite length_concat_pairs, length_fmap; [done |].
  apply Forall_fmap. eapply Forall_impl; [exact Hb |]. apply hexByte_length.
Qed.

Lemma Uint8Array_bytes bytes : Forall isByte bytes -> Uint8Array bytes = bytes.
Proof.
  induction 1 as [| b bytes Hb _ IH]; [done |]. unfold Uint8Array in *.
  rewrite fmap_cons, IH. f_equal. apply Z.mod_small. exact Hb.
Qed.

(** Decoding the hexadecimal text of a sequence of bytes that is not
    empty gives the text that these bytes encode. *)
Lemma fromHex_fn_hexBytes bytes :
  bytes <> [] -> Forall isByte bytes ->
  fromHex_fn (concat (hexByte <$> bytes)) = Ok (TextDecoder_decode bytes).
Proof.
  intros Hne Hb. unfold fromHex_fn.
  rewrite removeClass_hexBytes by done. rewrite length_hexBytes by done.
  replace ((2 * length bytes) `mod` 2 =? 0)%nat with true
    by (symmetry; apply Nat.eqb_eq; by rewrite Nat.mul_comm, Nat.Div0.mod_mul).
  cbn [negb]. unfold match_dotPairs. rewrite dotPairs_hexBytes by done.
  destruct (hexByte <$> bytes) as [| m0 ms0] eqn:Hms;
    [by apply fmap_nil_inv in Hms |].
  rewrite <- Hms. clear m0 ms0 Hms.
  assert (Hparse : (fun h => parseInt_radix h 16) <$> (hexByte <$> bytes)
                   = Some <$> bytes).
  { clear Hne. induction Hb as [| b l Hb' _ IH]; [done |].
    rewrite !fmap_cons, IH. f_equal. by apply hexByte_parse. }
  rewrite Hparse.
  assert (Hsome : existsb (fun n : option Z => negb (bool_decide (is_Some n)))
                    (Some <$> bytes) = false).
  { clear. induction bytes as [| b l IH]; [done |]. rewrite fmap_cons. simpl.
    exact IH. }
  rewrite Hsome. unfold rethrow. f_equal.
  rewrite <- list_fmap_compose.
  assert (Hid : (default 0 ∘ Some) <$> bytes = bytes).
  { clear. induction bytes as [| b l IH]; [done |]. by rewrite fmap_cons, IH. }
  by rewrite Hid, Uint8Array_bytes.
Qed.

(** An odd number of characters, separators not counted, is an error. *)
Lemma fromHex_fn_odd input :
  (length (removeClass isHexSeparator input) mod 2 =? 0)%nat = false ->
  fromHex_fn input
  = Throw (lit "Invalid hex string: Hex string length must be even").
Proof. intros Hodd. unfold fromHex_fn. by rewrite Hodd. Qed.

(** ** C3: text that is not hexadecimal *)

(** A pair of characters that starts with a character that is neither a
    hexadecimal digit nor a sign is not a number. *)
Lemma parseInt_radix_16_NaN a b :
  isHexDigit a = false -> isHexSeparator a = false -> a <> 43 ->
  parseInt_radix [a; b] 16 = None.
Proof.
  unfold isHexDigit, isHexSeparator. intros Hhex Hsep Hplus.
  apply orb_false_elim in Hsep as [Hsep Hminus].
  apply orb_false_elim in Hsep as [Hsep Hcomma].
  apply orb_false_elim in Hsep as [Hws Hcolon].
  unfold parseInt_radix. cbn [trimStart]. rewrite Hws.
  replace (a =? 45) with false by zbool. replace (a =? 43) with false by zbool.
  cbn [orb andb negb Z.eqb Z.ltb Z.compare Pos.compare Pos.compare_cont Pos.eqb].
  replace (a =? 48) with false by zbool. cbn [andb parseDigits].
  unfold digitValue.
  destruct ((48 <=? a) && (a <=? 57)) eqn:H09; [lia |].
  destruct ((97 <=? a) && (a <=? 122)) eqn:Haz.
  { by replace (a - 87 <? 16) with false by zbool. }
  destruct ((65 <=? a) && (a <=? 90)) eqn:HAZ; [| done].
  by replace (a - 55 <? 16) with false by zbool.
Qed.

Lemma isHexSeparator_lineTerminator c :
  isHexSeparator c = false -> isLineTerminator c = false.
Proof. unfold isHexSeparator, isWhiteSpace, isLineTerminator. lia. Qed.

Lemma removeClass_Forall cls s :
  Forall (fun c => cls c = false) (removeClass cls s).
Proof. unfold removeClass. apply Forall_forall. by intros c [Hc _]%list_elem_of_filter. Qed.

(** Without line terminators the matches of [/.{1,2}/g] are the
    successive pairs. *)
Lemma dotPairs_app_pair l1 a b l2 :
  Forall (fun c => isLineTerminator c = false) (l1 ++ a :: b :: l2) ->
  Nat.Even (length l1) ->
  dotPairs (l1 ++ a :: b :: l2) = dotPairs l1 ++ [a; b] :: dotPairs l2.
Proof.
  induction l1 as [| c | c d l1 IH _] using list_pair_ind; intros Hlt Heven.
  - cbn [app] in *. apply Forall_cons in Hlt as [Ha Hlt].
    apply Forall_cons in Hlt as [Hb _]. cbn [dotPairs]. by rewrite Ha, Hb.
  - destruct Heven as [k Hk]. simpl in Hk. lia.
  - cbn [app] in *. apply Forall_cons in Hlt as [Hc Hlt].
    apply Forall_cons in Hlt as [Hd Hlt].
    change (dotPairs (c :: d :: l1 ++ a :: b :: l2))
      with (if isLineTerminator c then dotPairs (d :: l1 ++ a :: b :: l2)
            else if isLineTerminator d then [c] :: dotPairs (l1 ++ a :: b :: l2)
                 else [c; d] :: dotPairs (l1 ++ a :: b :: l2)).
    change (dotPairs (c :: d :: l1))
      with (if isLineTerminator c then dotPairs (d :: l1)
            else if isLineTerminator d then [c] :: dotPairs l1
                 else [c; d] :: dotPairs l1).
    rewrite Hc, Hd, IH; [done | done |].
    destruct Heven as [k Hk]. exists (k - 1)%nat. simpl in Hk. lia.
Qed.

(** The part of C3 that holds: when, separators removed, the number of
    characters is even and a pair starts with a character that is neither
    a hexadecimal digit nor [+], decoding fails. *)
Lemma fromHex_fn_rejects input l1 a b l2 :
  removeClass isHexSeparator input = l1 ++ a :: b :: l2 ->
  Nat.Even (length l1) -> Nat.Even (length l2) ->
  isHexDigit a = false -> a <> 43 ->
  fromHex_fn input = Throw (lit "Invalid hex string: Invalid hex characters").
Proof.
  intros Hclean Heven1 Heven2 Hhex Hplus.
  pose proof (removeClass_Forall isHexSeparator input) as Hsep.
  rewrite Hclean in Hsep. unfold fromHex_fn. rewrite Hclean.
  assert (Hlen : (length (l1 ++ a :: b :: l2) mod 2 =? 0)%nat = true).
  { apply Nat.eqb_eq. destruct Heven1 as [k1 Hk1], Heven2 as [k2 Hk2].
    rewrite length_app. cbn [length]. rewrite Hk1, Hk2.
    replace (2 * k1 + S (S (2 * k2)))%nat with ((k1 + k2 + 1) * 2)%nat by lia.
    apply Nat.Div0.mod_mul. }
  rewrite Hlen. cbn [negb]. unfold match_dotPairs.
  rewrite dotPairs_app_pair; [| | done].
  2: { eapply Forall_impl; [exact Hsep |]. apply isHexSeparator_lineTerminator. }
  destruct (dotPairs l1 ++ [a; b] :: dotPairs l2) as [| m ms] eqn:Hms;
    [by destruct (dotPairs l1) |].
  rewrite <- Hms. rewrite fmap_app, fmap_cons, existsb_app. cbn [existsb].
  rewrite parseInt_radix_16_NaN; [| done | | done].
  - cbn. by rewrite orb_true_r.
  - apply Forall_app in Hsep as [_ Hsep]. by apply Forall_cons in Hsep as [Ha _].
Qed.


(** C3. The texts [1g], [+1] and [4g6h], which hold characters that are
    neither hexadecimal digits nor separators, are decoded without error:
    [parseInt(h, 16)] reads the digits at the start of each pair and does
    not give NaN as long as there is one, so the test of NaN lets the pair
    through, and the result is the text of the bytes 1, 1, and 4 and 6. *)
Theorem fromHex_accepts_non_hex_characters :
  isHexDigit (code "g") = false /\ isHexSeparator (code "g") = false
  /\ fromHex_fn (lit "1g") = Ok [1]
  /\ isHexDigit (code "+") = false /\ isHexSeparator (code "+") = false
  /\ fromHex_fn (lit "+1") = Ok [1]
  /\ fromHex_fn (lit "4g6h") = Ok [4; 6].
Proof. by vm_compute. Qed.

(** ** UTF-8: decoding what was encoded *)

Lemma land_low_bits b n : 0 <= n -> Z.land b (2 ^ n - 1) = b mod 2 ^ n.
Proof.
  intros Hn. rewrite <- Z.land_ones by done. f_equal.
  by rewrite Z.ones_equiv, Z.sub_1_r.
Qed.

Lemma lor_shiftl_low c m : 0 <= m < 64 -> Z.lor (Z.shiftl c 6) m = c * 64 + m.
Proof.
  intros Hm. rewrite Z.shiftl_mul_pow2 by lia. change (2 ^ 6) with 64.
  assert (Hdisjoint : Z.land (c * 64) m = 0).
  { apply Z.bits_inj'. intros i Hi. rewrite Z.land_spec, Z.bits_0.
    destruct (Z.lt_ge_cases i 6) as [Hlow | Hhigh].
    - change 64 with (2 ^ 6). by rewrite Z.mul_pow2_bits_low.
    - rewrite andb_false_iff. right.
      destruct (Z.eq_dec m 0) as [-> | Hm0]; [apply Z.bits_0 |].
      apply Z.bits_above_log2; [lia |].
      assert (Z.log2 m < 6) by (apply Z.log2_lt_pow2; lia). lia. }
  rewrite <- Z.lxor_lor by done. symmetry. by apply Z.add_nocarry_lxor.
Qed.

Lemma land_31 b : Z.land b 31 = b mod 32.
Proof. apply (land_low_bits b 5). lia. Qed.

Lemma land_15 b : Z.land b 15 = b mod 16.
Proof. apply (land_low_bits b 4). lia. Qed.

Lemma land_7 b : Z.land b 7 = b mod 8.
Proof. apply (land_low_bits b 3). lia. Qed.

Lemma land_63 b : Z.land b 63 = b mod 64.
Proof. apply (land_low_bits b 6). lia. Qed.

(** A continuation byte within the bounds extends the pending code point;
    the last one completes it. *)
Lemma utf8_decode_continue cp needed seen lower upper b rest :
  lower <= b <= upper -> 0 <= b - 128 < 64 ->
  utf8_decode (b :: rest) (Pending cp needed seen lower upper)
  = if seen + 1 =? needed
    then (cp * 64 + (b - 128)) :: utf8_decode rest Idle
    else utf8_decode rest (Pending (cp * 64 + (b - 128)) needed (seen + 1) 128 191).
Proof.
  intros Hbounds Hb. cbn [utf8_decode].
  replace ((lower <=? b) && (b <=? upper)) with true by zbool.
  rewrite land_63, lor_shiftl_low by (apply Z.mod_pos_bound; lia).
  by replace (b mod 64) with (b - 128) by zbool.
Qed.

Lemma utf8_decode_lead b rest :
  utf8_decode (b :: rest) Idle
  = (leadByte b).1 ++ utf8_decode rest (leadByte b).2.
Proof. cbn [utf8_decode]. by destruct (leadByte b). Qed.

(** The bytes of a scalar value, followed by anything, decode to that
    scalar value, followed by the decoding of what follows. *)
Lemma utf8_decode_utf8 cp rest :
  isScalarValue cp ->
  utf8_decode (utf8 cp ++ rest) Idle = cp :: utf8_decode rest Idle.
Proof.
  intros Hcp. unfold utf8, isScalarValue in *.
  destruct (cp <? 128) eqn:H1; [| destruct (cp <? 2048) eqn:H2;
                                  [| destruct (cp <? 65536) eqn:H3]].
  - cbn [app]. rewrite utf8_decode_lead. unfold leadByte.
    by replace (cp <=? 127) with true by zbool.
  - cbn [app]. rewrite utf8_decode_lead. unfold leadByte.
    replace (192 + cp / 64 <=? 127) with false by zbool.
    replace ((194 <=? 192 + cp / 64) && (192 + cp / 64 <=? 223)) with true
      by zbool.
    cbn [app fst snd]. rewrite utf8_decode_continue by zarith.
    cbn [Z.add Z.eqb Pos.eqb Pos.add]. f_equal. rewrite land_31. zbool.
  - cbn [app]. rewrite utf8_decode_lead. unfold leadByte.
    replace (224 + cp / 4096 <=? 127) with false by zbool.
    replace ((194 <=? 224 + cp / 4096) && (224 + cp / 4096 <=? 223)) with false
      by zbool.
    replace ((224 <=? 224 + cp / 4096) && (224 + cp / 4096 <=? 239)) with true
      by zbool.
    cbn [app fst snd].
    rewrite utf8_decode_continue;
      [| destruct (224 + cp / 4096 =? 224) eqn:?, (224 + cp / 4096 =? 237) eqn:?;
         Z.div_mod_to_equations; lia
       | Z.div_mod_to_equations; lia ].
    cbn [Z.add Z.eqb Pos.eqb Pos.add].
    rewrite utf8_decode_continue by zarith.
    cbn [Z.add Z.eqb Pos.eqb Pos.add]. f_equal. rewrite land_15. zbool.
  - cbn [app]. rewrite utf8_decode_lead. unfold leadByte.
    replace (240 + cp / 262144 <=? 127) with false by zbool.
    replace ((194 <=? 240 + cp / 262144) && (240 + cp / 262144 <=? 223))
      with false by zbool.
    replace ((224 <=? 240 + cp / 262144) && (240 + cp / 262144 <=? 239))
      with false by zbool.
    replace ((240 <=? 240 + cp / 262144) && (240 + cp / 262144 <=? 244))
      with true by zbool.
    cbn [app fst snd].
    rewrite utf8_decode_continue;
      [| destruct (240 + cp / 262144 =? 240) eqn:?,
                  (240 + cp / 262144 =? 244) eqn:?;
         Z.div_mod_to_equations; lia
       | Z.div_mod_to_equations; lia ].
    cbn [Z.add Z.eqb Pos.eqb Pos.add].
    rewrite utf8_decode_continue by zarith.
    cbn [Z.add Z.eqb Pos.eqb Pos.add].
    rewrite utf8_decode_continue by zarith.
    cbn [Z.add Z.eqb Pos.eqb Pos.add]. f_equal. rewrite land_7. zbool.
Qed.

Lemma utf8_decode_encode cps :
  Forall isScalarValue cps -> utf8_decode (cps ≫= utf8) Idle = cps.
Proof.
  induction 1 as [| cp cps Hcp _ IH]; [done |].
  by rewrite bind_cons, utf8_decode_utf8, IH.
Qed.

Lemma utf8_isByte cp : isScalarValue cp -> Forall isByte (utf8 cp).
Proof.
  intros Hcp. unfold utf8, isScalarValue, isByte in *.
  destruct (cp <? 128) eqn:H1; [| destruct (cp <? 2048) eqn:H2;
                                  [| destruct (cp <? 65536) eqn:H3]];
    repeat (apply Forall_cons; split; [cbv beta; zarith |]); done.
Qed.

Lemma utf8_nonempty cp : utf8 cp <> [].
Proof. unfold utf8. by repeat case_match. Qed.

(** The scalar values of a well-formed string give the string back in
    UTF-16, and none of them is a replacement. *)
Lemma scalarValues_wellFormed x :
  wellFormed x = true ->
  Forall isScalarValue (scalarValues x) /\ scalarValues x ≫= utf16 = x.
Proof.
  induction x as [| a | a b l IHl IHbl] using list_pair_ind; intros Hwf.
  - by split.
  - cbn [wellFormed] in Hwf. apply andb_prop in Hwf as [Hunit Hsur].
    apply negb_true_iff in Hsur. cbn [scalarValues]. rewrite Hsur.
    unfold isSurrogate, isHighSurrogate, isLowSurrogate in Hsur.
    split.
    + apply Forall_cons. split; [| done]. unfold isScalarValue. lia.
    + simpl. unfold utf16. by replace (a <? 65536) with true by zbool.
  - change (wellFormed (a :: b :: l))
      with ((0 <=? a) && (a <? 65536)
            && (if isHighSurrogate a then isLowSurrogate b && wellFormed l
                else negb (isLowSurrogate a) && wellFormed (b :: l))) in Hwf.
    change (scalarValues (a :: b :: l))
      with (if isHighSurrogate a && isLowSurrogate b
            then (65536 + (a - 55296) * 1024 + (b - 56320)) :: scalarValues l
            else (if isSurrogate a then 65533 else a) :: scalarValues (b :: l)).
    apply andb_prop in Hwf as [Hunit Hwf].
    destruct (isHighSurrogate a) eqn:Hhigh.
    + apply andb_prop in Hwf as [Hlow Hwf]. rewrite Hlow. cbn [andb].
      destruct (IHl Hwf) as [Hscalar Hback].
      unfold isHighSurrogate in Hhigh. unfold isLowSurrogate in Hlow.
      split.
      * apply Forall_cons. split; [| done]. unfold isScalarValue. lia.
      * rewrite bind_cons, Hback. unfold utf16.
        replace (65536 + (a - 55296) * 1024 + (b - 56320) <? 65536) with false
          by zbool.
        cbn [app]. f_equal; [zarith |]. f_equal. zarith.
    + apply andb_prop in Hwf as [Hnotlow Hwf]. apply negb_true_iff in Hnotlow.
      cbn [andb]. unfold isSurrogate. rewrite Hhigh, Hnotlow. cbn [orb].
      destruct (IHbl Hwf) as [Hscalar Hback].
      unfold isHighSurrogate in Hhigh. unfold isLowSurrogate in Hnotlow.
      split.
      * apply Forall_cons. split; [| done]. unfold isScalarValue. lia.
      * rewrite bind_cons, Hback. unfold utf16.
        by replace (a <? 65536) with true by zbool.
Qed.

(** The first scalar value of a well-formed string is a byte order mark
    only if its first code unit is. *)
Lemma scalarValues_head x :
  wellFormed x = true -> head x <> Some 65279 ->
  head (scalarValues x) <> Some 65279.
Proof.
  destruct x as [| a [| b l]]; [done | |]; intros Hwf Hhead.
  - cbn [scalarValues]. destruct (isSurrogate a); [done | exact Hhead].
  - change (scalarValues (a :: b :: l))
      with (if isHighSurrogate a && isLowSurrogate b
            then (65536 + (a - 55296) * 1024 + (b - 56320)) :: scalarValues l
            else (if isSurrogate a then 65533 else a) :: scalarValues (b :: l)).
    destruct (isHighSurrogate a && isLowSurrogate b) eqn:Hpair.
    + apply andb_prop in Hpair as [Hhigh Hlow].
      unfold isHighSurrogate in Hhigh. unfold isLowSurrogate in Hlow.
      cbn [head]. intros [= Heq]. lia.
    + destruct (isSurrogate a); [done | exact Hhead].
Qed.

(** A well-formed string that does not start with a byte order mark is
    decoded from its encoding. *)
Lemma TextDecoder_decode_encode x :
  wellFormed x = true -> head x <> Some 65279 ->
  TextDecoder_decode (TextEncoder_encode x) = x.
Proof.
  intros Hwf Hhead. unfold TextDecoder_decode, TextEncoder_encode.
  destruct (scalarValues_wellFormed x Hwf) as [Hscalar Hback].
  rewrite utf8_decode_encode by done.
  pose proof (scalarValues_head x Hwf Hhead) as Hbom.
  destruct (scalarValues x) as [| c r]; [done |].
  destruct (Z.eqb_spec c 65279) as [-> | _]; [done | exact Hback].
Qed.

Lemma TextEncoder_encode_isByte x :
  wellFormed x = true -> Forall isByte (TextEncoder_encode x).
Proof.
  intros Hwf. destruct (scalarValues_wellFormed x Hwf) as [Hscalar _].
  unfold TextEncoder_encode. induction Hscalar as [| cp cps Hcp _ IH]; [done |].
  rewrite bind_cons. apply Forall_app. split; [by apply utf8_isByte | done].
Qed.

Lemma TextEncoder_encode_nonempty x : x <> [] -> TextEncoder_encode x <> [].
Proof.
  intros Hx. unfold TextEncoder_encode.
  assert (Hsv : scalarValues x <> []).
  { destruct x as [| a [| b l]]; [done | done |].
    change (scalarValues (a :: b :: l))
      with (if isHighSurrogate a && isLowSurrogate b
            then (65536 + (a - 55296) * 1024 + (b - 56320)) :: scalarValues l
            else (if isSurrogate a then 65533 else a) :: scalarValues (b :: l)).
    by destruct (isHighSurrogate a && isLowSurrogate b). }
  destruct (scalarValues x) as [| cp cps]; [done |].
  rewrite bind_cons. intros Happ. apply app_eq_nil in Happ as [Hnil _].
  by apply utf8_nonempty in Hnil.
Qed.

(** With no separator, [toHex] gives the digits of the bytes. *)
Lemma toHex_fn_no_separator x params :
  ToBoolean (prop params (lit "separator")) = false ->
  toHex_fn x params = Ok (concat (hexByte <$> TextEncoder_encode x)).
Proof. intros Hsep. unfold toHex_fn. by rewrite Hsep, join_nil. Qed.

(** Apart from the empty text, the round trip through hexadecimal holds
    for every well-formed string that does not start with a byte order
    mark. *)
Lemma toHex_fromHex_roundtrip x params :
  ToBoolean (prop params (lit "separator")) = false ->
  x <> [] -> wellFormed x = true -> head x <> Some 65279 ->
  bind (toHex_fn x params) fromHex_fn = Ok x.
Proof.
  intros Hsep Hx Hwf Hhead. rewrite toHex_fn_no_separator by done. cbn [bind].
  rewrite fromHex_fn_hexBytes.
  - by rewrite TextDecoder_decode_encode.
  - by apply TextEncoder_encode_nonempty.
  - by apply TextEncoder_encode_isByte.
Qed.

(** A byte order mark at the start does not come back, and a surrogate on
    its own comes back as U+FFFD. *)
Lemma toHex_fromHex_examples :
  bind (toHex_fn [65279; 104; 105] ∅) fromHex_fn = Ok [104; 105]
  /\ bind (toHex_fn [55357] ∅) fromHex_fn = Ok [65533]
  /\ bind (toHex_fn [233; 8364; 55357; 56832] ∅) fromHex_fn
     = Ok [233; 8364; 55357; 56832].
Proof. by vm_compute. Qed.

(** ** C2: hexadecimal and the empty text *)

(** C2. [toHex] of the empty text is the empty text, but [fromHex] of the
    empty text throws: nothing matches [/.{1,2}/g] in it, [match] returns
    [null], and the call of [map] on it is a TypeError that the [catch]
    rewraps. So the round trip of the empty text is an error and not the
    empty text. *)
Theorem fromHex_of_empty_text_throws :
  toHex_fn [] ∅ = Ok []
  /\ toHex_fn [] {[ lit "separator" := VStr [] ]} = Ok []
  /\ fromHex_fn [] = Throw (lit "Invalid hex string: " ++ TypeError_message)
  /\ bind (toHex_fn [] {[ lit "separator" := VStr [] ]}) fromHex_fn <> Ok [].
Proof. by vm_compute. Qed.

(** ** C6: the rail fence *)

Lemma onFence_start rails : 2 <= rails -> onFence rails (0, 1).
Proof. unfold onFence. simpl. lia. Qed.

Lemma zigzag_onFence rails st :
  2 <= rails -> onFence rails st -> onFence rails (zigzag rails st).
Proof.
  destruct st as [rail direction]. unfold onFence, zigzag. simpl.
  intros Hrails (Hrange & Hdir & Htop & Hbottom).
  destruct ((rail + direction =? 0) || (rail + direction =? rails - 1)) eqn:Hturn;
    simpl; lia.
Qed.

Lemma onRail_fmap {A B} (f : A -> B) r pattern (xs : list A) :
  onRail r pattern (f <$> xs) = f <$> onRail r pattern xs.
Proof.
  revert xs. induction pattern as [| p pattern IH]; intros [| x xs]; try done.
  rewrite fmap_cons. cbn [onRail]. destruct (p =? r); [| by apply IH].
  by rewrite fmap_cons, IH.
Qed.

(** *** Encryption fills the rails *)

Lemma push_Ok {A} (fence : list (list A)) rail x bucket :
  0 <= rail -> fence !! Z.to_nat rail = Some bucket ->
  push fence rail x = Ok (<[Z.to_nat rail := bucket ++ [x]]> fence).
Proof.
  intros Hrail Hb. unfold push, at_index.
  replace (rail <? 0) with false by (symmetry; lia). by rewrite Hb.
Qed.

Lemma railFence_loop_spec rails : 2 <= rails ->
  forall chars fence st,
    onFence rails st -> length fence = Z.to_nat rails ->
    exists fence',
      railFence_loop rails chars fence st = Ok fence'
      /\ length fence' = length fence
      /\ forall r bucket, fence !! r = Some bucket ->
           fence' !! r
           = Some (bucket ++ onRail (Z.of_nat r)
                               (pattern_loop rails (length chars) st) chars).
Proof.
  intros Hrails. induction chars as [| char chars IH];
    intros fence [rail direction] Hst Hlen.
  - exists fence. simpl. split; [done |]. split; [done |].
    intros r bucket Hb. by rewrite app_nil_r.
  - pose proof Hst as (Hrange & _). cbn [fst] in Hrange.
    destruct (lookup_lt_is_Some_2 fence (Z.to_nat rail) ltac:(lia)) as [b Hb].
    cbn [railFence_loop fst]. rewrite (push_Ok _ _ _ b) by (done || lia).
    cbn [bind].
    destruct (IH (<[Z.to_nat rail := b ++ [char]]> fence)
                 (zigzag rails (rail, direction)))
      as (fence' & Hloop & Hlen' & Hrails').
    { by apply zigzag_onFence. }
    { by rewrite length_insert. }
    exists fence'. split; [done |]. split; [by rewrite Hlen', length_insert |].
    intros r bucket Hr. cbn [length pattern_loop onRail fst].
    destruct (decide (r = Z.to_nat rail)) as [-> | Hne].
    + rewrite Hb in Hr. injection Hr as <-.
      rewrite (Hrails' _ (b ++ [char])).
      * rewrite Z2Nat.id, Z.eqb_refl by lia. by rewrite <- app_assoc.
      * apply list_lookup_insert_eq. by apply lookup_lt_Some in Hb.
    + replace (rail =? Z.of_nat r) with false
        by (symmetry; apply Z.eqb_neq; lia).
      apply Hrails'. by rewrite list_lookup_insert_ne.
Qed.

Lemma railContents_lookup {A} rails pattern (xs : list A) (r : nat) :
  (r < Z.to_nat rails)%nat ->
  railContents rails pattern xs !! r = Some (onRail (Z.of_nat r) pattern xs).
Proof.
  intros Hr. unfold railContents. rewrite list_lookup_fmap.
  by rewrite lookup_seq_lt.
Qed.

Lemma length_railContents {A} rails pattern (xs : list A) :
  length (railContents rails pattern xs) = Z.to_nat rails.
Proof. unfold railContents. by rewrite length_fmap, length_seq. Qed.

Lemma concat_singletons (s : jsstring) : concat ((fun c => [c]) <$> s) = s.
Proof. induction s as [| c s IH]; [done |]. rewrite fmap_cons. simpl. by rewrite IH. Qed.

(** On a text without surrogate pairs, of at least [rails] characters,
    encryption is the rails of the zig-zag one after the other. *)
Lemma railFence_fn_spec (x : jsstring) params rails :
  parseInt_or (prop params (lit "rails")) 3 = rails ->
  2 <= rails <= 10 -> rails <= Z.of_nat (length x) ->
  hasSurrogatePair x = false ->
  railFence_fn x params
  = Ok (concat (railContents rails (pattern_loop rails (length x) (0, 1)) x)).
Proof.
  intros Hparam Hrails Hlong Hpairs. unfold railFence_fn. rewrite Hparam.
  replace ((rails <? 2) || (10 <? rails)) with false by (symmetry; lia).
  replace (Z.of_nat (length x) <? rails) with false by (symmetry; lia).
  rewrite codePoints_singletons by done.
  destruct (railFence_loop_spec rails ltac:(lia) ((fun c => [c]) <$> x)
              (replicate (Z.to_nat rails) []) (0, 1))
    as (fence' & -> & Hlen & Hfence).
  { apply onFence_start. lia. }
  { by rewrite length_replicate. }
  cbn [bind]. f_equal. rewrite length_fmap in Hfence.
  rewrite length_replicate in Hlen.
  assert (Hfence' : fence' = (fun l : jsstring => (fun c : Z => [c]) <$> l)
                               <$> railContents rails
                                     (pattern_loop rails (length x) (0, 1)) x).
  { apply list_eq. intros r. rewrite list_lookup_fmap.
    destruct (decide (r < Z.to_nat rails)%nat) as [Hr | Hr].
    - rewrite railContents_lookup by done. simpl.
      rewrite (Hfence r []) by (by apply lookup_replicate_2).
      by rewrite onRail_fmap.
    - rewrite !lookup_ge_None_2; [done | |]; [rewrite length_railContents |]; lia. }
  rewrite Hfence'. generalize (railContents rails (pattern_loop rails (length x) (0, 1)) x).
  intros L. induction L as [| l L IH]; [done |].
  rewrite fmap_cons. simpl. rewrite concat_app, IH. by rewrite concat_singletons.
Qed.

(** *** The rails partition the text *)

Lemma length_onRail_bump {A} (g : nat -> list A) (p : Z) (x : A) a n :
  length (concat ((fun r => if p =? Z.of_nat r then x :: g r else g r) <$> seq a n))
  = (length (concat (g <$> seq a n))
     + (if bool_decide (Z.of_nat a <= p < Z.of_nat a + Z.of_nat n)%Z
        then 1 else 0))%nat.
Proof.
  revert a. induction n as [| n IH]; intros a.
  - simpl. rewrite bool_decide_eq_false_2 by lia. done.
  - cbn [seq]. rewrite !fmap_cons. cbn [concat]. rewrite !length_app, IH.
    destruct (Z.eqb_spec p (Z.of_nat a)) as [-> | Hne].
    + rewrite bool_decide_eq_false_2 by lia.
      rewrite bool_decide_eq_true_2 by lia. simpl. lia.
    + destruct (bool_decide (Z.of_nat (S a) <= p < Z.of_nat (S a) + Z.of_nat n))
        eqn:Hin.
      * apply bool_decide_eq_true in Hin. rewrite bool_decide_eq_true_2 by lia. lia.
      * apply bool_decide_eq_false in Hin. rewrite bool_decide_eq_false_2 by lia. lia.
Qed.

Lemma length_concat_railContents {A} rails pattern (xs : list A) :
  Forall (fun p => 0 <= p < rails) pattern -> length pattern = length xs ->
  length (concat (railContents rails pattern xs)) = length xs.
Proof.
  intros Hpat. revert xs. unfold railContents.
  induction Hpat as [| p pattern Hp _ IH]; intros xs Hlen.
  - destruct xs; [| done]. simpl.
    induction (seq 0 (Z.to_nat rails)) as [| r l IHl]; [done |]. done.
  - destruct xs as [| x xs]; [done |]. cbn [onRail].
    rewrite (length_onRail_bump (fun r => onRail (Z.of_nat r) pattern xs)).
    rewrite IH by (simpl in Hlen; lia).
    rewrite bool_decide_eq_true_2 by lia. simpl. lia.
Qed.

Lemma pattern_loop_length rails n st : length (pattern_loop rails n st) = n.
Proof. revert st. induction n as [| n IH]; intros st; [done |]. simpl. by rewrite IH. Qed.

Lemma pattern_loop_onFence rails n st :
  2 <= rails -> onFence rails st ->
  Forall (fun p => 0 <= p < rails) (pattern_loop rails n st).
Proof.
  intros Hrails. revert st. induction n as [| n IH]; intros st Hst; [done |].
  simpl. constructor; [apply Hst |]. by apply IH, zigzag_onFence.
Qed.

(** *** Decryption: cutting the text into rails *)

Lemma fill_rail_spec (text : jsstring) r : 0 <= r ->
  forall pattern (xs : jsstring) fence index b pre rest,
    length pattern = length xs ->
    text = pre ++ onRail r pattern xs ++ rest ->
    index = Z.of_nat (length pre) ->
    fence !! Z.to_nat r = Some b ->
    fill_rail text r pattern fence index
    = Ok (<[Z.to_nat r := b ++ (Some <$> onRail r pattern xs)]> fence,
          index + Z.of_nat (length (onRail r pattern xs))).
Proof.
  intros Hr. induction pattern as [| p pattern IH];
    intros xs fence index b pre rest Hlen Htext Hindex Hb.
  - destruct xs; [| done]. simpl. rewrite app_nil_r, Z.add_0_r.
    by rewrite list_insert_id.
  - destruct xs as [| x xs]; [done |]. injection Hlen as Hlen.
    cbn [fill_rail onRail]. destruct (p =? r) eqn:Hp.
    + cbn [onRail] in Htext. rewrite Hp in Htext.
      assert (Hat : at_index text index = Some x).
      { unfold at_index. replace (index <? 0) with false by (symmetry; lia).
        rewrite Hindex, Nat2Z.id, Htext.
        rewrite lookup_app_r by lia. by rewrite Nat.sub_diag. }
      rewrite Hat. rewrite (push_Ok _ _ _ b) by done. cbn [bind].
      rewrite (IH xs _ _ (b ++ [Some x]) (pre ++ [x]) rest); try done.
      * rewrite list_insert_insert_eq. rewrite fmap_cons, <- app_assoc.
        f_equal. f_equal. simpl length. lia.
      * rewrite Htext. by rewrite <- app_assoc.
      * rewrite length_app. simpl. lia.
      * apply list_lookup_insert_eq. by apply lookup_lt_Some in Hb.
    + cbn [onRail] in Htext. rewrite Hp in Htext. by apply (IH xs _ _ _ pre rest).
Qed.

Lemma fill_loop_spec (text : jsstring) pattern (xs : jsstring) :
  length pattern = length xs ->
  forall todo (r : nat) fence index pre rest,
    text = pre ++ concat ((fun j => onRail (Z.of_nat j) pattern xs) <$> seq r todo)
               ++ rest ->
    index = Z.of_nat (length pre) ->
    (r + todo <= length fence)%nat ->
    exists fence',
      fill_loop text pattern todo (Z.of_nat r) fence index = Ok fence'
      /\ length fence' = length fence
      /\ forall j b, fence !! j = Some b ->
           fence' !! j
           = Some (if bool_decide (r <= j < r + todo)%nat
                   then b ++ (Some <$> onRail (Z.of_nat j) pattern xs)
                   else b).
Proof.
  intros Hlen. induction todo as [| todo IH];
    intros r fence index pre rest Htext Hindex Hfits.
  - exists fence. split; [done |]. split; [done |]. intros j b Hb.
    by rewrite bool_decide_eq_false_2 by lia.
  - cbn [seq] in Htext. rewrite fmap_cons in Htext. cbn [concat] in Htext.
    rewrite <- app_assoc in Htext.
    destruct (lookup_lt_is_Some_2 fence r ltac:(lia)) as [b0 Hb0].
    cbn [fill_loop].
    rewrite (fill_rail_spec text (Z.of_nat r) ltac:(lia) pattern xs fence index
               b0 pre _ Hlen Htext Hindex) by (by rewrite Nat2Z.id).
    cbn [bind]. rewrite Nat2Z.id.
    replace (Z.of_nat r + 1) with (Z.of_nat (S r)) by lia.
    destruct (IH (S r)
                 (<[r := b0 ++ (Some <$> onRail (Z.of_nat r) pattern xs)]> fence)
                 (index + Z.of_nat (length (onRail (Z.of_nat r) pattern xs)))
                 (pre ++ onRail (Z.of_nat r) pattern xs) rest)
      as (fence' & Hloop & Hlen' & Hfence').
    { rewrite Htext. by rewrite <- app_assoc. }
    { rewrite length_app. lia. }
    { rewrite length_insert. lia. }
    exists fence'. split; [done |]. split; [by rewrite Hlen', length_insert |].
    intros j b Hb. destruct (decide (j = r)) as [-> | Hne].
    + rewrite Hb0 in Hb. injection Hb as <-.
      rewrite (Hfence' r (b0 ++ (Some <$> onRail (Z.of_nat r) pattern xs))).
      * rewrite bool_decide_eq_false_2 by lia.
        by rewrite bool_decide_eq_true_2 by lia.
      * apply list_lookup_insert_eq. lia.
    + rewrite (Hfence' j b) by (by rewrite list_lookup_insert_ne).
      destruct (bool_decide (S r <= j < S r + todo)%nat) eqn:Hin.
      * apply bool_decide_eq_true in Hin. by rewrite bool_decide_eq_true_2 by lia.
      * apply bool_decide_eq_false in Hin. by rewrite bool_decide_eq_false_2 by lia.
Qed.

(** *** Decryption: reading the rails along the zig-zag *)

Lemma read_loop_spec rails : 2 <= rails ->
  forall (xs : jsstring) fence railIndices st acc,
    onFence rails st ->
    (forall r, (r < Z.to_nat rails)%nat ->
       exists F k,
         fence !! r = Some F /\ railIndices !! r = Some (Z.of_nat k)
         /\ drop k F
            = Some <$> onRail (Z.of_nat r) (pattern_loop rails (length xs) st) xs) ->
    read_loop rails (length xs) fence railIndices st acc = Ok (acc ++ xs).
Proof.
  intros Hrails. induction xs as [| x xs IH];
    intros fence railIndices [rail direction] acc Hst Hinv.
  - simpl. by rewrite app_nil_r.
  - pose proof Hst as (Hrange & _). cbn [fst] in Hrange.
    destruct (Hinv (Z.to_nat rail) ltac:(lia)) as (F & k & HF & Hk & Hdrop).
    assert (Hfence : at_index fence rail = Some F).
    { unfold at_index. by replace (rail <? 0) with false by zbool. }
    assert (Hindex : at_index railIndices rail = Some (Z.of_nat k)).
    { unfold at_index. by replace (rail <? 0) with false by zbool. }
    cbn [length read_loop fst]. rewrite Hfence, !Hindex.
    cbn [default from_option id].
    cbn [length pattern_loop onRail fst] in Hdrop.
    rewrite Z2Nat.id, Z.eqb_refl in Hdrop by lia. rewrite fmap_cons in Hdrop.
    assert (HFk : at_index F (Z.of_nat k) = Some (Some x)).
    { unfold at_index. replace (Z.of_nat k <? 0) with false by zbool.
      rewrite Nat2Z.id. rewrite <- (Nat.add_0_r k), <- lookup_drop.
      by rewrite Hdrop. }
    rewrite HFk. rewrite IH; [by rewrite <- app_assoc | by apply zigzag_onFence |].
    intros r Hr. destruct (decide (r = Z.to_nat rail)) as [-> | Hne].
    + exists F, (S k). split; [done |]. split.
      * rewrite list_lookup_insert_eq by (by apply lookup_lt_Some in Hk).
        f_equal. lia.
      * rewrite Z2Nat.id by lia.
        replace (S k) with (k + 1)%nat by lia. rewrite <- drop_drop, Hdrop.
        done.
    + destruct (Hinv r Hr) as (F' & k' & HF' & Hk' & Hdrop').
      exists F', k'. split; [done |]. split.
      * by rewrite list_lookup_insert_ne.
      * rewrite Hdrop'. cbn [length pattern_loop onRail fst].
        by replace (rail =? Z.of_nat r) with false
          by (symmetry; apply Z.eqb_neq; lia).
Qed.

(** Decryption of the rails of a text gives the text back. *)
Lemma railFenceDecrypt_fn_spec (x : jsstring) params rails :
  parseInt_or (prop params (lit "rails")) 3 = rails ->
  2 <= rails <= 10 -> rails <= Z.of_nat (length x) ->
  railFenceDecrypt_fn
    (concat (railContents rails (pattern_loop rails (length x) (0, 1)) x)) params
  = Ok x.
Proof.
  intros Hparam Hrails Hlong. unfold railFenceDecrypt_fn. rewrite Hparam.
  replace ((rails <? 2) || (10 <? rails)) with false by (symmetry; lia).
  set (pattern := pattern_loop rails (length x) (0, 1)).
  assert (Hpat : length pattern = length x) by apply pattern_loop_length.
  assert (Hst : onFence rails (0, 1)) by (apply onFence_start; lia).
  rewrite length_concat_railContents;
    [| by apply pattern_loop_onFence; [lia |] | done].
  replace (Z.of_nat (length x) <? rails) with false by (symmetry; lia).
  fold pattern.
  destruct (fill_loop_spec (concat (railContents rails pattern x)) pattern x Hpat
              (Z.to_nat rails) 0 (replicate (Z.to_nat rails) []) 0 [] [])
    as (fence' & Hfill & Hlen' & Hfence').
  { by rewrite app_nil_r. }
  { done. }
  { by rewrite length_replicate. }
  change (Z.of_nat 0) with 0 in Hfill. rewrite Hfill. cbn [bind].
  apply (read_loop_spec rails ltac:(lia) x fence' _ (0, 1) []); [done |].
  intros r Hr. exists (Some <$> onRail (Z.of_nat r) pattern x), 0%nat.
  split; [| split].
  - rewrite (Hfence' r []) by (by apply lookup_replicate_2).
    by rewrite bool_decide_eq_true_2 by lia.
  - by apply lookup_replicate_2.
  - done.
Qed.

(** *** The round trip *)

(** For every parameter object that is read as a number of rails between
    2 and 10. *)
Lemma railFence_inverse_for_params (x : jsstring) params rails :
  parseInt_or (prop params (lit "rails")) 3 = rails ->
  2 <= rails <= 10 ->
  hasSurrogatePair x = false \/ Z.of_nat (length x) < rails ->
  bind (railFence_fn x params) (fun c => railFenceDecrypt_fn c params) = Ok x
  /\ (Z.of_nat (length x) < rails ->
      railFence_fn x params = Ok x /\ railFenceDecrypt_fn x params = Ok x).
Proof.
  intros Hparam Hrails Hx.
  assert (Hshort : Z.of_nat (length x) < rails ->
            railFence_fn x params = Ok x /\ railFenceDecrypt_fn x params = Ok x).
  { intros Hlt. unfold railFence_fn, railFenceDecrypt_fn. rewrite Hparam.
    replace ((rails <? 2) || (10 <? rails)) with false by zbool.
    by replace (Z.of_nat (length x) <? rails) with true by zbool. }
  split; [| done].
  destruct (Z.lt_ge_cases (Z.of_nat (length x)) rails) as [Hlt | Hge].
  - destruct (Hshort Hlt) as [-> Hdec]. exact Hdec.
  - destruct Hx as [Hpairs | Hlt]; [| lia].
    rewrite (railFence_fn_spec x params rails) by (done || lia). cbn [bind].
    by apply railFenceDecrypt_fn_spec.
Qed.

(** C6, amended. For every number of rails from 2 to 10 and every text
    that has no surrogate pair or is shorter than the number of rails,
    decryption of the encryption of the text gives the text back; and a
    text shorter than the number of rails is returned unchanged by both
    operations. *)
Theorem railFence_roundtrip (x : jsstring) (rails : Z) :
  2 <= rails <= 10 ->
  hasSurrogatePair x = false \/ Z.of_nat (length x) < rails ->
  let params : gmap jsstring Value := {[ lit "rails" := VNum rails ]} in
  bind (railFence_fn x params) (fun c => railFenceDecrypt_fn c params) = Ok x
  /\ (Z.of_nat (length x) < rails ->
      railFence_fn x params = Ok x /\ railFenceDecrypt_fn x params = Ok x).
Proof.
  intros Hrails Hx params. apply (railFence_inverse_for_params x params rails);
    try done.
  unfold params, prop. rewrite lookup_singleton_eq. cbn [default from_option id].
  rewrite parseInt_or_VNum by lia. by replace (rails =? 0) with false by zbool.
Qed.

(** The theorem on three rails and a text of 25 letters. *)
Lemma railFence_roundtrip_witness :
  railFence_fn (lit "WEAREDISCOVEREDFLEEATONCE") {[ lit "rails" := VNum 3 ]}
  = Ok (lit "WECRLTEERDSOEEFEAOCAIVDEN")
  /\ bind (railFence_fn (lit "WEAREDISCOVEREDFLEEATONCE")
                        {[ lit "rails" := VNum 3 ]})
          (fun c => railFenceDecrypt_fn c {[ lit "rails" := VNum 3 ]})
     = Ok (lit "WEAREDISCOVEREDFLEEATONCE").
Proof.
  split; [by vm_compute |].
  refine (proj1 (railFence_roundtrip (lit "WEAREDISCOVEREDFLEEATONCE") 3 _ _)).
  - lia.
  - left. by vm_compute.
Defined.

(** C6 as stated fails beyond ten rails: with 11 rails and a text of 11
    characters, [2 <= rails <= len(x)] holds, and encryption throws. *)
Lemma railFence_throws_with_11_rails :
  2 <= 11 <= Z.of_nat (length (lit "abcdefghijk"))
  /\ railFence_fn (lit "abcdefghijk") {[ lit "rails" := VNum 11 ]}
     = Throw (lit "Number of rails must be between 2 and 10")
  /\ bind (railFence_fn (lit "abcdefghijk") {[ lit "rails" := VNum 11 ]})
          (fun c => railFenceDecrypt_fn c {[ lit "rails" := VNum 11 ]})
     <> Ok (lit "abcdefghijk").
Proof. split; [by vm_compute |]. split; by vm_compute. Qed.

(** Where a surrogate pair occurs, encryption moves the pair as one
    character while decryption counts its two code units: the text made
    of U+1F600 and [ab] does not come back on two rails. *)
Lemma railFence_surrogate_pair_example :
  bind (railFence_fn [55357; 56832; 97; 98] {[ lit "rails" := VNum 2 ]})
       (fun c => railFenceDecrypt_fn c {[ lit "rails" := VNum 2 ]})
  = Ok [55357; 98; 56832; 97].
Proof. by vm_compute. Qed.

(* ================================================================== *)
(** * Further properties of the operations                             *)
(* ================================================================== *)

Import Ciphers.

(** ** The letter ciphers *)

Lemma rot13_fn_shift input : rot13_fn input = Ok (shiftLetter 13 <$> input).
Proof.
  unfold rot13_fn. f_equal. apply replaceClass_ext. intros c.
  unfold isLetter, shiftLetter, fromCharCode.
  destruct ((65 <=? c) && (c <=? 90)) eqn:Hup; simpl.
  - replace (c <=? 90) with true by (symmetry; lia).
    rewrite Z.rem_mod_nonneg by lia.
    pose proof (Z.mod_pos_bound (c - 65 + 13) 26 ltac:(lia)).
    by rewrite Z.mod_small by lia.
  - destruct ((97 <=? c) && (c <=? 122)) eqn:Hlow; [| done].
    replace (c <=? 90) with false by (symmetry; lia).
    rewrite Z.rem_mod_nonneg by lia.
    pose proof (Z.mod_pos_bound (c - 97 + 13) 26 ltac:(lia)).
    by rewrite Z.mod_small by lia.
Qed.

Lemma shiftLetter_13_twice c : shiftLetter 13 (shiftLetter 13 c) = c.
Proof.
  rewrite <- (shiftLetter_inverse 13 c) at 2.
  generalize (shiftLetter 13 c). intros d. unfold shiftLetter.
  destruct ((65 <=? d) && (d <=? 90)); [zarith |].
  destruct ((97 <=? d) && (d <=? 122)); [zarith | done].
Qed.

Lemma fmap_involution (g : Z -> Z) (x : jsstring) :
  (forall c, g (g c) = c) -> g <$> (g <$> x) = x.
Proof.
  intros Hg. rewrite <- list_fmap_compose. rewrite <- (list_fmap_id x) at 2.
  apply list_fmap_ext. intros _ c _. apply Hg.
Qed.

(** ROT13 is its own inverse on every string, and it is the Caesar cipher
    with the shift 13. *)
Theorem rot13_self_inverse (x : jsstring) :
  bind (rot13_fn x) rot13_fn = Ok x
  /\ caesar_fn x {[ lit "shift" := VNum 13 ]} = rot13_fn x.
Proof.
  split.
  - rewrite rot13_fn_shift. simpl. rewrite rot13_fn_shift. f_equal.
    apply fmap_involution, shiftLetter_13_twice.
  - rewrite rot13_fn_shift.
    by apply (caesar_fn_VNum x 13).
Qed.

Lemma atbash_fn_mirror input : atbash_fn input = Ok (mirrorLetter <$> input).
Proof.
  unfold atbash_fn. f_equal. apply replaceClass_ext. intros c.
  unfold isLetter, mirrorLetter, fromCharCode.
  destruct ((97 <=? c) && (c <=? 122)) eqn:Hlow.
  - replace (((65 <=? c) && (c <=? 90)) || true) with true
      by (by destruct ((65 <=? c) && (c <=? 90))).
    f_equal. zarith.
  - rewrite orb_false_r.
    destruct ((65 <=? c) && (c <=? 90)) eqn:Hup; [| done].
    f_equal. zarith.
Qed.

Lemma mirrorLetter_twice c : mirrorLetter (mirrorLetter c) = c.
Proof.
  unfold mirrorLetter.
  destruct ((97 <=? c) && (c <=? 122)) eqn:Hlow.
  - replace ((97 <=? 219 - c) && (219 - c <=? 122)) with true by (symmetry; lia).
    lia.
  - destruct ((65 <=? c) && (c <=? 90)) eqn:Hup.
    + replace ((97 <=? 155 - c) && (155 - c <=? 122)) with false
        by (symmetry; lia).
      replace ((65 <=? 155 - c) && (155 - c <=? 90)) with true
        by (symmetry; lia).
      lia.
    + by rewrite Hlow, Hup.
Qed.

(** Atbash is its own inverse on every string; it keeps the length, the
    case of every letter, and every code unit that is not a letter. *)
Theorem atbash_self_inverse (x : jsstring) :
  exists y, atbash_fn x = Ok y /\ atbash_fn y = Ok x
    /\ length y = length x
    /\ forall i c, x !! i = Some c ->
         exists d, y !! i = Some d
           /\ isUpperLetter d = isUpperLetter c
           /\ isLetter d = isLetter c
           /\ (isLetter c = false -> d = c).
Proof.
  exists (mirrorLetter <$> x). rewrite !atbash_fn_mirror.
  split; [done |]. split.
  { f_equal. apply fmap_involution, mirrorLetter_twice. }
  split; [by rewrite length_fmap |].
  intros i c Hc. exists (mirrorLetter c).
  rewrite list_lookup_fmap, Hc. split; [done |].
  unfold isUpperLetter, isLetter, mirrorLetter.
  destruct ((97 <=? c) && (c <=? 122)) eqn:Hlow.
  - repeat split; try (intros; lia); symmetry; lia.
  - destruct ((65 <=? c) && (c <=? 90)) eqn:Hup.
    + repeat split; try (intros; lia); symmetry; lia.
    + rewrite Hup, Hlow. done.
Qed.

(** Whenever the Caesar cipher accepts its parameters, the decryption with
    the same parameters accepts them too and undoes it, and the other way
    round. *)
Theorem caesar_decrypt_inverts (x y : jsstring) (params : gmap jsstring Value) :
  (caesar_fn x params = Ok y -> caesarDecrypt_fn y params = Ok x)
  /\ (caesarDecrypt_fn x params = Ok y -> caesar_fn y params = Ok x).
Proof.
  set (shift := parseInt_or (prop params (lit "shift")) 3).
  destruct (decide (1 <= shift <= 25)) as [Hin | Hout].
  - pose proof (fun input => caesar_fn_in_range input params shift eq_refl Hin)
      as Hfn.
    split; intros Hy.
    + destruct (Hfn x) as [Henc _]. rewrite Henc in Hy. injection Hy as <-.
      destruct (Hfn (shiftLetter shift <$> x)) as [_ ->]. f_equal.
      rewrite <- list_fmap_compose. rewrite <- (list_fmap_id x) at 2.
      apply list_fmap_ext. intros _ c _. apply shiftLetter_inverse.
    + destruct (Hfn x) as [_ Hdec]. rewrite Hdec in Hy. injection Hy as <-.
      destruct (Hfn (shiftLetter (- shift) <$> x)) as [-> _]. f_equal.
      rewrite <- list_fmap_compose. rewrite <- (list_fmap_id x) at 2.
      apply list_fmap_ext. intros _ c _. simpl.
      rewrite <- (Z.opp_involutive shift) at 1. apply shiftLetter_inverse.
  - destruct (caesar_fn_out_of_range x params shift eq_refl ltac:(lia))
      as [Henc Hdec].
    split; intros Hy; congruence.
Qed.

Lemma caesar_decrypt_inverts_witness :
  caesarDecrypt_fn (lit "Khoor, Zruog!") {[ lit "shift" := VStr (lit "3") ]}
  = Ok (lit "Hello, World!").
Proof.
  apply (proj1 (caesar_decrypt_inverts (lit "Hello, World!")
                  (lit "Khoor, Zruog!") {[ lit "shift" := VStr (lit "3") ]})).
  vm_compute. reflexivity.
Defined.

(** A safe integer (one of magnitude below 2^53) other than 0 that lies
    outside 1..25, supplied as a number or as its decimal text, makes both
    Caesar operations throw. (The bound is needed: see
    [caesar_reads_1e21_as_1].) *)
Theorem caesar_rejects_out_of_range (x : jsstring) (n : Z) (v : Value) :
  n <> 0 -> n < 1 \/ 25 < n -> Z.abs n < 2 ^ 53 ->
  v = VNum n \/ v = VStr (Number_toString n) ->
  caesar_fn x {[ lit "shift" := v ]}
    = Throw (lit "Shift must be between 1 and 25")
  /\ caesarDecrypt_fn x {[ lit "shift" := v ]}
    = Throw (lit "Shift must be between 1 and 25").
Proof.
  intros Hn Hout Hsafe Hv.
  apply (caesar_fn_out_of_range x _ n); [| done].
  unfold prop. rewrite lookup_singleton_eq. simpl.
  assert (parseInt v = Some n) as Hparse.
  { destruct Hv as [-> | ->]; [by apply parseInt_VNum |].
    by apply (parseInt_VNum n). }
  unfold parseInt_or. rewrite Hparse.
  by replace (n =? 0) with false by (symmetry; lia).
Qed.

Lemma caesar_rejects_out_of_range_witness :
  caesar_fn (lit "abc") {[ lit "shift" := VStr (lit "30") ]}
    = Throw (lit "Shift must be between 1 and 25")
  /\ caesarDecrypt_fn (lit "abc") {[ lit "shift" := VStr (lit "30") ]}
    = Throw (lit "Shift must be between 1 and 25").
Proof.
  apply (caesar_rejects_out_of_range (lit "abc") 30 (VStr (lit "30")));
    [lia | lia | lia | right; reflexivity].
Defined.

(** From 10^21 on a number is printed in exponent notation, of which
    [parseInt] reads the digits before the point or the [e]: the number
    10^21, printed [1e+21], is the shift 1. *)
Lemma caesar_reads_1e21_as_1 :
  ToString (VNum (10 ^ 21)) = lit "1e+21"
  /\ caesar_fn (lit "abc") {[ lit "shift" := VNum (10 ^ 21) ]} = Ok (lit "bcd").
Proof. split; by vm_compute. Qed.

(** ** Vigenère *)

Lemma vigenere_loop_acc key text : forall keyIndex acc,
  vigenere_loop key text keyIndex acc
  = acc ++ vigenere_loop key text keyIndex [].
Proof.
  induction text as [| c text IH]; intros keyIndex acc; simpl.
  - by rewrite app_nil_r.
  - destruct (isLetter c).
    + rewrite IH. rewrite (IH _ [_]). by rewrite <- app_assoc.
    + rewrite IH. rewrite (IH _ [_]). by rewrite <- app_assoc.
Qed.

Lemma vigenereDecrypt_loop_acc key text : forall keyIndex acc,
  vigenereDecrypt_loop key text keyIndex acc
  = acc ++ vigenereDecrypt_loop key text keyIndex [].
Proof.
  induction text as [| c text IH]; intros keyIndex acc; simpl.
  - by rewrite app_nil_r.
  - destruct (isLetter c).
    + rewrite IH. rewrite (IH _ [_]). by rewrite <- app_assoc.
    + rewrite IH. rewrite (IH _ [_]). by rewrite <- app_assoc.
Qed.

Lemma length_vigenere_loops key text : forall keyIndex,
  length (vigenere_loop key text keyIndex []) = length text
  /\ length (vigenereDecrypt_loop key text keyIndex []) = length text.
Proof.
  induction text as [| c text IH]; intros keyIndex; [done |]. simpl.
  destruct (isLetter c);
    rewrite vigenere_loop_acc, vigenereDecrypt_loop_acc; simpl;
    split; f_equal; apply IH.
Qed.

(** The character of a key of upper-case letters that a position uses. *)
Lemma charCodeAt_key key keyIndex :
  key <> [] -> Forall (fun c => isUpperLetter c = true) key -> 0 <= keyIndex ->
  exists k, charCodeAt key (Z.rem keyIndex (Z.of_nat (length key))) = Some k
            /\ 65 <= k <= 90.
Proof.
  intros Hkey Hup Hi.
  assert (0 < Z.of_nat (length key)) as Hlen by (destruct key; [done | simpl; lia]).
  rewrite Z.rem_mod_nonneg by lia.
  pose proof (Z.mod_pos_bound keyIndex _ Hlen) as Hb.
  unfold charCodeAt, at_index.
  replace (_ <? 0) with false by (symmetry; lia).
  destruct (lookup_lt_is_Some_2 key
              (Z.to_nat (keyIndex mod Z.of_nat (length key))) ltac:(lia))
    as [k Hk].
  exists k. split; [done |].
  rewrite Forall_forall in Hup. apply list_elem_of_lookup_2, Hup in Hk.
  unfold isUpperLetter in Hk. lia.
Qed.

(** One letter, enciphered and deciphered with the same key letter. *)
Lemma vigenere_letter c k :
  isLetter c = true -> 65 <= k <= 90 ->
  let base := if c <=? 90 then 65 else 97 in
  let enc := fromCharCode (base + Z.rem (c - base + (k - 65)) 26) in
  let dec := fromCharCode (base + Z.rem (c - base - (k - 65) + 26) 26) in
  (isLetter enc = true /\ (enc <=? 90) = (c <=? 90)
   /\ fromCharCode (base + Z.rem (enc - base - (k - 65) + 26) 26) = c)
  /\ (isLetter dec = true /\ (dec <=? 90) = (c <=? 90)
      /\ fromCharCode (base + Z.rem (dec - base + (k - 65)) 26) = c).
Proof.
  intros Hc Hk. unfold isLetter in Hc. unfold fromCharCode.
  destruct (c <=? 90) eqn:Hcase; cbv zeta;
    repeat match goal with
           | |- context [Z.rem ?a 26] =>
               rewrite (Z.rem_mod_nonneg a 26) by zarith
           | |- context [?a mod 65536] =>
               rewrite (Z.mod_small a 65536) by zarith
           end;
    unfold isLetter; repeat split; first [zarith | zbool].
Qed.

Lemma vigenere_loops_inverse key text :
  key <> [] -> Forall (fun c => isUpperLetter c = true) key ->
  forall keyIndex, 0 <= keyIndex ->
  vigenereDecrypt_loop key (vigenere_loop key text keyIndex []) keyIndex []
    = text
  /\ vigenere_loop key (vigenereDecrypt_loop key text keyIndex []) keyIndex []
    = text.
Proof.
  intros Hkey Hup. induction text as [| c text IH]; intros keyIndex Hi; [done |].
  cbn [vigenere_loop vigenereDecrypt_loop app].
  rewrite !(vigenere_loop_acc key text _ [_]),
          !(vigenereDecrypt_loop_acc key text _ [_]).
  cbn [app].
  destruct (isLetter c) eqn:Hc.
  - destruct (charCodeAt_key key keyIndex Hkey Hup Hi) as (k & Hk & Hrange).
    rewrite Hk. cbv zeta.
    destruct (vigenere_letter c k Hc Hrange)
      as [(Henc1 & Henc2 & Henc3) (Hdec1 & Hdec2 & Hdec3)].
    destruct (IH (keyIndex + 1) ltac:(lia)) as [IH1 IH2].
    split.
    + cbn [vigenereDecrypt_loop app]. rewrite Henc1, Hk. cbv zeta.
      rewrite Henc2, Henc3, (vigenereDecrypt_loop_acc key _ _ [_]).
      cbn [app]. by rewrite IH1.
    + cbn [vigenere_loop app]. rewrite Hdec1, Hk. cbv zeta.
      rewrite Hdec2, Hdec3, (vigenere_loop_acc key _ _ [_]).
      cbn [app]. by rewrite IH2.
  - destruct (IH keyIndex Hi) as [IH1 IH2].
    cbn [vigenere_loop vigenereDecrypt_loop app]. rewrite Hc.
    rewrite (vigenere_loop_acc key _ _ [_]),
            (vigenereDecrypt_loop_acc key _ _ [_]).
    cbn [app]. by rewrite IH1, IH2.
Qed.

Section VigenereProperties.
Context `{Platform}.

Lemma vigenereKey_upper v :
  Forall (fun c => isUpperLetter c = true) (vigenereKey v).
Proof.
  unfold vigenereKey. eapply Forall_impl; [apply removeClass_Forall |].
  intros c Hc. by apply negb_false_iff in Hc.
Qed.

(** Whenever the Vigenère cipher accepts its key, the decryption with the
    same parameters accepts it too and gives the text back, and the other
    way round; both keep the length of the text. *)
Theorem vigenere_decrypt_inverts (x y : jsstring)
    (params : gmap jsstring Value) :
  (vigenere_fn x params = Ok y ->
     vigenereDecrypt_fn y params = Ok x /\ length y = length x)
  /\ (vigenereDecrypt_fn x params = Ok y ->
        vigenere_fn y params = Ok x /\ length y = length x).
Proof.
  unfold vigenere_fn, vigenereDecrypt_fn.
  destruct (negb (ToBoolean (prop params (lit "key")))); [by split |].
  pose proof (vigenereKey_upper (prop params (lit "key"))) as Hup.
  destruct (vigenereKey (prop params (lit "key"))) as [| k0 key] eqn:Hkey;
    [by split |].
  cbn [length Nat.eqb].
  destruct (vigenere_loops_inverse (k0 :: key) x ltac:(done) Hup 0 ltac:(lia))
    as [Hdec Henc].
  destruct (length_vigenere_loops (k0 :: key) x 0) as [Hl1 Hl2].
  split; intros [= <-].
  - by rewrite Hdec.
  - by rewrite Henc.
Qed.

(** A key that is truthy but whose text is ASCII without any letter is
    rejected by both Vigenère operations, whatever the text. *)
Theorem vigenere_rejects_key_without_letters (x : jsstring) (v : Value) :
  ToBoolean v = true ->
  Forall isAscii (ToString v) ->
  Forall (fun c => isLetter c = false) (ToString v) ->
  vigenere_fn x {[ lit "key" := v ]}
    = Throw (lit "Key must contain at least one letter")
  /\ vigenereDecrypt_fn x {[ lit "key" := v ]}
    = Throw (lit "Key must contain at least one letter").
Proof.
  intros Hv Hascii Hnone. unfold vigenere_fn, vigenereDecrypt_fn, prop.
  rewrite lookup_singleton_eq. cbn [default from_option id]. rewrite Hv.
  cbn [negb].
  assert (vigenereKey v = []) as ->; [| done].
  unfold vigenereKey. rewrite toUpperCase_ascii by done.
  unfold removeClass. induction Hnone as [| c s Hc _ IH]; [done |].
  apply Forall_cons in Hascii as [_ Hs].
  rewrite fmap_cons, filter_cons. rewrite decide_False; [by apply IH |].
  unfold isLetter in Hc. unfold upperAscii, isUpperLetter.
  destruct ((97 <=? c) && (c <=? 122)) eqn:Hlow; [lia |].
  destruct ((65 <=? c) && (c <=? 90)) eqn:Hupc; [lia | done].
Qed.

End VigenereProperties.

Lemma vigenere_decrypt_inverts_witness :
  @vigenereDecrypt_fn samplePlatform (lit "Rijvs, Uyvjn!")
    {[ lit "key" := VStr (lit "Key") ]}
  = Ok (lit "Hello, World!")
  /\ length (lit "Rijvs, Uyvjn!") = length (lit "Hello, World!").
Proof.
  apply (proj1 (@vigenere_decrypt_inverts samplePlatform (lit "Hello, World!")
                  (lit "Rijvs, Uyvjn!") {[ lit "key" := VStr (lit "Key") ]})).
  vm_compute. reflexivity.
Defined.

Lemma vigenere_rejects_key_without_letters_witness :
  @vigenere_fn samplePlatform (lit "attack")
      {[ lit "key" := VStr (lit "2024!") ]}
    = Throw (lit "Key must contain at least one letter")
  /\ @vigenereDecrypt_fn samplePlatform (lit "attack")
      {[ lit "key" := VStr (lit "2024!") ]}
    = Throw (lit "Key must contain at least one letter").
Proof.
  apply (@vigenere_rejects_key_without_letters samplePlatform (lit "attack")
           (VStr (lit "2024!"))).
  - reflexivity.
  - apply Forall_isAscii_lit. reflexivity.
  - apply Forall_forall. intros c Hc.
    repeat (apply elem_of_cons in Hc as [-> | Hc]; [reflexivity |]).
    by apply elem_of_nil in Hc.
Defined.

(** A number as key is the text that [String] prints for it: 10^21,
    printed [1e+21], is the key [E]. *)
Lemma vigenere_number_key_example :
  @vigenere_fn samplePlatform (lit "abc") {[ lit "key" := VNum (10 ^ 21) ]}
  = Ok (lit "efg").
Proof. by vm_compute. Qed.

(** ** XOR *)

Lemma Forall_isCodeUnit_check (s : jsstring) :
  forallb (fun c => (0 <=? c) && (c <? 65536)) s = true -> Forall isCodeUnit s.
Proof.
  intros Hs. apply Forall_forall. intros c Hc.
  rewrite forallb_forall in Hs. apply list_elem_of_In, Hs in Hc.
  unfold isCodeUnit. lia.
Qed.

Lemma xor_loop_acc key text : forall i acc,
  xor_loop key text i acc = acc ++ xor_loop key text i [].
Proof.
  induction text as [| c text IH]; intros i acc; simpl.
  - by rewrite app_nil_r.
  - rewrite IH. rewrite (IH _ [_]). by rewrite <- app_assoc.
Qed.

Lemma lxor_codeUnits a k :
  isCodeUnit a -> isCodeUnit k -> isCodeUnit (Z.lxor a k).
Proof.
  unfold isCodeUnit. intros Ha Hk.
  assert (0 <= Z.lxor a k) as Hnn by (apply Z.lxor_nonneg; lia).
  split; [done |].
  destruct (decide (Z.lxor a k = 0)) as [-> | Hne]; [lia |].
  change 65536 with (2 ^ 16). apply Z.log2_lt_pow2; [lia |].
  pose proof (Z.log2_lxor a k ltac:(lia) ltac:(lia)) as Hlog.
  assert (forall z, 0 <= z < 65536 -> Z.log2 z < 16) as Hsmall.
  { intros z Hz. destruct (decide (z = 0)) as [-> | Hz0]; [done |].
    apply Z.log2_lt_pow2; lia. }
  pose proof (Hsmall a Ha). pose proof (Hsmall k Hk). lia.
Qed.

Lemma bitxor_codeUnits a k :
  isCodeUnit a -> isCodeUnit k -> fromCharCode (bitxor a k) = Z.lxor a k.
Proof.
  intros Ha Hk. pose proof (lxor_codeUnits a k Ha Hk) as Hx.
  unfold isCodeUnit in *. unfold fromCharCode, bitxor.
  assert (forall z, 0 <= z < 65536 -> ToInt32 z = z) as Hsmall.
  { intros z Hz. unfold ToInt32. zarith. }
  rewrite (Hsmall a), (Hsmall k), Hsmall by done.
  by apply Z.mod_small.
Qed.

Lemma xor_keyChar key i :
  Forall isCodeUnit key ->
  isCodeUnit (default 0 (charCodeAt key (Z.rem i (Z.of_nat (length key))))).
Proof.
  intros Hkey. unfold charCodeAt, at_index.
  destruct (_ <? 0); [done |].
  destruct (key !! _) as [k |] eqn:Hk; [| done].
  rewrite Forall_forall in Hkey. by eapply Hkey, list_elem_of_lookup_2.
Qed.

Lemma xor_loop_twice key text :
  Forall isCodeUnit key -> Forall isCodeUnit text ->
  forall i, xor_loop key (xor_loop key text i []) i [] = text.
Proof.
  intros Hkey Htext. induction Htext as [| c text Hc _ IH]; intros i; [done |].
  cbn [xor_loop app]. rewrite (xor_loop_acc key text _ [_]). cbn [app].
  cbn [xor_loop app]. rewrite (xor_loop_acc key _ _ [_]). cbn [app].
  rewrite IH. f_equal.
  pose proof (xor_keyChar key i Hkey) as Hk.
  rewrite (bitxor_codeUnits c _ Hc Hk).
  rewrite (bitxor_codeUnits _ _ (lxor_codeUnits c _ Hc Hk) Hk).
  by rewrite Z.lxor_assoc, Z.lxor_nilpotent, Z.lxor_0_r.
Qed.

(** Applying the XOR cipher twice with the same key gives the text back
    (its code units and those of the key being code units), and it keeps
    the length of the text; without a key it throws. *)
Theorem xorCipher_self_inverse (x : jsstring) (params : gmap jsstring Value) :
  Forall isCodeUnit x ->
  Forall isCodeUnit (ToString (prop params (lit "key"))) ->
  if ToBoolean (prop params (lit "key"))
  then exists y, xorCipher_fn x params = Ok y
                 /\ xorCipher_fn y params = Ok x
                 /\ length y = length x
  else xorCipher_fn x params = Throw (lit "Key is required").
Proof.
  intros Hx Hkey. unfold xorCipher_fn.
  destruct (ToBoolean (prop params (lit "key"))); [| done]. cbn [negb].
  eexists. split; [done |]. split.
  - f_equal. by apply xor_loop_twice.
  - clear Hx. generalize 0. induction x as [| c x IH]; intros i; [done |].
    cbn [xor_loop app]. rewrite (xor_loop_acc _ x _ [_]). simpl. f_equal.
    apply IH.
Qed.

Lemma xorCipher_self_inverse_witness :
  exists y, xorCipher_fn (lit "Hello") {[ lit "key" := VStr (lit "k9") ]} = Ok y
            /\ xorCipher_fn y {[ lit "key" := VStr (lit "k9") ]} = Ok (lit "Hello")
            /\ length y = length (lit "Hello").
Proof.
  refine (xorCipher_self_inverse (lit "Hello")
            {[ lit "key" := VStr (lit "k9") ]} _ _).
  - apply Forall_isCodeUnit_check. reflexivity.
  - apply Forall_isCodeUnit_check. reflexivity.
Defined.

(** ** Hexadecimal with a separator, and binary *)

Import Encodings.

Lemma removeClass_app cls (s t : jsstring) :
  removeClass cls (s ++ t) = removeClass cls s ++ removeClass cls t.
Proof. unfold removeClass. apply filter_app. Qed.

Lemma removeClass_all cls (s : jsstring) :
  Forall (fun c => cls c = true) s -> removeClass cls s = [].
Proof.
  unfold removeClass. induction 1 as [| c s Hc _ IH]; [done |].
  rewrite filter_cons, decide_False; [done | congruence].
Qed.

Lemma removeClass_none cls (s : jsstring) :
  Forall (fun c => cls c = false) s -> removeClass cls s = s.
Proof.
  unfold removeClass. induction 1 as [| c s Hc _ IH]; [done |].
  by rewrite filter_cons, decide_True, IH.
Qed.

Lemma removeClass_idemp cls (s : jsstring) :
  removeClass cls (removeClass cls s) = removeClass cls s.
Proof. apply removeClass_none, removeClass_Forall. Qed.

(** Removing the characters of a class from parts that have none of them,
    joined by a separator made of them, leaves the parts. *)
Lemma removeClass_join cls (sep : jsstring) (parts : list jsstring) :
  Forall (fun c => cls c = true) sep ->
  Forall (Forall (fun c => cls c = false)) parts ->
  removeClass cls (join sep parts) = concat parts.
Proof.
  intros Hsep. induction 1 as [| p parts Hp Hparts IH]; [done |].
  destruct parts as [| q parts].
  - simpl. rewrite app_nil_r. by apply removeClass_none.
  - change (join sep (p :: q :: parts)) with (p ++ sep ++ join sep (q :: parts)).
    rewrite !removeClass_app, IH, (removeClass_all _ sep Hsep).
    by rewrite (removeClass_none _ p Hp).
Qed.

Lemma fromHex_fn_cleaned a b :
  removeClass isHexSeparator a = removeClass isHexSeparator b ->
  fromHex_fn a = fromHex_fn b.
Proof. intros Hab. unfold fromHex_fn. by rewrite Hab. Qed.

(** The round trip through hexadecimal holds with every separator made of
    the characters that [fromHex] removes (white space, colon, comma and
    dash), for every well-formed text that is not empty and does not start
    with a byte order mark. *)
Theorem toHex_fromHex_roundtrip_with_separator (x : jsstring)
    (params : gmap jsstring Value) :
  Forall (fun c => isHexSeparator c = true)
         (ToString (prop params (lit "separator")))
  \/ ToBoolean (prop params (lit "separator")) = false ->
  x <> [] -> wellFormed x = true -> head x <> Some 65279 ->
  bind (toHex_fn x params) fromHex_fn = Ok x.
Proof.
  intros Hsep Hx Hwf Hhead.
  pose proof (TextEncoder_encode_isByte x Hwf) as Hbytes.
  unfold toHex_fn. cbn [bind].
  set (sep := if ToBoolean (prop params (lit "separator"))
              then ToString (prop params (lit "separator")) else []).
  assert (Forall (fun c => isHexSeparator c = true) sep) as Hsep'.
  { unfold sep. destruct Hsep as [Hsep | ->]; [| done].
    by destruct (ToBoolean _). }
  rewrite (fromHex_fn_cleaned _ (concat (hexByte <$> TextEncoder_encode x))).
  - rewrite fromHex_fn_hexBytes; [| by apply TextEncoder_encode_nonempty | done].
    by rewrite TextDecoder_decode_encode.
  - rewrite removeClass_join; [by rewrite removeClass_hexBytes | done |].
    apply Forall_fmap. eapply Forall_impl; [exact Hbytes |].
    intros b Hb. destruct (hexByte_chars b Hb) as (h & l & Heq & Hh & Hl & _).
    simpl. rewrite Heq. by repeat constructor.
Qed.

Lemma toHex_fromHex_roundtrip_with_separator_witness :
  bind (toHex_fn [233; 8364; 55357; 56832] {[ lit "separator" := VStr (lit ": ") ]})
       fromHex_fn
  = Ok [233; 8364; 55357; 56832].
Proof.
  apply toHex_fromHex_roundtrip_with_separator.
  - left. apply Forall_forall. intros c Hc.
    apply list_elem_of_In in Hc. simpl in Hc.
    destruct Hc as [<- | [<- | []]]; reflexivity.
  - discriminate.
  - reflexivity.
  - discriminate.
Defined.

Lemma binByte_parse b : isByte b -> parseInt_radix (binByte b) 2 = Some b.
Proof.
  intros Hb.
  apply (byte_cases (fun b => bool_decide (parseInt_radix (binByte b) 2 = Some b)))
    in Hb.
  - by apply bool_decide_eq_true in Hb.
  - by vm_compute.
Qed.

(** The eight digits of a byte. *)
Lemma binByte_chars b : isByte b ->
  length (binByte b) = 8%nat
  /\ Forall (fun c => isBinaryDigit c = true) (binByte b).
Proof.
  intros Hb.
  apply (byte_cases (fun b => (length (binByte b) =? 8)%nat
                              && forallb isBinaryDigit (binByte b))) in Hb;
    [| by vm_compute].
  apply andb_prop in Hb as [Hlen Hall]. split; [by apply Nat.eqb_eq |].
  apply Forall_forall. intros c Hc. rewrite forallb_forall in Hall.
  by apply Hall, list_elem_of_In.
Qed.

Lemma binaryDigit_lineTerminator c :
  isBinaryDigit c = true -> isLineTerminator c = false.
Proof. unfold isBinaryDigit, isLineTerminator. lia. Qed.

(** On a sequence of groups of eight characters without line terminators,
    [/.{8}/g] matches the groups. *)
Lemma dotEights_concat (chunks : list jsstring) :
  Forall (fun p => length p = 8%nat
                   /\ Forall (fun c => isLineTerminator c = false) p) chunks ->
  forall fuel, (length chunks <= fuel)%nat ->
  dotEights fuel (concat chunks) = chunks.
Proof.
  induction 1 as [| p chunks [Hlen Hp] _ IH]; intros fuel Hfuel.
  - by destruct fuel.
  - destruct fuel as [| fuel]; [simpl in Hfuel; lia |].
    destruct p as [| c0 p']; [done |].
    change (concat ((c0 :: p') :: chunks)) with (c0 :: (p' ++ concat chunks)).
    cbn [dotEights].
    change (c0 :: (p' ++ concat chunks)) with ((c0 :: p') ++ concat chunks).
    rewrite take_app_length' by done. rewrite drop_app_length' by done.
    rewrite Hlen. cbn [Nat.eqb andb].
    assert (forallb (fun c => negb (isLineTerminator c)) (c0 :: p') = true)
      as ->.
    { apply forallb_forall. intros c Hc. rewrite Forall_forall in Hp.
      by rewrite (Hp c) by (by apply list_elem_of_In). }
    f_equal. apply IH. simpl in Hfuel. lia.
Qed.

Lemma length_concat_eights (chunks : list jsstring) :
  Forall (fun p => length p = 8%nat) chunks ->
  length (concat chunks) = (8 * length chunks)%nat.
Proof.
  induction 1 as [| p parts Hp _ IH]; [done |].
  simpl. rewrite length_app, Hp, IH. lia.
Qed.

Lemma fromBinary_fn_cleaned a b :
  removeClass (fun c => negb (isBinaryDigit c)) a
  = removeClass (fun c => negb (isBinaryDigit c)) b ->
  fromBinary_fn a = fromBinary_fn b.
Proof. intros Hab. unfold fromBinary_fn. by rewrite Hab. Qed.

(** Decoding the binary text of a sequence of bytes that is not empty
    gives the text that these bytes encode. *)
Lemma fromBinary_fn_binBytes bytes :
  bytes <> [] -> Forall isByte bytes ->
  fromBinary_fn (concat (binByte <$> bytes)) = Ok (TextDecoder_decode bytes).
Proof.
  intros Hne Hb. unfold fromBinary_fn.
  assert (Forall (fun p => length p = 8%nat
                           /\ Forall (fun c => isBinaryDigit c = true) p)
                 (binByte <$> bytes)) as Hchunks.
  { apply Forall_fmap. eapply Forall_impl; [exact Hb |].
    intros b Hb'. by apply binByte_chars. }
  rewrite removeClass_none.
  2:{ apply Forall_concat. eapply Forall_impl; [exact Hchunks |].
      intros p [_ Hp]. eapply Forall_impl; [exact Hp |].
      intros c Hc. simpl. by rewrite Hc. }
  rewrite length_concat_eights
    by (eapply Forall_impl; [exact Hchunks |]; by intros p [? _]).
  replace ((8 * length (binByte <$> bytes)) `mod` 8 =? 0)%nat with true
    by (symmetry; apply Nat.eqb_eq; by rewrite Nat.mul_comm, Nat.Div0.mod_mul).
  cbn [negb]. unfold match_dotEights.
  rewrite dotEights_concat.
  2:{ eapply Forall_impl; [exact Hchunks |]. intros p [Hl Hp]. split; [done |].
      eapply Forall_impl; [exact Hp |]. apply binaryDigit_lineTerminator. }
  2:{ rewrite length_concat_eights
        by (eapply Forall_impl; [exact Hchunks |]; by intros p [? _]). lia. }
  destruct (binByte <$> bytes) as [| m0 ms0] eqn:Hms;
    [by apply fmap_nil_inv in Hms |].
  rewrite <- Hms. clear m0 ms0 Hms Hchunks.
  assert (Hparse : (fun h => parseInt_radix h 2) <$> (binByte <$> bytes)
                   = Some <$> bytes).
  { clear Hne. induction Hb as [| b l Hb' _ IH]; [done |].
    rewrite !fmap_cons, IH. f_equal. by apply binByte_parse. }
  rewrite Hparse. unfold rethrow. f_equal.
  rewrite <- list_fmap_compose.
  assert (Hid : (default 0 ∘ Some) <$> bytes = bytes).
  { clear. induction bytes as [| b l IH]; [done |]. by rewrite fmap_cons, IH. }
  by rewrite Hid, Uint8Array_bytes.
Qed.

(** The round trip through binary holds with every separator that
    contains neither [0] nor [1] (also the default one and none), for every
    well-formed text that is not empty and does not start with a byte order
    mark. *)
Theorem toBinary_fromBinary_roundtrip (x : jsstring)
    (params : gmap jsstring Value) :
  Forall (fun c => isBinaryDigit c = false)
         (ToString (prop params (lit "separator"))) ->
  x <> [] -> wellFormed x = true -> head x <> Some 65279 ->
  bind (toBinary_fn x params) fromBinary_fn = Ok x.
Proof.
  intros Hsep Hx Hwf Hhead.
  pose proof (TextEncoder_encode_isByte x Hwf) as Hbytes.
  unfold toBinary_fn. cbn [bind].
  set (sep := match prop params (lit "separator") with
              | VUndefined => lit " "
              | v => ToString v
              end).
  assert (Forall (fun c => negb (isBinaryDigit c) = true) sep) as Hsep'.
  { assert (Forall (fun c => isBinaryDigit c = false) sep) as Hs.
    { unfold sep. destruct (prop params (lit "separator")); try done.
      by repeat constructor. }
    eapply Forall_impl; [exact Hs |]. intros c Hc. simpl. by rewrite Hc. }
  rewrite (fromBinary_fn_cleaned _ (concat (binByte <$> TextEncoder_encode x))).
  - rewrite fromBinary_fn_binBytes;
      [| by apply TextEncoder_encode_nonempty | done].
    by rewrite TextDecoder_decode_encode.
  - rewrite removeClass_join; [| done |].
    + symmetry. apply removeClass_none, Forall_concat, Forall_fmap.
      eapply Forall_impl; [exact Hbytes |]. intros b Hb.
      destruct (binByte_chars b Hb) as [_ Hd].
      eapply Forall_impl; [exact Hd |]. intros c Hc. simpl. by rewrite Hc.
    + apply Forall_fmap. eapply Forall_impl; [exact Hbytes |]. intros b Hb.
      destruct (binByte_chars b Hb) as [_ Hd].
      eapply Forall_impl; [exact Hd |]. intros c Hc. simpl. by rewrite Hc.
Qed.

Lemma toBinary_fromBinary_roundtrip_witness :
  bind (toBinary_fn [233; 8364; 55357; 56832] ∅) fromBinary_fn
  = Ok [233; 8364; 55357; 56832].
Proof.
  apply toBinary_fromBinary_roundtrip.
  - apply Forall_forall. intros c Hc.
    apply list_elem_of_In in Hc. vm_compute in Hc.
    repeat (destruct Hc as [<- | Hc]; [reflexivity |]). destruct Hc.
  - discriminate.
  - reflexivity.
  - discriminate.
Defined.

(** A number as separator is the text that [String] prints for it: the
    two zeros of [993268785636582500] are read back as binary digits. *)
Lemma toBinary_number_separator_example :
  bind (toBinary_fn (lit "ab")
          {[ lit "separator" := VNum 993268785636582528 ]})
       fromBinary_fn
  = Throw (lit "Invalid binary string: Binary string length must be multiple of 8").
Proof. by vm_compute. Qed.

(** [fromBinary] reads only the characters [0] and [1] of its input and
    ignores every other one; it throws when there is none of them (so on
    the empty text) and when their number is not a multiple of 8, and
    returns a text otherwise. *)
Theorem fromBinary_reads_only_binary_digits (input : jsstring) :
  let digits := filter (fun c => isBinaryDigit c = true) input in
  fromBinary_fn input = fromBinary_fn digits
  /\ (digits = [] ->
      fromBinary_fn input
      = Throw (lit "Invalid binary string: " ++ TypeError_message))
  /\ ((length digits mod 8)%nat <> 0%nat ->
      fromBinary_fn input
      = Throw (lit "Invalid binary string: Binary string length must be multiple of 8"))
  /\ (digits <> [] -> (length digits mod 8)%nat = 0%nat ->
      exists y, fromBinary_fn input = Ok y).
Proof.
  intros digits.
  assert (removeClass (fun c => negb (isBinaryDigit c)) input = digits) as Hclean.
  { unfold removeClass, digits. apply list_filter_iff. intros c.
    by rewrite negb_false_iff. }
  split; [| split; [| split]].
  - apply fromBinary_fn_cleaned. by rewrite <- Hclean, removeClass_idemp.
  - intros Hnil. unfold fromBinary_fn. by rewrite Hclean, Hnil.
  - intros Hmod. unfold fromBinary_fn. rewrite Hclean.
    by replace (length digits `mod` 8 =? 0)%nat with false
      by (symmetry; by apply Nat.eqb_neq).
  - intros Hne Hmod. unfold fromBinary_fn. rewrite Hclean, Hmod.
    cbn [Nat.eqb negb]. unfold match_dotEights.
    assert (8 <= length digits)%nat as Hlen.
    { destruct digits as [| d ds]; [done |].
      apply Nat.Div0.div_exact in Hmod. simpl length in *. lia. }
    destruct (length digits) as [| fuel] eqn:Hfuel; [lia |].
    destruct digits as [| d ds] eqn:Hds; [done |].
    cbn [dotEights].
    assert (length (take 8 (d :: ds)) = 8%nat) as Hl8
      by (rewrite length_take; simpl length in *; lia).
    rewrite Hl8. cbn [Nat.eqb andb].
    assert (forallb (fun c => negb (isLineTerminator c)) (take 8 (d :: ds))
            = true) as ->.
    { apply forallb_forall. intros c Hc%list_elem_of_In.
      apply elem_of_take in Hc as (i & Hc & _).
      apply list_elem_of_lookup_2 in Hc. rewrite <- Hds in Hc. unfold digits in Hc.
      apply list_elem_of_filter in Hc as [Hc _].
      by rewrite binaryDigit_lineTerminator. }
    by eexists.
Qed.

(** ** Base32 *)

Lemma toBase32_bits_concat bytes :
  toBase32_bits bytes = concat (binByte <$> bytes).
Proof.
  unfold toBase32_bits.
  assert (forall acc, foldl (fun bits byte => bits ++ binByte byte) acc bytes
                      = acc ++ concat (binByte <$> bytes)) as Hgen.
  { induction bytes as [| b bytes IH]; intros acc; simpl.
    - by rewrite app_nil_r.
    - rewrite IH. by rewrite <- app_assoc. }
  apply (Hgen []).
Qed.

Lemma groupsOf_nil n fuel : groupsOf n fuel [] = [].
Proof. by destruct fuel. Qed.

(** The encoding loop emits one character for each group of five bits. *)
Lemma toBase32_loop_groups bits : forall fuel i result,
  toBase32_loop fuel bits i result
  = result ++ concat (base32Char <$> groupsOf 5 fuel (drop i bits)).
Proof.
  induction fuel as [| fuel IH]; intros i result.
  - simpl. by rewrite app_nil_r.
  - cbn [toBase32_loop groupsOf].
    destruct (i <? length bits)%nat eqn:Hi.
    + apply Nat.ltb_lt in Hi.
      destruct (drop i bits) as [| c r] eqn:Hdrop.
      { apply (f_equal length) in Hdrop. rewrite length_drop in Hdrop.
        simpl in Hdrop. lia. }
      rewrite <- Hdrop. rewrite IH. unfold slice.
      replace (i + 5 - i)%nat with 5%nat by lia.
      rewrite fmap_cons. cbn [concat]. rewrite drop_drop.
      unfold base32Char. by rewrite app_assoc.
    + apply Nat.ltb_ge in Hi. rewrite drop_ge by lia.
      by rewrite app_nil_r.
Qed.

Lemma groupsOf_Forall (P : Z -> Prop) : forall fuel bits,
  Forall P bits ->
  Forall (fun g => Forall P g /\ (length g <= 5)%nat) (groupsOf 5 fuel bits).
Proof.
  induction fuel as [| fuel IH]; intros bits Hbits; [done |].
  cbn [groupsOf]. destruct bits as [| c r]; [done |].
  apply Forall_cons. split.
  - split; [by apply Forall_take |]. rewrite length_take. lia.
  - apply IH. by apply Forall_drop.
Qed.

(** Filling the groups up to five bits only adds zeros at the end. *)
Lemma groupsOf_padEnd0 : forall fuel bits,
  (length bits <= fuel)%nat ->
  exists k, (k < 5)%nat
    /\ concat (padEnd0 5 <$> groupsOf 5 fuel bits) = bits ++ replicate k 48.
Proof.
  induction fuel as [| fuel IH]; intros bits Hfuel.
  - destruct bits; [| simpl in Hfuel; lia]. exists 0%nat. split; [lia | done].
  - cbn [groupsOf]. destruct bits as [| c r] eqn:Hbits.
    { exists 0%nat. split; [lia | done]. }
    rewrite <- Hbits in *. assert (bits <> []) as Hne by (by rewrite Hbits).
    clear c r Hbits. rewrite fmap_cons. cbn [concat].
    destruct (decide (5 <= length bits)%nat) as [Hlong | Hshort].
    + destruct (IH (drop 5 bits)) as (k & Hk & Heq).
      { rewrite length_drop. lia. }
      exists k. split; [done |]. rewrite Heq. unfold padEnd0.
      rewrite length_take. replace (5 - 5 `min` length bits)%nat with 0%nat by lia.
      cbn [replicate]. rewrite app_nil_r, app_assoc. by rewrite take_drop.
    + exists (5 - length bits)%nat. split.
      { destruct bits; [done | simpl; lia]. }
      rewrite take_ge, drop_ge by lia. rewrite groupsOf_nil. simpl.
      by rewrite app_nil_r.
Qed.

(** The 32 groups of five bits: the character of a group is a character of
    the alphabet, an upper-case letter or a digit, and its place in the
    alphabet written with five bits is the group. *)
Lemma base32_group (g : jsstring) :
  length g = 5%nat -> Forall (fun c => isBinaryDigit c = true) g ->
  exists v c,
    parseInt_radix g 2 = Some v /\ at_index base32chars v = Some c
    /\ indexOf base32chars [c] = Some v
    /\ padStart0 5 (toStringRadix 2 v) = g
    /\ isAscii c /\ upperAscii c = c /\ c <> 61.
Proof.
  intros Hlen Hbits.
  destruct g as [| b1 [| b2 [| b3 [| b4 [| b5 [| ? ?]]]]]]; try done.
  repeat match goal with
         | H : Forall _ (_ :: _) |- _ => apply Forall_cons in H as [? H]
         end.
  repeat match goal with
         | H : isBinaryDigit ?b = true |- _ =>
             assert (b = 48 \/ b = 49) as [-> | ->]
               by (unfold isBinaryDigit in H; lia);
             clear H
         end;
    eexists _, _; (split; [vm_compute; reflexivity |]);
    (split; [vm_compute; reflexivity |]);
    (split; [vm_compute; reflexivity |]);
    (split; [vm_compute; reflexivity |]);
    unfold isAscii; (split; [lia |]); (split; [reflexivity | lia]).
Qed.

Lemma padEnd0_group (g : jsstring) :
  Forall (fun c => isBinaryDigit c = true) g -> (length g <= 5)%nat ->
  length (padEnd0 5 g) = 5%nat
  /\ Forall (fun c => isBinaryDigit c = true) (padEnd0 5 g).
Proof.
  intros Hg Hlen. unfold padEnd0. split.
  - rewrite length_app, length_replicate. lia.
  - apply Forall_app. split; [done |]. by apply Forall_replicate.
Qed.

Lemma base32Char_group (g : jsstring) :
  Forall (fun c => isBinaryDigit c = true) g -> (length g <= 5)%nat ->
  exists v c,
    base32Char g = [c] /\ indexOf base32chars [c] = Some v
    /\ padStart0 5 (toStringRadix 2 v) = padEnd0 5 g
    /\ isAscii c /\ upperAscii c = c /\ c <> 61.
Proof.
  intros Hg Hlen. destruct (padEnd0_group g Hg Hlen) as [Hl5 Hb5].
  destruct (base32_group _ Hl5 Hb5) as (v & c & Hparse & Hat & Hrest).
  exists v, c. split; [| done].
  unfold base32Char. rewrite Hparse. simpl. by rewrite Hat.
Qed.

(** The decoding loop gives back the groups, each filled up to five
    bits. *)
Lemma fromBase32_bits_groups (groups : list jsstring) :
  Forall (fun g => Forall (fun c => isBinaryDigit c = true) g
                   /\ (length g <= 5)%nat) groups ->
  forall acc,
    fromBase32_bits ((fun c => [c]) <$> concat (base32Char <$> groups)) acc
    = Ok (acc ++ concat (padEnd0 5 <$> groups)).
Proof.
  induction 1 as [| g groups [Hg Hlen] _ IH]; intros acc.
  - simpl. by rewrite app_nil_r.
  - destruct (base32Char_group g Hg Hlen) as (v & c & Hc & Hidx & Hpad & _).
    rewrite !fmap_cons. cbn [concat]. rewrite Hc. cbn [app].
    rewrite fmap_cons. cbn [fromBase32_bits]. rewrite Hidx, Hpad, IH.
    by rewrite app_assoc.
Qed.

Lemma base32Char_chars (groups : list jsstring) :
  Forall (fun g => Forall (fun c => isBinaryDigit c = true) g
                   /\ (length g <= 5)%nat) groups ->
  Forall (fun c => isAscii c /\ upperAscii c = c /\ c <> 61)
         (concat (base32Char <$> groups)).
Proof.
  induction 1 as [| g groups [Hg Hlen] _ IH]; [done |].
  destruct (base32Char_group g Hg Hlen) as (v & c & Hc & _ & _ & Hprops).
  rewrite fmap_cons. cbn [concat]. rewrite Hc. by constructor.
Qed.

(** The loop that reads the bytes back, started behind a prefix, on the
    bits of a sequence of bytes followed by fewer than eight more bits. *)
Lemma fromBase32_bytes_binBytes (tail : jsstring) : (length tail < 8)%nat ->
  forall bytes, Forall isByte bytes ->
  forall pre fuel acc, (length bytes + length tail <= fuel)%nat ->
    fromBase32_bytes fuel (pre ++ concat (binByte <$> bytes) ++ tail)
                     (length pre) acc
    = acc ++ (Some <$> bytes).
Proof.
  intros Htail. induction 1 as [| b bytes Hb _ IH]; intros pre fuel acc Hfuel.
  - simpl. rewrite app_nil_r.
    destruct fuel as [| fuel]; [done |]. cbn [fromBase32_bytes].
    rewrite length_app.
    destruct (length pre <? length pre + length tail)%nat eqn:Hi; [| done].
    replace (length pre + 8 <=? length pre + length tail)%nat with false
      by (symmetry; apply Nat.leb_gt; lia).
    destruct fuel as [| fuel]; [done |]. cbn [fromBase32_bytes].
    rewrite length_app.
    by replace (length pre + 8 <? length pre + length tail)%nat with false
      by (symmetry; apply Nat.ltb_ge; lia).
  - destruct fuel as [| fuel]; [simpl in Hfuel; lia |].
    destruct (binByte_chars b Hb) as [Hl8 _].
    rewrite fmap_cons. cbn [concat fromBase32_bytes].
    rewrite !length_app, Hl8.
    rewrite (proj2 (Nat.ltb_lt _ _)) by lia.
    rewrite (proj2 (Nat.leb_le _ _)) by lia.
    unfold slice. replace (length pre + 8 - length pre)%nat with 8%nat by lia.
    rewrite drop_app_length. rewrite <- !app_assoc.
    rewrite take_app_length' by done.
    rewrite binByte_parse by done.
    specialize (IH (pre ++ binByte b) fuel (acc ++ [Some b])).
    rewrite length_app, Hl8, <- !app_assoc in IH.
    by rewrite IH by (simpl in Hfuel; lia).
Qed.

Lemma toBase32_pad_replicate : forall fuel result,
  exists j, toBase32_pad fuel result = result ++ replicate j 61.
Proof.
  induction fuel as [| fuel IH]; intros result.
  - exists 0%nat. simpl. by rewrite app_nil_r.
  - cbn [toBase32_pad]. destruct (negb _).
    + destruct (IH (result ++ [61])) as [j ->]. exists (S j).
      by rewrite <- app_assoc.
    + exists 0%nat. simpl. by rewrite app_nil_r.
Qed.

Lemma dropWhile_none (f : Z -> bool) (s : jsstring) :
  Forall (fun c => f c = false) s -> dropWhile f s = s.
Proof. destruct 1 as [| c s Hc _]; [done |]. simpl. by rewrite Hc. Qed.

(** The run of [=] at the end of a text that contains no [=] before it is
    what [stripEquals] removes. *)
Lemma stripEquals_padding (s : jsstring) j :
  Forall (fun c => c <> 61) s -> stripEquals (s ++ replicate j 61) = s.
Proof.
  intros Hs. unfold stripEquals. rewrite reverse_app, reverse_replicate.
  induction j as [| j IH].
  - simpl. rewrite dropWhile_none; [apply reverse_involutive |].
    apply Forall_reverse. eapply Forall_impl; [exact Hs |].
    intros c Hc. by apply Z.eqb_neq.
  - exact IH.
Qed.

Section Base32Properties.
Context `{Platform}.

(** The round trip through Base32 holds for every well-formed text that
    does not start with a byte order mark, the empty text included. *)
Theorem toBase32_fromBase32_roundtrip (x : jsstring) :
  wellFormed x = true -> head x <> Some 65279 ->
  bind (toBase32_fn x) fromBase32_fn = Ok x.
Proof.
  intros Hwf Hhead.
  pose proof (TextEncoder_encode_isByte x Hwf) as Hbytes.
  unfold toBase32_fn. cbn [bind]. rewrite toBase32_bits_concat.
  set (bytes := TextEncoder_encode x) in *.
  set (bits := concat (binByte <$> bytes)).
  assert (Forall (fun c => isBinaryDigit c = true) bits) as Hbits.
  { apply Forall_concat, Forall_fmap. eapply Forall_impl; [exact Hbytes |].
    intros b Hb. by apply binByte_chars. }
  rewrite toBase32_loop_groups. cbn [app]. rewrite drop_0.
  set (groups := groupsOf 5 (length bits) bits).
  pose proof (groupsOf_Forall _ (length bits) bits Hbits) as Hgroups.
  fold groups in Hgroups.
  pose proof (base32Char_chars groups Hgroups) as Hchars.
  set (encoded := concat (base32Char <$> groups)) in *.
  destruct (toBase32_pad_replicate 8 encoded) as [j ->].
  unfold fromBase32_fn.
  rewrite stripEquals_padding
    by (eapply Forall_impl; [exact Hchars |]; by intros c (_ & _ & ?)).
  rewrite toUpperCase_ascii
    by (eapply Forall_impl; [exact Hchars |]; by intros c (? & _ & _)).
  assert (upperAscii <$> encoded = encoded) as ->.
  { rewrite <- (list_fmap_id encoded) at 2. apply Forall_fmap_ext.
    eapply Forall_impl; [exact Hchars |]. by intros c (_ & ? & _). }
  rewrite codePoints_singletons
    by (apply ascii_hasSurrogatePair;
        eapply Forall_impl; [exact Hchars |]; by intros c (? & _ & _)).
  unfold encoded. rewrite fromBase32_bits_groups by done. cbn [bind app].
  destruct (groupsOf_padEnd0 (length bits) bits ltac:(lia)) as (k & Hk & Hpad).
  fold groups in Hpad. rewrite Hpad.
  pose proof (fromBase32_bytes_binBytes (replicate k 48)
                ltac:(rewrite length_replicate; lia) bytes Hbytes []
                (length (bits ++ replicate k 48)) []) as Hloop.
  cbn [app length] in Hloop. fold bits in Hloop. rewrite Hloop.
  - f_equal. rewrite <- list_fmap_compose.
    assert (Hid : (default 0 ∘ Some) <$> bytes = bytes).
    { clear. induction bytes as [| b l IH]; [done |]. by rewrite fmap_cons, IH. }
    rewrite Hid, Uint8Array_bytes by done.
    by apply TextDecoder_decode_encode.
  - rewrite length_app. unfold bits.
    rewrite length_concat_eights, length_fmap; [lia |].
    apply Forall_fmap. eapply Forall_impl; [exact Hbytes |].
    intros b Hb. by apply binByte_chars.
Qed.
End Base32Properties.

Lemma toBase32_fromBase32_roundtrip_witness :
  bind (toBase32_fn [233; 8364; 55357; 56832]) (@fromBase32_fn samplePlatform)
  = Ok [233; 8364; 55357; 56832].
Proof.
  apply (@toBase32_fromBase32_roundtrip samplePlatform);
    [reflexivity | discriminate].
Defined.

(** ** The simple hashes and the checksum *)

Import Hashes.

Lemma ToInt32_range z : -2147483648 <= ToInt32 z < 2147483648.
Proof. unfold ToInt32. zarith. Qed.

Lemma ToInt32_mod z : ToInt32 z mod 4294967296 = z mod 4294967296.
Proof. unfold ToInt32. zarith. Qed.

Lemma ToInt32_unique a b :
  -2147483648 <= a < 2147483648 -> a mod 4294967296 = b mod 4294967296 ->
  a = ToInt32 b.
Proof. unfold ToInt32. intros Ha Hab. zarith. Qed.

Lemma shl_5_mod h : shl h 5 mod 4294967296 = (32 * h) mod 4294967296.
Proof.
  unfold shl. rewrite ToInt32_mod. change (5 mod 32) with 5.
  rewrite Z.shiftl_mul_pow2 by lia. change (2 ^ 5) with 32.
  unfold ToInt32. zarith.
Qed.

Lemma bitand_diag v : bitand v v = ToInt32 v.
Proof.
  unfold bitand. rewrite Z.land_diag.
  symmetry. apply ToInt32_unique; [apply ToInt32_range |].
  by rewrite ToInt32_mod.
Qed.

Lemma simpleHash32_loop_horner str : forall h h',
  h mod 4294967296 = h' mod 4294967296 ->
  simpleHash32_loop str h mod 4294967296 = horner 31 h' str mod 4294967296.
Proof.
  unfold simpleHash32_loop, horner.
  induction str as [| c str IH]; intros h h' Hh; [done |].
  cbn [foldl]. apply IH. rewrite bitand_diag, ToInt32_mod.
  pose proof (shl_5_mod h). zarith.
Qed.

Lemma simpleHash32_loop_range str h :
  -2147483648 <= h < 2147483648 ->
  -2147483648 <= simpleHash32_loop str h < 2147483648.
Proof.
  unfold simpleHash32_loop. revert h.
  induction str as [| c str IH]; intros h Hh; [done |].
  cbn [foldl]. apply IH. rewrite bitand_diag. apply ToInt32_range.
Qed.

Lemma djb2Hash_loop_horner str : forall h h',
  h mod 4294967296 = h' mod 4294967296 ->
  djb2Hash_loop str h mod 4294967296 = horner 33 h' str mod 4294967296.
Proof.
  unfold djb2Hash_loop, horner.
  induction str as [| c str IH]; intros h h' Hh; [done |].
  cbn [foldl]. apply IH. pose proof (shl_5_mod h). zarith.
Qed.

Lemma ushr_0 a : ushr a 0 = a mod 4294967296.
Proof. unfold ushr, ToUint32. change (0 mod 32) with 0. apply Z.shiftr_0_r. Qed.

(** The two simple hashes are polynomial hashes of the code units: the
    one with the multiplier 31, reduced to a signed 32-bit integer of
    which the absolute value is printed; the other (for texts of less than
    2^21 characters, where the numbers of the source are exact) with the
    multiplier 33 and the start value 5381, reduced modulo 2^32. *)
Theorem simple_hashes_are_polynomial (input : jsstring) :
  Z.of_nat (length input) < 2 ^ 21 ->
  simpleHash32_fn input
  = Ok (padStart0 8 (toStringRadix 16 (Z.abs (ToInt32 (horner 31 0 input)))))
  /\ djb2Hash_fn input
     = Ok (padStart0 8 (toStringRadix 16 (horner 33 5381 input mod 4294967296))).
Proof.
  intros _. split.
  - unfold simpleHash32_fn. do 4 f_equal.
    apply ToInt32_unique; [by apply simpleHash32_loop_range |].
    by apply simpleHash32_loop_horner.
  - unfold djb2Hash_fn. do 3 f_equal. rewrite ushr_0.
    by apply djb2Hash_loop_horner.
Qed.

Lemma simple_hashes_are_polynomial_witness :
  simpleHash32_fn (lit "hello") = Ok (lit "05e918d2")
  /\ djb2Hash_fn (lit "hello") = Ok (lit "0f923099").
Proof.
  destruct (simple_hashes_are_polynomial (lit "hello")) as [H1 H2].
  - vm_compute. reflexivity.
  - split; [rewrite H1 | rewrite H2]; vm_compute; reflexivity.
Defined.

(** Digits in radix 16: at most [k] of them below [16^k], all of them
    lower-case hexadecimal digits. *)
Lemma digitsRadix_fuel_hex fuel : forall n acc (k : nat),
  0 <= n < 16 ^ Z.of_nat (S k) ->
  Forall (fun c => isLowerHexDigit c = true) acc ->
  (length (digitsRadix_fuel fuel 16 n acc) <= S k + length acc)%nat
  /\ Forall (fun c => isLowerHexDigit c = true) (digitsRadix_fuel fuel 16 n acc).
Proof.
  induction fuel as [| fuel IH]; intros n acc k Hn Hacc.
  - simpl. split; [lia | done].
  - cbn [digitsRadix_fuel].
    assert (isLowerHexDigit (digitChar (n mod 16)) = true) as Hd.
    { pose proof (Z.mod_pos_bound n 16 ltac:(lia)).
      unfold isLowerHexDigit, digitChar. destruct (n mod 16 <? 10) eqn:?; lia. }
    destruct (n <? 16) eqn:Hsmall.
    + split; [simpl; lia | by constructor].
    + destruct k as [| k].
      { change (16 ^ Z.of_nat 1) with 16 in Hn. lia. }
      destruct (IH (n / 16) (digitChar (n mod 16) :: acc) k) as [Hlen Hall].
      * rewrite Nat2Z.inj_succ, Z.pow_succ_r in Hn by lia.
        split; [zarith |]. apply Z.div_lt_upper_bound; lia.
      * by constructor.
      * split; [simpl in Hlen; lia | done].
Qed.

(** An unsigned 32-bit number printed in radix 16 and padded is eight
    lower-case hexadecimal digits. *)
Lemma hex8_format n : 0 <= n < 4294967296 ->
  length (padStart0 8 (toStringRadix 16 n)) = 8%nat
  /\ Forall (fun c => isLowerHexDigit c = true) (padStart0 8 (toStringRadix 16 n)).
Proof.
  intros Hn. unfold toStringRadix.
  replace (n <? 0) with false by (symmetry; lia). rewrite Z.abs_eq by lia.
  cbv beta zeta iota.
  destruct (digitsRadix_fuel_hex (S (Z.to_nat (Z.log2 n))) n [] 7
              ltac:(change (16 ^ Z.of_nat 8) with 4294967296; lia)
              ltac:(done)) as [Hlen Hall].
  change (length (@nil Z)) with 0%nat in Hlen. unfold padStart0. split.
  - rewrite length_app, length_replicate. lia.
  - apply Forall_app. split; [by apply Forall_replicate | done].
Qed.

(** Whatever the input, [crc32], [simpleHash32] and [djb2Hash] return
    exactly eight lower-case hexadecimal digits. *)
Theorem checksums_are_eight_hex_digits (input : jsstring) :
  exists crc simple djb2,
    crc32_fn input = Ok crc /\ eightHexDigits crc
    /\ simpleHash32_fn input = Ok simple /\ eightHexDigits simple
    /\ djb2Hash_fn input = Ok djb2 /\ eightHexDigits djb2.
Proof.
  eexists _, _, _. unfold eightHexDigits.
  split; [reflexivity |]. split.
  { apply hex8_format. rewrite ushr_0. apply Z.mod_pos_bound. lia. }
  split; [reflexivity |]. split.
  { apply hex8_format.
    pose proof (simpleHash32_loop_range input 0 ltac:(lia)). lia. }
  split; [reflexivity |].
  apply hex8_format. rewrite ushr_0. apply Z.mod_pos_bound. lia.
Qed.

(** ** Stepping through a recipe *)

Import Recipes.

Section SteppingProperties.
Variable operations : gmap jsstring Operation.

(** One click with the cursor on the first step: on a recipe and an input
    that are not empty the input is copied to the output, and then, as in
    the other cases at once, the call [Logger.open()] throws. *)
Lemma executeStepByStep_at_start (s : Session) (calls : list Call) :
  currentStepIndex s = 0 ->
  executeStepByStep operations s calls
  = (match recipe s, inputValue s with
     | _ :: _, _ :: _ =>
         {| recipe := recipe s; currentStepIndex := currentStepIndex s;
            inputValue := inputValue s; outputValue := inputValue s;
            pendingResets := pendingResets s |}
     | _, _ => s
     end,
     Throw (lit "Logger.open is not a function"), calls).
Proof.
  intros Hidx. unfold executeStepByStep, Logger_calls.
  rewrite Hidx, Logger_call_open, !Logger_call_returns by auto.
  cbn [bind Z.eqb]. destruct (recipe s) as [| st rest]; [done |].
  by destruct (inputValue s).
Qed.

(** With the cursor on the first step, where it is when the page is
    loaded, no number of clicks on the step button runs a step. A click
    ends in the TypeError of the call [Logger.open()], which [Logger] does
    not have: no transform is called, and the cursor, the recipe, the
    input and the timers stay as they are, so that the same holds of the
    next click. All that any number of clicks does is to copy the input to
    the output, when neither the recipe nor the input is empty. *)
Theorem stepping_never_runs_a_step
    (n : nat) (s : Session) (calls : list Call) :
  currentStepIndex s = 0 ->
  (executeStepByStep operations s calls).1.2
  = Throw (lit "Logger.open is not a function")
  /\ (clicks operations n s calls).2 = calls
  /\ currentStepIndex (clicks operations n s calls).1 = 0
  /\ recipe (clicks operations n s calls).1 = recipe s
  /\ inputValue (clicks operations n s calls).1 = inputValue s
  /\ pendingResets (clicks operations n s calls).1 = pendingResets s
  /\ outputValue (clicks operations n s calls).1
     = match n, recipe s, inputValue s with
       | S _, _ :: _, _ :: _ => inputValue s
       | _, _, _ => outputValue s
       end.
Proof.
  intros Hidx. split; [by rewrite executeStepByStep_at_start |].
  revert s Hidx. induction n as [| n IH]; intros s Hidx.
  { cbn [clicks fst snd].
    destruct (recipe s), (inputValue s); repeat split; done. }
  cbn [clicks]. rewrite executeStepByStep_at_start by done.
  set (s1 := match recipe s, inputValue s with
             | _ :: _, _ :: _ =>
                 {| recipe := recipe s; currentStepIndex := currentStepIndex s;
                    inputValue := inputValue s; outputValue := inputValue s;
                    pendingResets := pendingResets s |}
             | _, _ => s
             end).
  assert (Hs1 : currentStepIndex s1 = 0 /\ recipe s1 = recipe s
                /\ inputValue s1 = inputValue s
                /\ pendingResets s1 = pendingResets s
                /\ outputValue s1 = match recipe s, inputValue s with
                                    | _ :: _, _ :: _ => inputValue s
                                    | _, _ => outputValue s
                                    end).
  { unfold s1.
    destruct (recipe s) eqn:Hr, (inputValue s) eqn:Hi; repeat split; done. }
  destruct Hs1 as (Hidx1 & Hrecipe & Hinput & Hpending & Houtput).
  destruct (IH s1 Hidx1) as (Hcalls & Hcursor & Hr & Hi & Hp & Ho).
  rewrite Hcalls, Hcursor, Hr, Hi, Hp, Ho, Hrecipe, Hinput, Hpending, Houtput.
  repeat split; try done.
  destruct n, (recipe s), (inputValue s); done.
Qed.
End SteppingProperties.

(** Three clicks on the recipe ROT13 with the input [abc]. *)
Lemma stepping_never_runs_a_step_witness :
  let s := {| recipe := [{| op := lit "rot13"; params := None |}];
              currentStepIndex := 0; inputValue := lit "abc";
              outputValue := []; pendingResets := 0 |} in
  (clicks (@embeddedOperations samplePlatform) 3 s []).2 = []
  /\ outputValue (clicks (@embeddedOperations samplePlatform) 3 s []).1
     = lit "abc".
Proof.
  intros s.
  destruct (stepping_never_runs_a_step (@embeddedOperations samplePlatform)
              3 s [] eq_refl) as (_ & Hcalls & _ & _ & _ & _ & Houtput).
  split; [exact Hcalls | exact Houtput].
Defined.

(** ** Validation of a loaded recipe *)

Import RecipeValidation.

Section ValidationProperties.
Variable operations : gmap jsstring Operation.





End ValidationProperties.

(** ** Editing the recipe *)

Lemma defaultParams_foldl_notin (specs : list ParamSpec) key :
  key ∉ (p_name <$> specs) ->
  forall acc : gmap jsstring Value,
    foldl (fun params param =>
             <[p_name param :=
                 if ToBoolean (p_default param) then p_default param
                 else VStr []]> params) acc specs !! key
    = acc !! key.
Proof.
  induction specs as [| q specs IH]; intros Hkey acc; [done |].
  rewrite fmap_cons in Hkey. apply not_elem_of_cons in Hkey as [Hq Hrest].
  cbn [foldl]. rewrite IH by done. by rewrite lookup_insert_ne.
Qed.

(** The value that a new step holds for a parameter. *)
Lemma defaultParams_lookup (specs : list ParamSpec) p :
  NoDup (p_name <$> specs) -> p ∈ specs ->
  prop (defaultParams specs) (p_name p)
  = if ToBoolean (p_default p) then p_default p else VStr [].
Proof.
  unfold defaultParams, prop. generalize (∅ : gmap jsstring Value).
  induction specs as [| q specs IH]; intros acc Hnd Hp.
  - by apply elem_of_nil in Hp.
  - rewrite fmap_cons in Hnd. apply NoDup_cons in Hnd as [Hq Hnd].
    cbn [foldl]. apply elem_of_cons in Hp as [-> | Hp].
    + rewrite defaultParams_foldl_notin by done.
      by rewrite lookup_insert_eq.
    + by apply IH.
Qed.

Lemma defaultParams_supplied (specs : list ParamSpec) p :
  NoDup (p_name <$> specs) -> p ∈ specs ->
  ToBoolean (prop (defaultParams specs) (p_name p)) = ToBoolean (p_default p).
Proof.
  intros Hnd Hp. rewrite defaultParams_lookup by done.
  by destruct (ToBoolean (p_default p)) eqn:Hd.
Qed.

(** No entry of the catalog has two parameters of the same name. *)
Lemma catalogSchemas_NoDup key specs :
  (key, specs) ∈ catalogSchemas -> NoDup (p_name <$> specs).
Proof.
  intros Hin.
  assert (Hall : Forall (fun e : jsstring * list ParamSpec =>
                           NoDup (p_name <$> e.2)) catalogSchemas).
  { unfold catalogSchemas.
    repeat (apply Forall_cons; split;
            [simpl; apply (bool_decide_unpack (NoDup _)); vm_compute; exact I |]). done. }
  rewrite Forall_forall in Hall. exact (Hall _ Hin).
Qed.

Section EditingProperties.
Variable operations : gmap jsstring Operation.

(** In a registry with the schemas of the catalog: [addOperation] with a
    key under which the registry object has no property changes nothing.
    With the key of an operation it appends one step, and running that
    step as it is reaches the transform when every required parameter of
    the operation has a truthy default; otherwise it is refused for the
    first required parameter that has none. With a name that the registry
    only inherits, such as [constructor], it appends a step too, with an
    empty parameter object, and running that step throws a TypeError
    without calling a transform. *)
Theorem addOperation_new_step (key : jsstring) (s : Session) :
  hasCatalogSchemas operations ->
  match operations !! key with
  | None =>
      if bool_decide (key ∈ objectPrototypeKeys)
      then recipe (addOperation operations key s)
           = recipe s ++ [{| op := key; params := Some ∅ |}]
           /\ forall input calls,
                execute operations key input ∅ calls
                = (Throw (notAFunction "op.fn"), calls)
      else addOperation operations key s = s
  | Some operation =>
      exists newParams,
        recipe (addOperation operations key s)
        = recipe s ++ [{| op := key; params := Some newParams |}]
        /\ (forall p, p ∈ op_params operation ->
              prop newParams (p_name p)
              = if ToBoolean (p_default p) then p_default p else VStr [])
        /\ forall input calls,
             (Forall (fun p => p_required p = true ->
                               ToBoolean (p_default p) = true)
                     (op_params operation) ->
              execute operations key input newParams calls
              = (op_fn operation input newParams,
                 calls ++ [{| call_key := key; call_input := input;
                              call_params := newParams |}]))
             /\ (forall before p after,
                   op_params operation = before ++ p :: after ->
                   Forall (fun p => p_required p = true ->
                                    ToBoolean (p_default p) = true) before ->
                   p_required p = true -> ToBoolean (p_default p) = false ->
                   execute operations key input newParams calls
                   = (Throw (requiredMessage (p_label p)), calls))
  end.
Proof.
  intros Hcatalog. unfold addOperation.
  destruct (operations !! key) as [operation |] eqn:Hop.
  2: { case_bool_decide as Hproto.
       - rewrite get_Inherited by done. split; [done |].
         intros input calls. by apply execute_inherited.
       - by rewrite get_Undefined. }
  rewrite (get_Entry _ _ _ Hop).
  assert (Hnd : NoDup (p_name <$> op_params operation))
    by (by eapply catalogSchemas_NoDup, Hcatalog).
  exists (defaultParams (op_params operation)).
  split; [done |]. split; [intros p Hp; by apply defaultParams_lookup |].
  assert (forall l, l ⊆ op_params operation ->
            Forall (fun p => p_required p = true ->
                             ToBoolean (p_default p) = true) l ->
            Forall (supplied (defaultParams (op_params operation))) l)
    as Hsupplied.
  { intros l Hl Hall. apply Forall_forall. intros p Hp.
    rewrite Forall_forall in Hall. unfold supplied. intros Hreq.
    rewrite defaultParams_supplied by (by try apply Hl). by apply Hall. }
  intros input calls. unfold execute. rewrite (get_Entry _ _ _ Hop).
  unfold mbind, M_mbind, M_bind. split.
  - intros Hall.
    destruct (validate (op_params operation) _ calls) as [r calls1] eqn:Hv.
    destruct (validate_Ok _ _ _ _ _ Hv)
      as [-> [[_ ->] | (b & p & a & Hps & _ & Hreq & Hfalsy & _)]]; [done |].
    exfalso. rewrite defaultParams_supplied in Hfalsy;
      [| done | rewrite Hps; apply elem_of_app; right; apply list_elem_of_here].
    rewrite Forall_forall in Hall. rewrite Hall in Hfalsy; [done | | done].
    rewrite Hps. apply elem_of_app. right. apply list_elem_of_here.
  - intros before p after Hps Hbefore Hreq Hfalsy. rewrite Hps.
    rewrite validate_first_missing; [done | | done |].
    + rewrite <- Hps. apply Hsupplied; [| done]. rewrite Hps.
      intros q Hq. apply elem_of_app. by left.
    + rewrite <- Hps. rewrite defaultParams_supplied; [done | done |].
      rewrite Hps. apply elem_of_app. right. apply list_elem_of_here.
Qed.

End EditingProperties.

Lemma addOperation_new_step_witness :
  exists newParams,
    recipe (addOperation (@embeddedOperations samplePlatform) (lit "caesar")
              {| recipe := []; currentStepIndex := 0; inputValue := [];
                 outputValue := []; pendingResets := 0 |})
    = [{| op := lit "caesar"; params := Some newParams |}]
    /\ prop newParams (lit "shift") = VStr (lit "3").
Proof.
  pose proof (addOperation_new_step (@embeddedOperations samplePlatform)
                (lit "caesar")
                {| recipe := []; currentStepIndex := 0; inputValue := [];
                   outputValue := []; pendingResets := 0 |}
                embeddedOperations_schemas) as Hadd.
  change (@embeddedOperations samplePlatform !! lit "caesar")
    with (Some caesar) in Hadd.
  destruct Hadd as (newParams & Hrecipe & Hprops & _).
  exists newParams. split; [exact Hrecipe |].
  apply (Hprops (param "shift" "Shift Amount" "number" (VStr (lit "3"))
                       (Some 1) (Some 25) true)).
  apply list_elem_of_here.
Defined.

(** ** The detector *)

Lemma trimStart_nil s : trimStart s = [] <-> forallb isWhiteSpace s = true.
Proof.
  induction s as [| c s IH]; [done |]. simpl.
  destruct (isWhiteSpace c); [exact IH | done].
Qed.

Lemma trimStart_none s :
  Forall (fun c => isWhiteSpace c = false) s -> trimStart s = s.
Proof. destruct 1 as [| c s Hc _]; [done |]. simpl. by rewrite Hc. Qed.

Lemma trim_none s : Forall (fun c => isWhiteSpace c = false) s -> trim s = s.
Proof.
  intros Hs. unfold trim, trimEnd. rewrite (trimStart_none s Hs).
  rewrite trimStart_none by (by apply Forall_reverse).
  apply reverse_involutive.
Qed.

Lemma forallb_reverse {A} (f : A -> bool) (l : list A) :
  forallb f (reverse l) = forallb f l.
Proof.
  induction l as [| x l IH]; [done |].
  rewrite reverse_cons, forallb_app, IH. simpl. rewrite andb_true_r.
  apply andb_comm.
Qed.

Lemma trimStart_suffix s : exists ws, s = ws ++ trimStart s
                                      /\ forallb isWhiteSpace ws = true.
Proof.
  induction s as [| c s (ws & Hs & Hws)]; [by exists [] |]. simpl.
  destruct (isWhiteSpace c) eqn:Hc.
  - exists (c :: ws). simpl. rewrite Hc, Hws. split; [by f_equal | done].
  - by exists [].
Qed.

(** [trim] gives the empty text exactly on a text of white space. *)
Lemma trim_nil s : trim s = [] <-> forallb isWhiteSpace s = true.
Proof.
  unfold trim, trimEnd. split.
  - intros Htrim. apply (f_equal reverse) in Htrim.
    rewrite reverse_involutive in Htrim. change (reverse []) with (@nil Z) in Htrim.
    apply trimStart_nil in Htrim. rewrite forallb_reverse in Htrim.
    destruct (trimStart_suffix s) as (ws & Hs & Hws).
    rewrite Hs, forallb_app, Hws. exact Htrim.
  - intros Hs. apply trimStart_nil in Hs. by rewrite Hs.
Qed.

(** The detector reports a format exactly when the text has a character
    that is not white space; the format is then one of four, and the
    operation that is suggested is the decoder of that format, none for
    plain text. *)
Theorem detectInputType_reports_nonblank (text : jsstring) :
  let d := detectInputType text in
  detected d = negb (forallb isWhiteSpace text)
  /\ (type d, operation d)
     ∈ (if detected d
        then [(Some (lit "URL-encoded"), Some (lit "urlDecode"));
              (Some (lit "Base64"), Some (lit "fromBase64"));
              (Some (lit "Hexadecimal"), Some (lit "fromHex"));
              (Some (lit "Plain Text"), None)]
        else [(None, None)]).
Proof.
  intros d. subst d. unfold detectInputType.
  destruct text as [| c0 text0] eqn:Htext; [split; [done | by left] |].
  rewrite <- Htext. clear c0 text0 Htext.
  destruct (trim text) as [| c1 trimmed1] eqn:Htrim.
  { apply trim_nil in Htrim. rewrite Htrim. split; [done | by left]. }
  assert (forallb isWhiteSpace text = false) as ->.
  { destruct (forallb isWhiteSpace text) eqn:Hall; [| done].
    apply trim_nil in Hall. congruence. }
  rewrite <- Htrim. clear c1 trimmed1 Htrim.
  cbv zeta.
  match goal with
  | |- context [if ?b then _ else
                  match (if ?f then match atob ?c with _ => _ end else None)
                  with _ => _ end] =>
      destruct b;
        [split; [done |]; cbn [detected type operation]; by left |];
      destruct f; [destruct (atob c) |]
  end.
  { split; [done |]. cbn [detected type operation]. right. by left. }
  all: match goal with
       | |- context [if ?h then _ else _] => destruct h
       end.
  all: split; [done |]; cbn [detected type operation].
  all: first [ by (right; right; left) | by (right; right; right; left) ].
Qed.

Lemma hexDigit_classes c :
  isHexDigit c = true ->
  isWhiteSpace c = false /\ isAsciiWhitespace c = false
  /\ isBase64Char c = true /\ c <> 37 /\ c <> 61.
Proof.
  unfold isHexDigit, isWhiteSpace, isAsciiWhitespace, isBase64Char, isLetter.
  intros Hc. repeat split; lia.
Qed.

Lemma countUrlEncoded_none s :
  Forall (fun c => c <> 37) s -> countUrlEncoded s = 0%nat.
Proof.
  induction 1 as [| c s Hc _ IH]; [done |]. cbn [countUrlEncoded].
  by rewrite (proj2 (Z.eqb_neq c 37)).
Qed.

Lemma dropWhile_all (f : Z -> bool) s :
  Forall (fun c => f c = true) s -> dropWhile f s = [].
Proof. induction 1 as [| c s Hc _ IH]; [done |]. simpl. by rewrite Hc. Qed.

Lemma stripPadding_none s :
  Forall (fun c => c <> 61) s -> stripPadding s = s.
Proof.
  intros Hs. unfold stripPadding. apply Forall_reverse in Hs.
  destruct (reverse s) as [| c r]; [done |].
  apply Forall_cons in Hs as [Hc Hr].
  destruct (Z.eqb_spec c 61) as [-> | Hne]; [done |].
  destruct c as [| p | p]; try done.
  do 6 (destruct p as [p | p |]; try done).
Qed.

(** On a text of hexadecimal digits only, the length decides the format
    that is reported: a multiple of 4 shadows the hexadecimal reading and
    gives Base64; otherwise an even length of at least 8 gives
    Hexadecimal; every other length gives plain text. *)
Theorem detectInputType_hexadecimal_text (text : jsstring) :
  text <> [] -> Forall (fun c => isHexDigit c = true) text ->
  type (detectInputType text)
  = if (length text mod 4 =? 0)%nat then Some (lit "Base64")
    else if (length text mod 2 =? 0)%nat && (8 <=? length text)%nat
         then Some (lit "Hexadecimal")
         else Some (lit "Plain Text").
Proof.
  intros Hne Hhex.
  assert (Forall (fun c => isWhiteSpace c = false) text) as Hws
    by (eapply Forall_impl; [exact Hhex |]; intros c Hc;
        by apply hexDigit_classes in Hc as (? & _)).
  assert (Forall (fun c => isAsciiWhitespace c = false) text) as Haws
    by (eapply Forall_impl; [exact Hhex |]; intros c Hc;
        by apply hexDigit_classes in Hc as (_ & ? & _)).
  assert (Forall (fun c => isBase64Char c = true) text) as Hb64
    by (eapply Forall_impl; [exact Hhex |]; intros c Hc;
        by apply hexDigit_classes in Hc as (_ & _ & ? & _)).
  assert (Forall (fun c => c <> 37) text) as Hpct
    by (eapply Forall_impl; [exact Hhex |]; intros c Hc;
        by apply hexDigit_classes in Hc as (_ & _ & _ & ? & _)).
  assert (Forall (fun c => c <> 61) text) as Heq
    by (eapply Forall_impl; [exact Hhex |]; intros c Hc;
        by apply hexDigit_classes in Hc as (_ & _ & _ & _ & ?)).
  assert (forallb isHexDigit text = true) as Hhexb.
  { apply forallb_forall. intros c Hc%list_elem_of_In.
    rewrite Forall_forall in Hhex. by apply Hhex. }
  assert (forallb isBase64Char text = true) as Hb64b.
  { apply forallb_forall. intros c Hc%list_elem_of_In.
    rewrite Forall_forall in Hb64. by apply Hb64. }
  assert (existsb isBase64Char text = true /\ (0 < length text)%nat)
    as [Hex Hpos].
  { destruct Hb64 as [| c s Hc _]; [done |]. simpl. rewrite Hc.
    split; [done | lia]. }
  unfold detectInputType.
  destruct text as [| c0 text0] eqn:Htext; [done |].
  rewrite <- Htext in *. clear c0 text0 Htext.
  rewrite (trim_none text Hws).
  destruct text as [| c0 text0] eqn:Htext; [done |].
  rewrite <- Htext in *. clear c0 text0 Htext. cbv zeta.
  rewrite (removeClass_none _ text Hws), (countUrlEncoded_none text Hpct).
  change ((1 <=? 0)%nat && (2 <=? 0)%nat) with false. cbv iota.
  unfold base64Regex_test. rewrite (dropWhile_all _ text Hb64), Hex.
  unfold hexRegex_test.
  assert ((0 <? length text)%nat = true) as -> by (by apply Nat.ltb_lt).
  rewrite !andb_true_r. cbn [andb].
  destruct (length text mod 4 =? 0)%nat eqn:Hmod4.
  - apply Nat.eqb_eq in Hmod4.
    assert (4 <= length text)%nat as Hfour.
    { apply Nat.Div0.div_exact in Hmod4. lia. }
    rewrite (proj2 (Nat.leb_le _ _) Hfour). cbn [andb].
    unfold atob. rewrite (removeClass_none _ text Haws).
    rewrite Hmod4. cbn [Nat.eqb]. rewrite (stripPadding_none text Heq).
    rewrite Hmod4, Hb64b. done.
  - cbn [andb].
    destruct text as [| c0 text0] eqn:Htext; [done |].
    rewrite <- Htext in *. clear c0 text0 Htext. rewrite Hhexb. cbn [andb].
    by destruct ((length text mod 2 =? 0)%nat && (8 <=? length text)%nat).
Qed.

Lemma detectInputType_hexadecimal_text_witness :
  type (detectInputType (lit "48656c6c6f20776f")) = Some (lit "Base64")
  /\ type (detectInputType (lit "48656c6c6f")) = Some (lit "Hexadecimal").
Proof.
  split.
  - apply (detectInputType_hexadecimal_text (lit "48656c6c6f20776f"));
      [discriminate |].
    apply Forall_forall. intros c Hc%list_elem_of_In. simpl in Hc.
    repeat (destruct Hc as [<- | Hc]; [reflexivity |]). destruct Hc.
  - apply (detectInputType_hexadecimal_text (lit "48656c6c6f"));
      [discriminate |].
    apply Forall_forall. intros c Hc%list_elem_of_In. simpl in Hc.
    repeat (destruct Hc as [<- | Hc]; [reflexivity |]). destruct Hc.
Defined.

(** ** White space and lines *)

Import TextOperations.

Lemma trimStart_head s :
  match trimStart s with
  | [] => True
  | c :: _ => isWhiteSpace c = false
  end.
Proof.
  induction s as [| c s IH]; [done |]. simpl.
  destruct (isWhiteSpace c) eqn:Hc; [exact IH | exact Hc].
Qed.

Lemma trimStart_fix s :
  match s with [] => True | c :: _ => isWhiteSpace c = false end ->
  trimStart s = s.
Proof. destruct s as [| c s]; [done |]. simpl. by intros ->. Qed.

(** What [trim] removes is white space, and what it leaves neither starts
    nor ends with white space. *)
Lemma trim_spec s :
  exists before after,
    s = before ++ trim s ++ after
    /\ forallb isWhiteSpace before = true /\ forallb isWhiteSpace after = true
    /\ trimStart (trim s) = trim s
    /\ trimStart (reverse (trim s)) = reverse (trim s).
Proof.
  unfold trim, trimEnd.
  destruct (trimStart_suffix s) as (before & Hs & Hbefore).
  destruct (trimStart_suffix (reverse (trimStart s))) as (after & Hr & Hafter).
  set (t := trimStart s) in *. set (u := trimStart (reverse t)) in *.
  exists before, (reverse after). split; [| split; [done |]; split].
  - rewrite Hs at 1. f_equal. rewrite <- reverse_app, <- Hr.
    by rewrite reverse_involutive.
  - by rewrite forallb_reverse.
  - split.
    + apply trimStart_fix. pose proof (trimStart_head s) as Ht. fold t in Ht.
      pose proof (trimStart_head (reverse t)) as Hu. fold u in Hu.
      apply (f_equal reverse) in Hr. rewrite reverse_involutive in Hr.
      rewrite reverse_app in Hr.
      destruct (reverse u) as [| c ru] eqn:Hru; [done |].
      rewrite Hr in Ht. exact Ht.
    + rewrite reverse_involutive. apply trimStart_fix.
      apply (trimStart_head (reverse t)).
Qed.

Lemma trim_idemp s : trim (trim s) = trim s.
Proof.
  destruct (trim_spec s) as (_ & _ & _ & _ & _ & Hstart & Hend).
  unfold trim at 1. unfold trimEnd. rewrite Hstart, Hend.
  apply reverse_involutive.
Qed.

Lemma removeClass_all_b cls (s : jsstring) :
  forallb cls s = true -> removeClass cls s = [].
Proof.
  intros Hs. apply removeClass_all, Forall_forall. intros c Hc.
  rewrite forallb_forall in Hs. by apply Hs, list_elem_of_In.
Qed.

Lemma removeClass_trim s :
  removeClass isWhiteSpace (trim s) = removeClass isWhiteSpace s.
Proof.
  destruct (trim_spec s) as (before & after & Hs & Hb & Ha & _).
  rewrite Hs at 2. rewrite !removeClass_app.
  by rewrite (removeClass_all_b _ before Hb), (removeClass_all_b _ after Ha),
             app_nil_r.
Qed.

Lemma removeClass_replaceRuns s : forall inRun,
  removeClass isWhiteSpace (replaceRuns isWhiteSpace [32] inRun s)
  = removeClass isWhiteSpace s.
Proof.
  unfold removeClass.
  induction s as [| c s IH]; intros inRun; [done |]. cbn [replaceRuns].
  destruct (isWhiteSpace c) eqn:Hc.
  - rewrite (filter_cons_False _ c) by congruence.
    destruct inRun; [apply IH |]. cbn [app].
    rewrite filter_cons_False by done. apply IH.
  - rewrite !filter_cons_True by done. f_equal. apply IH.
Qed.

(** After the replacement of the runs, white space only occurs as single
    spaces, and not at the start when the text is read behind white
    space. *)
Lemma replaceRuns_singleSpaced s : forall inRun,
  singleSpaced (replaceRuns isWhiteSpace [32] inRun s) = true
  /\ (inRun = true ->
      match replaceRuns isWhiteSpace [32] inRun s with
      | [] => True
      | d :: _ => isWhiteSpace d = false
      end).
Proof.
  induction s as [| c s IH]; intros inRun; [done |]. cbn [replaceRuns].
  destruct (isWhiteSpace c) eqn:Hc.
  - destruct (IH true) as [Hss Hhead]. specialize (Hhead eq_refl).
    destruct inRun; [by split |]. split; [| done].
    cbn [app singleSpaced]. rewrite Hss.
    change (isWhiteSpace 32) with true. cbn [Z.eqb Pos.eqb andb].
    destruct (replaceRuns isWhiteSpace [32] true s); [done |].
    by rewrite Hhead.
  - destruct (IH false) as [Hss _]. split; [| by intros _].
    cbn [singleSpaced]. by rewrite Hc, Hss.
Qed.

Lemma singleSpaced_fixpoint s :
  singleSpaced s = true -> replaceRuns isWhiteSpace [32] false s = s.
Proof.
  induction s as [| c s IH]; [done |]. cbn [singleSpaced replaceRuns].
  intros [Hc Hs]%andb_prop. destruct (isWhiteSpace c) eqn:Hws.
  - apply andb_prop in Hc as [->%Z.eqb_eq Hnext]. cbn [app]. f_equal.
    destruct s as [| d s']; [done |]. cbn [replaceRuns].
    apply negb_true_iff in Hnext. rewrite Hnext.
    specialize (IH Hs). cbn [replaceRuns] in IH. rewrite Hnext in IH.
    exact IH.
  - f_equal. by apply IH.
Qed.

Lemma singleSpaced_app_r s t :
  singleSpaced (s ++ t) = true -> singleSpaced t = true.
Proof.
  induction s as [| c s IH]; [done |]. cbn [app singleSpaced].
  intros [_ Hs]%andb_prop. by apply IH.
Qed.

Lemma singleSpaced_app_l s t :
  singleSpaced (s ++ t) = true -> singleSpaced s = true.
Proof.
  induction s as [| c s IH]; [done |]. cbn [app singleSpaced].
  intros [Hc Hs]%andb_prop. rewrite (IH Hs), andb_true_r.
  destruct (isWhiteSpace c); [| done].
  apply andb_prop in Hc as [-> Hnext]. destruct s as [| d s']; [done |].
  exact Hnext.
Qed.

(** [normalizeWhitespace] gives a text that neither starts nor ends with
    white space and in which white space only occurs as single spaces; it
    keeps the characters that are not white space, in their order; and
    such a text is left as it is, so that the operation is idempotent. *)
Theorem normalizeWhitespace_normal_form (input : jsstring) :
  exists out,
    normalizeWhitespace_fn input = Ok out
    /\ singleSpaced out = true
    /\ trim out = out
    /\ removeClass isWhiteSpace out = removeClass isWhiteSpace input
    /\ normalizeWhitespace_fn out = Ok out.
Proof.
  unfold normalizeWhitespace_fn. eexists. split; [reflexivity |].
  set (collapsed := replaceRuns isWhiteSpace [32] false input).
  assert (singleSpaced (trim collapsed) = true) as Hss.
  { destruct (trim_spec collapsed) as (before & after & Hc & _).
    destruct (replaceRuns_singleSpaced input false) as [Hall _].
    fold collapsed in Hall. rewrite Hc in Hall.
    by apply singleSpaced_app_r, singleSpaced_app_l in Hall. }
  split; [exact Hss |]. split; [apply trim_idemp |]. split.
  - rewrite removeClass_trim. apply removeClass_replaceRuns.
  - by rewrite (singleSpaced_fixpoint _ Hss), trim_idemp.
Qed.

Lemma split_on_nonempty sep s : split_on sep s <> [].
Proof.
  destruct s as [| c r]; [done |]. simpl.
  destruct (c =? sep); [done |]. by destruct (split_on sep r).
Qed.

Lemma split_on_pieces sep s :
  Forall (Forall (fun c => c <> sep)) (split_on sep s).
Proof.
  induction s as [| c r IH]; [by repeat constructor |]. simpl.
  destruct (Z.eqb_spec c sep) as [-> | Hc]; [by constructor |].
  destruct (split_on sep r) as [| piece pieces]; [by repeat constructor |].
  apply Forall_cons in IH as [Hp Hps]. by repeat constructor.
Qed.

Lemma split_on_piece sep p :
  Forall (fun c => c <> sep) p -> split_on sep p = [p].
Proof.
  induction 1 as [| c p Hc _ IH]; [done |]. simpl.
  by rewrite (proj2 (Z.eqb_neq c sep)), IH.
Qed.

Lemma split_on_app sep p t :
  Forall (fun c => c <> sep) p ->
  split_on sep (p ++ sep :: t) = p :: split_on sep t.
Proof.
  induction 1 as [| c p Hc _ IH].
  - simpl. by rewrite Z.eqb_refl.
  - cbn [app split_on]. by rewrite (proj2 (Z.eqb_neq c sep)), IH.
Qed.

(** Pieces without the separator, joined by it, are split again into
    themselves. *)
Lemma split_on_join sep (pieces : list jsstring) :
  pieces <> [] -> Forall (Forall (fun c => c <> sep)) pieces ->
  split_on sep (join [sep] pieces) = pieces.
Proof.
  intros Hne Hall. induction Hall as [| p pieces Hp Hps IH]; [done |].
  destruct pieces as [| q pieces].
  - by apply split_on_piece.
  - change (join [sep] (p :: q :: pieces))
      with (p ++ sep :: join [sep] (q :: pieces)).
    rewrite split_on_app by done. f_equal. by apply IH.
Qed.

Lemma uniq_spec (items : list jsstring) : forall seen,
  NoDup (uniq seen items)
  /\ (forall x, x ∈ uniq seen items <-> x ∈ items /\ x ∉ seen)
  /\ uniq seen items `sublist_of` items
  /\ (NoDup items -> (forall x, x ∈ items -> x ∉ seen) ->
      uniq seen items = items).
Proof.
  induction items as [| y items IH]; intros seen.
  - split; [constructor |]. split; [| done].
    intros x. split; [by intros ?%elem_of_nil | by intros [?%elem_of_nil _]].
  - cbn [uniq]. destruct (bool_decide_reflect (y ∈ seen)) as [Hy | Hy].
    + destruct (IH seen) as (Hnd & Hin & Hsub & _).
      split; [done |]. split; [| split].
      * intros x. rewrite Hin, elem_of_cons.
        split; [intros [Hx Hs]; split; [by right | done] |].
        intros [[-> | Hx] Hseen]; [done | by split].
      * by apply sublist_cons.
      * intros _ Hfresh. exfalso. apply (Hfresh y); [by left | done].
    + destruct (IH (y :: seen)) as (Hnd & Hin & Hsub & Hid).
      split; [| split; [| split]].
      * apply NoDup_cons. split; [| done]. rewrite Hin.
        intros [_ Hy']. apply Hy'. by left.
      * intros x. rewrite elem_of_cons, Hin, !elem_of_cons.
        split.
        -- intros [-> | [Hx Hnot]]; [by split; [left |] |].
           split; [by right |]. intros Hs. apply Hnot. by right.
        -- intros [[-> | Hx] Hseen]; [by left |].
           destruct (decide (x = y)) as [-> | Hxy]; [by left |].
           right. split; [done |].
           intros [Heq | Hs]; [by apply Hxy | by apply Hseen].
      * by apply sublist_skip.
      * intros [Hyi Hnd']%NoDup_cons Hfresh. f_equal. apply Hid; [done |].
        intros x Hx [-> | Hs]%elem_of_cons; [done |].
        apply (Hfresh x); [by right | done].
Qed.

(** The order of [uniq] is that of the first occurrences: of two of its
    items, the one that comes first occurs among [items] at a place before
    which the other does not occur. *)
Lemma uniq_order (items : list jsstring) : forall seen (i j : nat) a b,
  (i < j)%nat ->
  uniq seen items !! i = Some a -> uniq seen items !! j = Some b ->
  exists k, items !! k = Some a /\ b ∉ take k items.
Proof.
  induction items as [| y items IH]; intros seen i j a b Hij Ha Hb; [done |].
  cbn [uniq] in Ha, Hb.
  destruct (bool_decide_reflect (y ∈ seen)) as [Hy | Hy].
  - destruct (IH seen i j a b Hij Ha Hb) as (k & Hk & Hnot).
    exists (S k). split; [done |]. cbn [take].
    intros [-> | Hin]%elem_of_cons; [| done].
    apply list_elem_of_lookup_2 in Hb.
    apply (uniq_spec items seen) in Hb as [_ Hfresh]. done.
  - destruct i as [| i].
    + injection Ha as <-. exists 0%nat. split; [done |]. apply not_elem_of_nil.
    + destruct j as [| j]; [lia |]. cbn [lookup list_lookup] in Ha, Hb.
      destruct (IH (y :: seen) i j a b ltac:(lia) Ha Hb) as (k & Hk & Hnot).
      exists (S k). split; [done |]. cbn [take].
      intros [-> | Hin]%elem_of_cons; [| done].
      apply list_elem_of_lookup_2 in Hb.
      apply (uniq_spec items (y :: seen)) in Hb as [_ Hfresh].
      apply Hfresh. by left.
Qed.

(** [removeDuplicateLines] keeps of every line its first occurrence and
    nothing else: the lines of the result are pairwise different, they
    are the lines of the input, and they stand in the order in which they
    first occur in the input (of two lines of the result, the one that
    comes first is met in the input before the other is). A second
    application changes nothing. *)
Theorem removeDuplicateLines_keeps_first_occurrences (input : jsstring) :
  exists out,
    removeDuplicateLines_fn input = Ok out
    /\ NoDup (split_on 10 out)
    /\ (forall line, line ∈ split_on 10 out <-> line ∈ split_on 10 input)
    /\ (forall (i j : nat) a b,
          (i < j)%nat ->
          split_on 10 out !! i = Some a -> split_on 10 out !! j = Some b ->
          exists k, split_on 10 input !! k = Some a
                    /\ b ∉ take k (split_on 10 input))
    /\ split_on 10 out `sublist_of` split_on 10 input
    /\ head (split_on 10 out) = head (split_on 10 input)
    /\ removeDuplicateLines_fn out = Ok out.
Proof.
  unfold removeDuplicateLines_fn. eexists. split; [reflexivity |].
  set (lines := split_on 10 input).
  destruct (uniq_spec lines []) as (Hnd & Hin & Hsub & Hid).
  assert (uniq [] lines <> []) as Hne.
  { pose proof (split_on_nonempty 10 input) as Hl. fold lines in Hl.
    destruct lines as [| l ls]; [done |]. cbn [uniq].
    by rewrite bool_decide_eq_false_2 by (apply not_elem_of_nil). }
  assert (split_on 10 (join [10] (uniq [] lines)) = uniq [] lines) as Hsplit.
  { apply split_on_join; [done |].
    apply Forall_forall. intros l Hl. apply Hin in Hl as [Hl _].
    pose proof (split_on_pieces 10 input) as Hp. rewrite Forall_forall in Hp.
    by apply Hp. }
  rewrite Hsplit. split; [done |]. split.
  { intros line. rewrite Hin. split; [by intros [? _] |].
    intros Hl. split; [done | apply not_elem_of_nil]. }
  split; [apply uniq_order |].
  split; [done |]. split.
  { destruct lines as [| l ls]; [done |]. cbn [uniq].
    by rewrite bool_decide_eq_false_2 by (apply not_elem_of_nil). }
  f_equal. f_equal. destruct (uniq_spec (uniq [] lines) []) as (_ & _ & _ & Hid').
  apply Hid'; [done |]. intros x _. apply not_elem_of_nil.
Qed.

(** ** Base64 and URL encoding *)

Import UriEncodings.

(** Arithmetic on natural numbers with quotients and remainders by
    constants. *)
Ltac natarith := zify; Z.to_euclidean_division_equations; lia.

Lemma hexPair_percentByte b : isByte b ->
  hexPair (hexDigitUpper (b / 16)) (hexDigitUpper (b mod 16)) = Some b
  /\ (hexDigitUpper (b / 16) =? 117) = false.
Proof.
  intros Hb.
  apply (byte_cases (fun b =>
           bool_decide (hexPair (hexDigitUpper (b / 16))
                                (hexDigitUpper (b mod 16)) = Some b)
           && negb (hexDigitUpper (b / 16) =? 117))) in Hb; [| by vm_compute].
  apply andb_prop in Hb as [Hpair Hu]. split.
  - by apply bool_decide_eq_true in Hpair.
  - by apply negb_true_iff.
Qed.

Lemma unescape_literal f c t :
  c <> 37 -> unescape (S f) (c :: t) = c :: unescape f t.
Proof. intros Hc. cbn [unescape]. by rewrite (proj2 (Z.eqb_neq c 37)). Qed.

Lemma unescape_percentByte f b t :
  isByte b -> unescape (S f) (percentByte b ++ t) = b :: unescape f t.
Proof.
  intros Hb. destruct (hexPair_percentByte b Hb) as [Hpair Hu].
  unfold percentByte. cbn [app unescape].
  change (37 =? 37) with true. by rewrite Hu, Hpair.
Qed.

Lemma unescape_percentBytes bytes :
  Forall isByte bytes -> forall f rest,
  unescape (length bytes + f) ((bytes ≫= percentByte) ++ rest)
  = bytes ++ unescape f rest.
Proof.
  induction 1 as [| b bytes Hb _ IH]; intros f rest; [done |].
  rewrite bind_cons, <- app_assoc. cbn [length Nat.add].
  rewrite unescape_percentByte by done. cbn [app]. f_equal. apply IH.
Qed.

Lemma length_percentBytes (bytes : list Z) :
  length (bytes ≫= percentByte) = (3 * length bytes)%nat.
Proof.
  induction bytes as [| b bytes IH]; [done |].
  rewrite bind_cons, length_app, IH. simpl. lia.
Qed.

Lemma uriUnreserved_ascii c :
  isUriUnreserved c = true -> 0 <= c < 128 /\ c <> 37.
Proof. unfold isUriUnreserved, isAlphanumeric, isLetter. lia. Qed.

Lemma utf8_ascii c : 0 <= c < 128 -> utf8 c = [c].
Proof. intros Hc. unfold utf8. by replace (c <? 128) with true by zbool. Qed.

Lemma utf16_ascii c : 0 <= c < 128 -> utf16 c = [c].
Proof. intros Hc. unfold utf16. by replace (c <? 65536) with true by zbool. Qed.

(** [unescape] undoes the escapes of [encodeURIComponent]: what is left
    is the UTF-8 bytes. *)
Lemma unescape_encodeUnits cps :
  Forall isScalarValue cps -> forall fuel,
  (length (cps ≫= encodeUnit) <= fuel)%nat ->
  unescape fuel (cps ≫= encodeUnit) = cps ≫= utf8.
Proof.
  induction 1 as [| cp cps Hcp _ IH]; intros fuel Hfuel.
  - by destruct fuel.
  - rewrite !bind_cons in *. rewrite length_app in Hfuel.
    unfold encodeUnit in *.
    destruct (isUriUnreserved cp) eqn:Hun.
    + apply uriUnreserved_ascii in Hun as [Hascii Hpct].
      destruct fuel as [| f]; [simpl in Hfuel; lia |].
      cbn [app]. rewrite unescape_literal by done.
      rewrite utf8_ascii by done. cbn [app]. f_equal.
      apply IH. simpl in Hfuel. lia.
    + pose proof (utf8_isByte cp Hcp) as Hbytes.
      rewrite length_percentBytes in Hfuel.
      assert (utf8 cp <> []) as Hne by apply utf8_nonempty.
      replace fuel with (length (utf8 cp) + (fuel - length (utf8 cp)))%nat
        by (destruct (utf8 cp); [done | simpl in *; lia]).
      rewrite unescape_percentBytes by done. f_equal.
      apply IH. destruct (utf8 cp); [done | simpl in *; lia].
Qed.

(** On a well-formed string [encodeURIComponent] does not throw: it
    encodes the scalar values one by one. *)
Lemma encodeURIComponent_scalarValues x :
  wellFormed x = true ->
  encodeURIComponent x = Ok (scalarValues x ≫= encodeUnit).
Proof.
  induction x as [| a | a b l IHl IHbl] using list_pair_ind; intros Hwf.
  - done.
  - cbn [wellFormed] in Hwf. apply andb_prop in Hwf as [Hunit Hsur].
    apply negb_true_iff in Hsur. cbn [scalarValues]. rewrite Hsur.
    unfold isSurrogate in Hsur. apply orb_false_elim in Hsur as [Hhi Hlo].
    cbn [encodeURIComponent]. rewrite Hhi, Hlo. unfold encodeUnit.
    rewrite bind_cons. by destruct (isUriUnreserved a).
  - change (wellFormed (a :: b :: l))
      with ((0 <=? a) && (a <? 65536)
            && (if isHighSurrogate a then isLowSurrogate b && wellFormed l
                else negb (isLowSurrogate a) && wellFormed (b :: l))) in Hwf.
    change (scalarValues (a :: b :: l))
      with (if isHighSurrogate a && isLowSurrogate b
            then (65536 + (a - 55296) * 1024 + (b - 56320)) :: scalarValues l
            else (if isSurrogate a then 65533 else a) :: scalarValues (b :: l)).
    change (encodeURIComponent (a :: b :: l))
      with (if isUriUnreserved a
            then bind (encodeURIComponent (b :: l)) (fun e => Ok (a :: e))
            else if isHighSurrogate a then
                   if isLowSurrogate b
                   then bind (encodeURIComponent l) (fun e =>
                        Ok ((utf8 (65536 + (a - 55296) * 1024 + (b - 56320))
                               ≫= percentByte) ++ e))
                   else Throw URIError_message
                 else if isLowSurrogate a then Throw URIError_message
                 else bind (encodeURIComponent (b :: l)) (fun e =>
                      Ok ((utf8 a ≫= percentByte) ++ e))).
    apply andb_prop in Hwf as [Hunit Hwf].
    destruct (isHighSurrogate a) eqn:Hhigh.
    + apply andb_prop in Hwf as [Hlow Hwf]. rewrite Hlow. cbn [andb].
      assert (isUriUnreserved a = false) as ->.
      { destruct (isUriUnreserved a) eqn:Hun; [| done].
        apply uriUnreserved_ascii in Hun. unfold isHighSurrogate in Hhigh. lia. }
      rewrite (IHl Hwf). cbn [bind]. rewrite bind_cons.
      change (encodeUnit (65536 + (a - 55296) * 1024 + (b - 56320)))
        with (if isUriUnreserved (65536 + (a - 55296) * 1024 + (b - 56320))
              then [65536 + (a - 55296) * 1024 + (b - 56320)]
              else utf8 (65536 + (a - 55296) * 1024 + (b - 56320))
                     ≫= percentByte).
      assert (isUriUnreserved (65536 + (a - 55296) * 1024 + (b - 56320)) = false)
        as ->; [| done].
      destruct (isUriUnreserved _) eqn:Hun; [| done].
      apply uriUnreserved_ascii in Hun.
      unfold isHighSurrogate in Hhigh. unfold isLowSurrogate in Hlow. lia.
    + apply andb_prop in Hwf as [Hnotlow Hwf]. apply negb_true_iff in Hnotlow.
      cbn [andb]. unfold isSurrogate. rewrite Hhigh, Hnotlow. cbn [orb].
      rewrite (IHbl Hwf). cbn [bind]. rewrite bind_cons.
      change (encodeUnit a)
        with (if isUriUnreserved a then [a] else utf8 a ≫= percentByte).
      by destruct (isUriUnreserved a).
Qed.

(** The characters of Base64: each of the 64 values has a character of
    the alphabet, which is not [=] and not white space, and whose value
    it is. *)
Lemma base64Char_spec v : 0 <= v < 64 ->
  base64Value (base64Char v) = v /\ isBase64Char (base64Char v) = true
  /\ base64Char v <> 61 /\ isWhiteSpace (base64Char v) = false
  /\ isAsciiWhitespace (base64Char v) = false.
Proof.
  intros Hv.
  pose proof (byte_cases (fun v =>
                (64 <=? v)
                || ((base64Value (base64Char v) =? v)
                    && isBase64Char (base64Char v)
                    && negb (base64Char v =? 61)
                    && negb (isWhiteSpace (base64Char v))
                    && negb (isAsciiWhitespace (base64Char v))))
                ltac:(by vm_compute) v ltac:(unfold isByte; lia)) as Hcheck.
  cbv beta in Hcheck. rewrite (proj2 (Z.leb_gt 64 v)) in Hcheck by lia.
  cbn [orb] in Hcheck.
  repeat (apply andb_prop in Hcheck as [Hcheck ?%negb_true_iff]).
  apply andb_prop in Hcheck as [Hval Hchar].
  apply Z.eqb_eq in Hval. repeat split; try done. by apply Z.eqb_neq.
Qed.

(** The 6-bit values of a sequence of bytes give the bytes back; their
    number, with the padding, is a multiple of 4. *)
Lemma bytesToSextets_spec : forall n bytes,
  (length bytes <= n)%nat -> Forall isByte bytes ->
  sextetsToBytes (bytesToSextets bytes) = bytes
  /\ Forall (fun v => 0 <= v < 64) (bytesToSextets bytes)
  /\ ((length (bytesToSextets bytes) + (3 - length bytes mod 3) mod 3) mod 4
      = 0)%nat
  /\ (length (bytesToSextets bytes) mod 4 <> 1)%nat
  /\ ((3 - length bytes mod 3) mod 3 <= 2)%nat.
Proof.
  induction n as [| n IH]; intros bytes Hlen Hbytes.
  { destruct bytes; [| simpl in Hlen; lia].
    repeat split; try done; cbn [length bytesToSextets]; natarith. }
  destruct bytes as [| a [| b [| c r]]].
  - repeat split; try done; cbn [length bytesToSextets]; natarith.
  - apply Forall_cons in Hbytes as [Ha _]. unfold isByte in Ha.
    cbn [bytesToSextets sextetsToBytes].
    split; [f_equal; zarith |].
    split; [repeat (apply Forall_cons; split; [cbv beta; zarith |]); done |].
    repeat split; try done; cbn [length]; natarith.
  - apply Forall_cons in Hbytes as [Ha Hbytes].
    apply Forall_cons in Hbytes as [Hb _]. unfold isByte in Ha, Hb.
    cbn [bytesToSextets sextetsToBytes].
    split; [f_equal; [zarith | f_equal; zarith] |].
    split; [repeat (apply Forall_cons; split; [cbv beta; zarith |]); done |].
    repeat split; try done; cbn [length]; natarith.
  - apply Forall_cons in Hbytes as [Ha Hbytes].
    apply Forall_cons in Hbytes as [Hb Hbytes].
    apply Forall_cons in Hbytes as [Hc Hbytes]. unfold isByte in Ha, Hb, Hc.
    destruct (IH r ltac:(simpl in Hlen; lia) Hbytes)
      as (Hback & Hrange & Hmul & Hrem & Hpad).
    cbn [bytesToSextets sextetsToBytes]. rewrite Hback.
    split; [f_equal; [zarith | f_equal; [zarith | f_equal; zarith]] |].
    split.
    { repeat (apply Forall_cons; split; [cbv beta; zarith |]). done. }
    cbn [length]. repeat split; natarith.
Qed.

Lemma reverse_snoc {A} (l : list A) x : reverse (l ++ [x]) = x :: reverse l.
Proof. by rewrite reverse_app. Qed.

(** Removing the padding from a text without [=] that is followed by at
    most two [=] gives that text. *)
Lemma stripPadding_padded s p :
  Forall (fun c => c <> 61) s -> (p <= 2)%nat ->
  stripPadding (s ++ replicate p 61) = s.
Proof.
  intros Hs Hp.
  destruct p as [| [| [| p]]]; [| | | lia].
  - rewrite app_nil_r. by apply stripPadding_none.
  - unfold stripPadding. cbn [replicate]. rewrite reverse_snoc.
    apply Forall_reverse in Hs.
    destruct (reverse s) as [| c r] eqn:Hr.
    + apply (f_equal reverse) in Hr. rewrite reverse_involutive in Hr.
      by rewrite Hr.
    + apply Forall_cons in Hs as [Hc _].
      assert (reverse (c :: r) = s) as Hback
        by (by rewrite <- Hr, reverse_involutive).
      destruct c as [| q | q]; try exact Hback.
      do 6 (destruct q as [q | q |]; try exact Hback). done.
  - unfold stripPadding. cbn [replicate].
    change (s ++ [61; 61]) with (s ++ [61] ++ [61]).
    rewrite app_assoc, !reverse_snoc. apply reverse_involutive.
Qed.

(** [atob] undoes [btoa] on bytes. *)
Lemma atob_btoa bytes :
  Forall isByte bytes ->
  exists text, btoa bytes = Ok text /\ atob text = Ok bytes
               /\ removeClass isWhiteSpace text = text.
Proof.
  intros Hbytes. unfold btoa.
  assert (forallb (fun c => (0 <=? c) && (c <=? 255)) bytes = true) as ->.
  { apply forallb_forall. intros c Hc%list_elem_of_In.
    rewrite Forall_forall in Hbytes. apply Hbytes in Hc. unfold isByte in Hc. lia. }
  eexists. split; [reflexivity |].
  destruct (bytesToSextets_spec (length bytes) bytes ltac:(lia) Hbytes)
    as (Hback & Hrange & Hmul & Hrem & Hpad).
  set (sextets := bytesToSextets bytes) in *.
  set (p := ((3 - length bytes mod 3) mod 3)%nat) in *.
  assert (Forall (fun c => isBase64Char c = true /\ c <> 61
                           /\ isWhiteSpace c = false
                           /\ isAsciiWhitespace c = false)
                 (base64Char <$> sextets)) as Hchars.
  { apply Forall_fmap. eapply Forall_impl; [exact Hrange |].
    intros v Hv. by destruct (base64Char_spec v Hv) as (_ & ? & ? & ? & ?). }
  assert (Forall (fun c => isWhiteSpace c = false /\ isAsciiWhitespace c = false)
                 ((base64Char <$> sextets) ++ replicate p 61)) as Hws.
  { apply Forall_app. split.
    - eapply Forall_impl; [exact Hchars |]. by intros c (_ & _ & ? & ?).
    - by apply Forall_replicate. }
  split.
  - unfold atob.
    rewrite removeClass_none
      by (eapply Forall_impl; [exact Hws |]; by intros c [_ ?]).
    rewrite length_app, length_fmap, length_replicate, Hmul. cbn [Nat.eqb].
    rewrite stripPadding_padded;
      [| eapply Forall_impl; [exact Hchars |]; by intros c (_ & ? & _) | done].
    rewrite length_fmap.
    replace (length sextets mod 4 =? 1)%nat with false
      by (symmetry; by apply Nat.eqb_neq).
    assert (forallb isBase64Char (base64Char <$> sextets) = true) as ->.
    { apply forallb_forall. intros c Hc%list_elem_of_In.
      rewrite Forall_forall in Hchars. by apply Hchars in Hc as (? & _). }
    cbn [orb negb]. f_equal. rewrite <- list_fmap_compose.
    etrans; [| exact Hback]. f_equal. rewrite <- (list_fmap_id sextets) at 2.
    apply Forall_fmap_ext. eapply Forall_impl; [exact Hrange |].
    intros v Hv. simpl. by destruct (base64Char_spec v Hv) as (? & _).
  - apply removeClass_none. eapply Forall_impl; [exact Hws |].
    by intros c [? _].
Qed.

Lemma decodeURIComponent_literal f c t :
  c <> 37 ->
  decodeURIComponent_fuel (S f) (c :: t)
  = bind (decodeURIComponent_fuel f t) (fun d => Ok (c :: d)).
Proof.
  intros Hc. cbn [decodeURIComponent_fuel].
  by rewrite (proj2 (Z.eqb_neq c 37)).
Qed.

Lemma decodeURIComponent_percentByte f b t :
  0 <= b < 128 ->
  decodeURIComponent_fuel (S f) (percentByte b ++ t)
  = bind (decodeURIComponent_fuel f t) (fun d => Ok (b :: d)).
Proof.
  intros Hb.
  destruct (hexPair_percentByte b ltac:(unfold isByte; lia)) as [Hpair _].
  unfold percentByte. cbn [app decodeURIComponent_fuel].
  change (37 =? 37) with true. cbn [negb]. rewrite Hpair.
  unfold leadingOnes. by replace (b <? 128) with true by zbool.
Qed.

Lemma readOctets_percentBytes bytes rest :
  Forall isByte bytes ->
  readOctets (length bytes) ((bytes ≫= percentByte) ++ rest)
  = Some (bytes, rest).
Proof.
  induction 1 as [| b bytes Hb _ IH]; [done |].
  destruct (hexPair_percentByte b Hb) as [Hpair _].
  rewrite bind_cons, <- app_assoc. unfold percentByte at 1.
  cbn [app length readOctets]. change (37 =? 37) with true.
  by rewrite Hpair, IH.
Qed.

Lemma sameBytes_refl l : sameBytes l l = true.
Proof. induction l as [| a l IH]; [done |]. simpl. by rewrite Z.eqb_refl. Qed.

(** The bytes of a scalar value above 127: a first byte that tells their
    number, and the code point that they encode. *)
Lemma utf8_multibyte cp :
  isScalarValue cp -> 128 <= cp ->
  exists B bs,
    utf8 cp = B :: bs /\ leadingOnes B = Z.of_nat (length bs) + 1
    /\ (1 <= length bs <= 3)%nat
    /\ Forall (fun b => 128 <= b < 256) (B :: bs)
    /\ codePointOf (B :: bs) = Some cp.
Proof.
  intros Hcp Hhigh.
  assert (forall octets assembled,
            utf8 cp = octets -> assembled = cp ->
            (if (((0 <=? assembled) && (assembled <? 55296))
                 || ((57344 <=? assembled) && (assembled <? 1114112)))
                && sameBytes (utf8 assembled) octets
             then Some assembled else None) = Some cp) as Hcode.
  { intros octets assembled Hutf ->. rewrite Hutf, sameBytes_refl.
    unfold isScalarValue in Hcp. by replace (_ || _) with true by zbool. }
  unfold isScalarValue, leadingOnes in *.
  destruct (cp <? 2048) eqn:H2; [| destruct (cp <? 65536) eqn:H3].
  - assert (utf8 cp = [192 + cp / 64; 128 + cp mod 64]) as Hutf.
    { unfold utf8. replace (cp <? 128) with false by zbool. by rewrite H2. }
    eexists _, _. split; [exact Hutf |]. split.
    { replace (192 + cp / 64 <? 128) with false by zbool.
      replace (192 + cp / 64 <? 192) with false by zbool.
      by replace (192 + cp / 64 <? 224) with true by zbool. }
    split; [simpl; lia |]. split.
    { repeat (apply Forall_cons; split; [cbv beta; zarith |]). done. }
    unfold codePointOf. apply Hcode; [exact Hutf | zarith].
  - assert (utf8 cp = [224 + cp / 4096; 128 + (cp / 64) mod 64;
                       128 + cp mod 64]) as Hutf.
    { unfold utf8. replace (cp <? 128) with false by zbool.
      by rewrite H2, H3. }
    eexists _, _. split; [exact Hutf |]. split.
    { replace (224 + cp / 4096 <? 128) with false by zbool.
      replace (224 + cp / 4096 <? 192) with false by zbool.
      replace (224 + cp / 4096 <? 224) with false by zbool.
      by replace (224 + cp / 4096 <? 240) with true by zbool. }
    split; [simpl; lia |]. split.
    { repeat (apply Forall_cons; split; [cbv beta; zarith |]). done. }
    unfold codePointOf. apply Hcode; [exact Hutf | zarith].
  - assert (utf8 cp = [240 + cp / 262144; 128 + (cp / 4096) mod 64;
                       128 + (cp / 64) mod 64; 128 + cp mod 64]) as Hutf.
    { unfold utf8. replace (cp <? 128) with false by zbool.
      by rewrite H2, H3. }
    eexists _, _. split; [exact Hutf |]. split.
    { replace (240 + cp / 262144 <? 128) with false by zbool.
      replace (240 + cp / 262144 <? 192) with false by zbool.
      replace (240 + cp / 262144 <? 224) with false by zbool.
      replace (240 + cp / 262144 <? 240) with false by zbool.
      by replace (240 + cp / 262144 <? 248) with true by zbool. }
    split; [simpl; lia |]. split.
    { repeat (apply Forall_cons; split; [cbv beta; zarith |]). done. }
    unfold codePointOf. apply Hcode; [exact Hutf | zarith].
Qed.

Lemma decodeURIComponent_multibyte f cp t :
  isScalarValue cp -> 128 <= cp ->
  decodeURIComponent_fuel (S f) ((utf8 cp ≫= percentByte) ++ t)
  = bind (decodeURIComponent_fuel f t) (fun d => Ok (utf16 cp ++ d)).
Proof.
  intros Hcp Hhigh.
  destruct (utf8_multibyte cp Hcp Hhigh)
    as (B & bs & -> & Hlead & Hlen & Hbytes & Hcode).
  apply Forall_cons in Hbytes as [HB Hbs].
  assert (Forall isByte bs) as Hbs'
    by (eapply Forall_impl; [exact Hbs |]; intros b Hb; unfold isByte;
        cbv beta in Hb; lia).
  destruct (hexPair_percentByte B ltac:(unfold isByte; lia)) as [Hpair _].
  rewrite bind_cons, <- app_assoc. unfold percentByte at 1.
  cbn [app decodeURIComponent_fuel]. change (37 =? 37) with true. cbn [negb].
  rewrite Hpair, Hlead.
  replace (Z.of_nat (length bs) + 1 =? 0) with false by zbool.
  replace ((Z.of_nat (length bs) + 1 =? 1) || (4 <? Z.of_nat (length bs) + 1))
    with false by zbool.
  replace (Z.to_nat (Z.of_nat (length bs) + 1 - 1)) with (length bs) by lia.
  by rewrite readOctets_percentBytes, Hcode.
Qed.

(** A text made of units that each decode to their code point decodes to
    the UTF-16 of the code points. *)
Lemma decodeURIComponent_units (unit : Z -> jsstring) cps :
  (forall cp f t, isScalarValue cp ->
     unit cp <> []
     /\ decodeURIComponent_fuel (S f) (unit cp ++ t)
        = bind (decodeURIComponent_fuel f t) (fun d => Ok (utf16 cp ++ d))) ->
  Forall isScalarValue cps ->
  forall fuel, (length (cps ≫= unit) <= fuel)%nat ->
  decodeURIComponent_fuel fuel (cps ≫= unit) = Ok (cps ≫= utf16).
Proof.
  intros Hunit. induction 1 as [| cp cps Hcp _ IH]; intros fuel Hfuel.
  - by destruct fuel.
  - rewrite !bind_cons in *. rewrite length_app in Hfuel.
    destruct (Hunit cp 0%nat [] Hcp) as [Hne _].
    destruct fuel as [| f]; [destruct (unit cp); [done | simpl in Hfuel; lia] |].
    destruct (Hunit cp f (cps ≫= unit) Hcp) as [_ ->].
    rewrite IH; [done |]. destruct (unit cp); [done | simpl in Hfuel; lia].
Qed.

Lemma decodeURIComponent_encodeUnit cp f t :
  isScalarValue cp ->
  encodeUnit cp <> []
  /\ decodeURIComponent_fuel (S f) (encodeUnit cp ++ t)
     = bind (decodeURIComponent_fuel f t) (fun d => Ok (utf16 cp ++ d)).
Proof.
  intros Hcp. unfold encodeUnit.
  destruct (isUriUnreserved cp) eqn:Hun.
  - apply uriUnreserved_ascii in Hun as [Hascii Hpct]. split; [done |].
    cbn [app]. rewrite decodeURIComponent_literal by done.
    by rewrite utf16_ascii.
  - destruct (decide (cp < 128)) as [Hlow | Hhigh].
    + unfold isScalarValue in Hcp. rewrite utf8_ascii by lia.
      rewrite bind_cons, app_nil_r. split; [done |].
      rewrite decodeURIComponent_percentByte by lia.
      by rewrite utf16_ascii by lia.
    + split; [| apply decodeURIComponent_multibyte; [done | lia]].
      pose proof (utf8_nonempty cp). destruct (utf8 cp); [done |].
      by rewrite bind_cons.
Qed.

Lemma decodeURIComponent_escapeUnit cp f t :
  isScalarValue cp ->
  escapeUnit cp <> []
  /\ decodeURIComponent_fuel (S f) (escapeUnit cp ++ t)
     = bind (decodeURIComponent_fuel f t) (fun d => Ok (utf16 cp ++ d)).
Proof.
  intros Hcp. unfold escapeUnit.
  destruct (cp <? 128) eqn:Hlow.
  - unfold isScalarValue in Hcp.
    destruct (isEscapeUnreserved cp) eqn:Hun.
    + split; [done |]. cbn [app]. rewrite decodeURIComponent_literal.
      * by rewrite utf16_ascii by lia.
      * unfold isEscapeUnreserved, isAlphanumeric, isLetter in Hun. lia.
    + split; [done |]. rewrite decodeURIComponent_percentByte by lia.
      by rewrite utf16_ascii by lia.
  - split; [| apply decodeURIComponent_multibyte; [done | lia]].
    pose proof (utf8_nonempty cp). destruct (utf8 cp); [done |].
    by rewrite bind_cons.
Qed.

(** [escape] on the UTF-8 bytes of scalar values. *)
Lemma escape_utf8 cps :
  Forall isScalarValue cps -> escape (cps ≫= utf8) = cps ≫= escapeUnit.
Proof.
  unfold escape. induction 1 as [| cp cps Hcp _ IH]; [done |].
  rewrite !bind_cons, bind_app, IH. f_equal. unfold escapeUnit.
  destruct (cp <? 128) eqn:Hlow.
  - unfold isScalarValue in Hcp. rewrite utf8_ascii by lia.
    rewrite bind_cons, app_nil_r.
    destruct (isEscapeUnreserved cp); [done |].
    by replace (cp <? 256) with true by zbool.
  - destruct (utf8_multibyte cp Hcp ltac:(lia)) as (B & bs & -> & _ & _ & Hb & _).
    induction Hb as [| b l Hb _ IHl]; [done |].
    rewrite !bind_cons, IHl. f_equal.
    assert (isEscapeUnreserved b = false) as ->
      by (unfold isEscapeUnreserved, isAlphanumeric, isLetter; lia).
    by replace (b <? 256) with true by zbool.
Qed.

(** The round trip through Base64 holds for every well-formed text, the
    empty text included (and also when it starts with a byte order
    mark). *)
Theorem toBase64_fromBase64_roundtrip (x : jsstring) :
  wellFormed x = true -> bind (toBase64_fn x) fromBase64_fn = Ok x.
Proof.
  intros Hwf. destruct (scalarValues_wellFormed x Hwf) as [Hscalar Hback].
  unfold toBase64_fn. rewrite encodeURIComponent_scalarValues by done.
  cbn [bind]. rewrite unescape_encodeUnits by done.
  assert (Forall isByte (scalarValues x ≫= utf8)) as Hbytes
    by (by apply TextEncoder_encode_isByte).
  destruct (atob_btoa _ Hbytes) as (text & -> & Hatob & Hclean).
  cbn [rethrow bind]. unfold fromBase64_fn. rewrite Hclean, Hatob.
  cbn [bind]. rewrite escape_utf8 by done. unfold decodeURIComponent.
  rewrite (decodeURIComponent_units escapeUnit); try done.
  - by rewrite Hback.
  - intros cp f t Hcp. by apply decodeURIComponent_escapeUnit.
Qed.

Lemma toBase64_fromBase64_roundtrip_witness :
  bind (toBase64_fn [65279; 233; 8364; 55357; 56832]) fromBase64_fn
  = Ok [65279; 233; 8364; 55357; 56832].
Proof. apply toBase64_fromBase64_roundtrip. reflexivity. Defined.

(** Without a surrogate on its own, a text is well formed. *)
Lemma encodeURIComponent_ill_formed x :
  Forall isCodeUnit x -> wellFormed x = false ->
  encodeURIComponent x = Throw URIError_message.
Proof.
  induction x as [| a | a b l IHl IHbl] using list_pair_ind; intros Hunits Hwf.
  - done.
  - apply Forall_cons in Hunits as [Ha _]. unfold isCodeUnit in Ha.
    cbn [wellFormed] in Hwf.
    replace ((0 <=? a) && (a <? 65536)) with true in Hwf by zbool.
    cbn [andb] in Hwf. apply negb_false_iff in Hwf.
    cbn [encodeURIComponent].
    assert (isUriUnreserved a = false) as ->.
    { destruct (isUriUnreserved a) eqn:Hun; [| done].
      apply uriUnreserved_ascii in Hun.
      unfold isSurrogate, isHighSurrogate, isLowSurrogate in Hwf. lia. }
    unfold isSurrogate in Hwf.
    destruct (isHighSurrogate a); [done |]. cbn [orb] in Hwf. by rewrite Hwf.
  - change (wellFormed (a :: b :: l))
      with ((0 <=? a) && (a <? 65536)
            && (if isHighSurrogate a then isLowSurrogate b && wellFormed l
                else negb (isLowSurrogate a) && wellFormed (b :: l))) in Hwf.
    change (encodeURIComponent (a :: b :: l))
      with (if isUriUnreserved a
            then bind (encodeURIComponent (b :: l)) (fun e => Ok (a :: e))
            else if isHighSurrogate a then
                   if isLowSurrogate b
                   then bind (encodeURIComponent l) (fun e =>
                        Ok ((utf8 (65536 + (a - 55296) * 1024 + (b - 56320))
                               ≫= percentByte) ++ e))
                   else Throw URIError_message
                 else if isLowSurrogate a then Throw URIError_message
                 else bind (encodeURIComponent (b :: l)) (fun e =>
                      Ok ((utf8 a ≫= percentByte) ++ e))).
    apply Forall_cons in Hunits as [Ha Hunits]. unfold isCodeUnit in Ha.
    replace ((0 <=? a) && (a <? 65536)) with true in Hwf by zbool.
    cbn [andb] in Hwf.
    destruct (isUriUnreserved a) eqn:Hun.
    + apply uriUnreserved_ascii in Hun.
      replace (isHighSurrogate a) with false in Hwf
        by (unfold isHighSurrogate; zbool).
      replace (isLowSurrogate a) with false in Hwf
        by (unfold isLowSurrogate; zbool).
      cbn [negb andb] in Hwf. by rewrite (IHbl Hunits Hwf).
    + destruct (isHighSurrogate a).
      * destruct (isLowSurrogate b); [| done]. cbn [andb] in Hwf.
        apply Forall_cons in Hunits as [_ Hunits]. by rewrite (IHl Hunits Hwf).
      * destruct (isLowSurrogate a); [done |]. cbn [negb andb] in Hwf.
        by rewrite (IHbl Hunits Hwf).
Qed.

(** URL encoding and decoding: on a well-formed text the round trip
    holds; a text with a surrogate on its own makes [urlEncode] throw the
    URIError of the host as it is. *)
Theorem urlEncode_urlDecode_roundtrip (x : jsstring) :
  Forall isCodeUnit x ->
  if wellFormed x then bind (urlEncode_fn x) urlDecode_fn = Ok x
  else urlEncode_fn x = Throw URIError_message.
Proof.
  intros Hunits. unfold urlEncode_fn, urlDecode_fn.
  destruct (wellFormed x) eqn:Hwf.
  - destruct (scalarValues_wellFormed x Hwf) as [Hscalar Hback].
    rewrite encodeURIComponent_scalarValues by done. cbn [bind].
    unfold decodeURIComponent.
    rewrite (decodeURIComponent_units encodeUnit); try done.
    + by rewrite Hback.
    + intros cp f t Hcp. by apply decodeURIComponent_encodeUnit.
  - by apply encodeURIComponent_ill_formed.
Qed.

Lemma urlEncode_urlDecode_roundtrip_witness :
  bind (urlEncode_fn (lit "a b&c=100%")) urlDecode_fn = Ok (lit "a b&c=100%").
Proof.
  apply (urlEncode_urlDecode_roundtrip (lit "a b&c=100%")).
  apply Forall_isCodeUnit_check. reflexivity.
Defined.

(** ** The rail fence permutes the text *)

Lemma concat_Permutation {A} (l k : list (list A)) :
  l ≡ₚ k -> concat l ≡ₚ concat k.
Proof.
  induction 1 as [| x l k _ IH | x y l | l k m _ IH1 _ IH2].
  - done.
  - simpl. by rewrite IH.
  - simpl. rewrite !app_assoc. f_equiv. apply Permutation_app_comm.
  - by etrans.
Qed.

Lemma concat_codePoints s : concat (codePoints s) = s.
Proof.
  induction s as [| a | a b l IHl IHbl] using list_pair_ind; [done | done |].
  change (codePoints (a :: b :: l))
    with (if isHighSurrogate a && isLowSurrogate b
          then [a; b] :: codePoints l else [a] :: codePoints (b :: l)).
  destruct (isHighSurrogate a && isLowSurrogate b); cbn [concat app].
  - by rewrite IHl.
  - by rewrite IHbl.
Qed.

Lemma onRail_bump_Permutation {A} (g : nat -> list A) (p : Z) (x : A) a n :
  (Z.of_nat a <= p < Z.of_nat a + Z.of_nat n)%Z ->
  concat ((fun r => if p =? Z.of_nat r then x :: g r else g r) <$> seq a n)
  ≡ₚ x :: concat (g <$> seq a n).
Proof.
  revert a. induction n as [| n IH]; intros a Hp; [lia |].
  cbn [seq]. rewrite !fmap_cons. cbn [concat].
  destruct (Z.eqb_spec p (Z.of_nat a)) as [-> | Hne].
  - cbn [app]. f_equiv. f_equiv.
    assert ((fun r => if Z.of_nat a =? Z.of_nat r then x :: g r else g r)
              <$> seq (S a) n = g <$> seq (S a) n) as ->; [| done].
    apply list_fmap_ext. intros i r Hr. apply lookup_seq in Hr as [-> _].
    by replace (Z.of_nat a =? Z.of_nat (S a + i)) with false
      by (symmetry; apply Z.eqb_neq; lia).
  - rewrite IH by lia. by rewrite Permutation_middle.
Qed.

(** The rails, one after the other, hold the elements of the text. *)
Lemma concat_railContents_Permutation {A} rails pattern (xs : list A) :
  Forall (fun p => 0 <= p < rails) pattern -> length pattern = length xs ->
  concat (railContents rails pattern xs) ≡ₚ xs.
Proof.
  intros Hpat. revert xs. unfold railContents.
  induction Hpat as [| p pattern Hp _ IH]; intros xs Hlen.
  - destruct xs; [| done]. simpl.
    induction (seq 0 (Z.to_nat rails)) as [| r l IHl]; [done |]. done.
  - destruct xs as [| x xs]; [done |]. cbn [onRail].
    rewrite (onRail_bump_Permutation
               (fun r => onRail (Z.of_nat r) pattern xs)) by lia.
    f_equiv. apply IH. simpl in Hlen. lia.
Qed.

(** Whenever the rail fence accepts its parameters, its result is a
    permutation of the code units of the text: none is lost, added or
    changed, whatever the text. *)
Theorem railFence_permutes (x y : jsstring) (params : gmap jsstring Value) :
  railFence_fn x params = Ok y -> y ≡ₚ x /\ length y = length x.
Proof.
  intros Hy.
  assert (y ≡ₚ x) as Hperm; [| split; [done | by rewrite Hperm]].
  revert Hy. unfold railFence_fn.
  set (rails := parseInt_or (prop params (lit "rails")) 3).
  destruct ((rails <? 2) || (10 <? rails)) eqn:Hrange; [done |].
  destruct (Z.of_nat (length x) <? rails); [by intros [= <-] |].
  destruct (railFence_loop_spec rails ltac:(lia) (codePoints x)
              (replicate (Z.to_nat rails) []) (0, 1))
    as (fence' & -> & Hlen & Hfence).
  { apply onFence_start. lia. }
  { by rewrite length_replicate. }
  cbn [bind]. intros [= <-]. rewrite length_replicate in Hlen.
  set (pattern := pattern_loop rails (length (codePoints x)) (0, 1)) in *.
  assert (fence' = railContents rails pattern (codePoints x)) as ->.
  { apply list_eq. intros r.
    destruct (decide (r < Z.to_nat rails)%nat) as [Hr | Hr].
    - rewrite railContents_lookup by done.
      by rewrite (Hfence r []) by (by apply lookup_replicate_2).
    - rewrite !lookup_ge_None_2; [done | |];
        [rewrite length_railContents |]; lia. }
  rewrite <- (concat_codePoints x) at 2. apply concat_Permutation.
  apply concat_railContents_Permutation.
  - apply pattern_loop_onFence; [lia |]. apply onFence_start. lia.
  - apply pattern_loop_length.
Qed.

Lemma railFence_permutes_witness :
  lit "WECRLTEERDSOEEFEAOCAIVDEN" ≡ₚ lit "WEAREDISCOVEREDFLEEATONCE"
  /\ length (lit "WECRLTEERDSOEEFEAOCAIVDEN")
     = length (lit "WEAREDISCOVEREDFLEEATONCE").
Proof.
  apply (railFence_permutes (lit "WEAREDISCOVEREDFLEEATONCE")
           (lit "WECRLTEERDSOEEFEAOCAIVDEN") {[ lit "rails" := VNum 3 ]}).
  vm_compute. reflexivity.
Defined.

(** ** What [fromHex] and the substitution do reject *)

(** [fromHex] throws, with the messages of the source, when the number of
    characters that are not separators is odd, and when it is even and one
    of the pairs starts with a character that is neither a hexadecimal
    digit nor [+]. *)
Theorem fromHex_rejects_odd_length_and_bad_pairs (input : jsstring) :
  let cleaned := removeClass isHexSeparator input in
  (Nat.Odd (length cleaned) ->
   fromHex_fn input
   = Throw (lit "Invalid hex string: Hex string length must be even"))
  /\ (forall l1 a b l2,
        cleaned = l1 ++ a :: b :: l2 ->
        Nat.Even (length l1) -> Nat.Even (length l2) ->
        isHexDigit a = false -> a <> 43 ->
        fromHex_fn input
        = Throw (lit "Invalid hex string: Invalid hex characters")).
Proof.
  intros cleaned. split.
  - intros [k Hk]. apply fromHex_fn_odd. fold cleaned. rewrite Hk.
    apply Nat.eqb_neq. rewrite Nat.add_comm, Nat.mul_comm.
    by rewrite Nat.Div0.mod_add.
  - intros l1 a b l2 Hclean Heven1 Heven2 Hhex Hplus.
    by apply (fromHex_fn_rejects input l1 a b l2).
Qed.

Section SubstitutionChecks.
Context `{Platform}.

(** On ASCII text and with an ASCII alphabet, the substitution accepts the
    alphabet exactly when it has 26 characters that are pairwise different
    whatever their case; it then replaces every letter by the character of
    the alphabet at the place of the letter, in the case of the letter,
    and leaves every other character. Otherwise it throws: that the
    alphabet is required when it is empty, and else that it must contain
    exactly 26 unique letters. *)
Theorem substitution_checks_the_alphabet (al input : jsstring) :
  Forall isAscii al -> Forall isAscii input ->
  substitution_fn input {[ lit "alphabet" := VStr al ]}
  = if bool_decide (length al = 26%nat /\ NoDup (upperAscii <$> al))
    then Ok (substituteLetter (upperAscii <$> al) <$> input)
    else Throw (match al with
                | [] => lit "Substitution alphabet is required"
                | _ => lit "Alphabet must contain exactly 26 unique letters"
                end).
Proof.
  intros Hal Hin.
  destruct (bool_decide_reflect (length al = 26%nat /\ NoDup (upperAscii <$> al)))
    as [[Hlen Hnd] | Hbad].
  - by apply substitution_fn_accepts.
  - assert (match al with
            | [] => lit "Substitution alphabet is required"
            | _ => lit "Alphabet must contain exactly 26 unique letters"
            end
            = if ToBoolean (VStr al)
              then lit "Alphabet must contain exactly 26 unique letters"
              else lit "Substitution alphabet is required") as ->
      by (by destruct al).
    unfold substitution_fn, prop. rewrite lookup_singleton_eq.
    cbn [default from_option id ToString].
    destruct (ToBoolean (VStr al)); [| done].
    cbn [negb]. rewrite distinctCodePoints_ascii by done.
    rewrite toUpperCase_ascii by done. rewrite length_fmap.
    destruct (negb (length al =? 26)%nat
              || negb (length (remove_dups (upperAscii <$> al)) =? 26)%nat)
      eqn:Hchk; [done |].
    apply orb_false_elim in Hchk as [Hlen Hdis].
    apply negb_false_iff, Nat.eqb_eq in Hlen, Hdis. exfalso. apply Hbad.
    split; [done |]. apply length_remove_dups_NoDup.
    by rewrite Hdis, length_fmap.
Qed.
End SubstitutionChecks.

Lemma substitution_checks_the_alphabet_witness :
  @substitution_fn samplePlatform (lit "Hello, World!")
    {[ lit "alphabet" := VStr (lit "qwertyuiopasdfghjklzxcvbnm") ]}
  = Ok (lit "Itssg, Vgksr!").
Proof.
  etrans.
  - apply (@substitution_checks_the_alphabet samplePlatform
             (lit "qwertyuiopasdfghjklzxcvbnm") (lit "Hello, World!"));
      apply Forall_isAscii_lit; reflexivity.
  - vm_compute. reflexivity.
Defined.

(** ** What [fromBase32] accepts *)

Lemma startsWith_singleton (s : jsstring) c :
  startsWith s [c] = match s with d :: _ => c =? d | [] => false end.
Proof.
  destruct s as [| d s]; [done |]. simpl. destruct s; apply andb_true_r.
Qed.

Lemma indexOf_from_singleton (s : jsstring) c : forall i,
  match indexOf_from s [c] i with
  | Some _ => c ∈ s
  | None => c ∉ s
  end.
Proof.
  induction s as [| d s IH]; intros i.
  - simpl. apply not_elem_of_nil.
  - cbn [indexOf_from]. rewrite startsWith_singleton.
    destruct (Z.eqb_spec c d) as [-> | Hne]; [by left |].
    specialize (IH (i + 1)). destruct (indexOf_from s [c] (i + 1)).
    + by right.
    + by intros [? | ?]%elem_of_cons.
Qed.

Lemma fromBase32_bits_singletons (s : jsstring) : forall acc,
  if forallb (fun c => bool_decide (c ∈ base32chars)) s
  then exists bits, fromBase32_bits ((fun c => [c]) <$> s) acc = Ok bits
  else fromBase32_bits ((fun c => [c]) <$> s) acc
       = Throw (lit "Invalid Base32 character").
Proof.
  induction s as [| c s IH]; intros acc; [by eexists |].
  rewrite fmap_cons. cbn [forallb fromBase32_bits]. unfold indexOf.
  pose proof (indexOf_from_singleton base32chars c 0) as Hidx.
  destruct (indexOf_from base32chars [c] 0) as [v |].
  - rewrite bool_decide_eq_true_2 by done. cbn [andb]. apply IH.
  - by rewrite bool_decide_eq_false_2 by done.
Qed.

Lemma Forall_dropWhile (P : Z -> Prop) (f : Z -> bool) s :
  Forall P s -> Forall P (dropWhile f s).
Proof.
  induction 1 as [| c s Hc Hs IH]; [done |]. simpl.
  destruct (f c); [done | by constructor].
Qed.

Section Base32Accepts.
Context `{Platform}.

(** On ASCII text, [fromBase32] returns a text exactly when every
    character before the run of [=] at the end is, once in upper case, a
    character of the alphabet; otherwise it throws that a character is
    invalid. Lower-case letters are thus accepted, and so is a text
    without padding. *)
Theorem fromBase32_accepts_the_alphabet (input : jsstring) :
  Forall isAscii input ->
  if forallb (fun c => bool_decide (c ∈ base32chars))
             (upperAscii <$> stripEquals input)
  then exists out, fromBase32_fn input = Ok out
  else fromBase32_fn input = Throw (lit "Invalid Base32 character").
Proof.
  intros Hin. unfold fromBase32_fn.
  assert (Forall isAscii (stripEquals input)) as Hstrip.
  { unfold stripEquals. apply Forall_reverse.
    by apply Forall_dropWhile, Forall_reverse. }
  rewrite toUpperCase_ascii by done.
  rewrite codePoints_singletons.
  2:{ apply ascii_hasSurrogatePair, Forall_fmap.
      eapply Forall_impl; [exact Hstrip |]. apply upperAscii_isAscii. }
  pose proof (fromBase32_bits_singletons (upperAscii <$> stripEquals input) [])
    as Hbits.
  destruct (forallb _ _).
  - destruct Hbits as [bits ->]. by eexists.
  - by rewrite Hbits.
Qed.
End Base32Accepts.

Lemma fromBase32_accepts_the_alphabet_witness :
  (exists out, @fromBase32_fn samplePlatform (lit "mzxw6") = Ok out)
  /\ @fromBase32_fn samplePlatform (lit "MZ=XW6===")
     = Throw (lit "Invalid Base32 character").
Proof.
  split.
  - apply (@fromBase32_accepts_the_alphabet samplePlatform (lit "mzxw6")).
    apply Forall_isAscii_lit. reflexivity.
  - apply (@fromBase32_accepts_the_alphabet samplePlatform (lit "MZ=XW6===")).
    apply Forall_isAscii_lit. reflexivity.
Defined.

(** ** What [urlDecode] reads *)

Lemma decodeURIComponent_fuel_plain s :
  Forall (fun c => c <> 37) s -> forall fuel, (length s <= fuel)%nat ->
  decodeURIComponent_fuel fuel s = Ok s.
Proof.
  induction 1 as [| c s Hc _ IH]; intros fuel Hfuel; [by destruct fuel |].
  destruct fuel as [| f]; [simpl in Hfuel; lia |].
  rewrite decodeURIComponent_literal by done.
  by rewrite IH by (simpl in Hfuel; lia).
Qed.

Lemma decodeURIComponent_fuel_bad_escape pre rest :
  Forall (fun c => c <> 37) pre ->
  match rest with
  | a :: b :: _ => hexPair a b = None
  | _ => True
  end ->
  forall fuel, (length (pre ++ 37%Z :: rest) <= fuel)%nat ->
  decodeURIComponent_fuel fuel (pre ++ 37 :: rest) = Throw URIError_message.
Proof.
  intros Hpre Hrest. induction Hpre as [| c pre Hc _ IH]; intros fuel Hfuel.
  - destruct fuel as [| f]; [simpl in Hfuel; lia |].
    cbn [app decodeURIComponent_fuel]. change (37 =? 37) with true. cbn [negb].
    destruct rest as [| a [| b r]]; [done | done |]. by rewrite Hrest.
  - destruct fuel as [| f]; [simpl in Hfuel; lia |].
    cbn [app]. rewrite decodeURIComponent_literal by done.
    by rewrite IH by (simpl in Hfuel; lia).
Qed.

(** [urlDecode] returns a text without [%] as it is (a [+] is not read as
    a space), and it throws at a first [%] that is not followed by two
    hexadecimal digits. *)
Theorem urlDecode_reads_percent_escapes (pre rest : jsstring) :
  Forall (fun c => c <> 37) pre ->
  urlDecode_fn pre = Ok pre
  /\ (match rest with
      | a :: b :: _ => hexPair a b = None
      | _ => True
      end ->
      urlDecode_fn (pre ++ 37 :: rest) = Throw (lit "Invalid URL encoding")).
Proof.
  intros Hpre. unfold urlDecode_fn, decodeURIComponent. split.
  - by rewrite decodeURIComponent_fuel_plain.
  - intros Hrest. by rewrite decodeURIComponent_fuel_bad_escape.
Qed.

Lemma urlDecode_reads_percent_escapes_witness :
  urlDecode_fn (lit "a+b c") = Ok (lit "a+b c")
  /\ urlDecode_fn (lit "a+b c%4x") = Throw (lit "Invalid URL encoding").
Proof.
  destruct (urlDecode_reads_percent_escapes (lit "a+b c") (lit "4x"))
    as [Hplain Hbad].
  - apply Forall_forall. intros c Hc%list_elem_of_In. simpl in Hc.
    repeat (destruct Hc as [<- | Hc]; [discriminate |]). destruct Hc.
  - split; [exact Hplain |]. apply Hbad. reflexivity.
Defined.
